(** * TuiTunes: the player core of [player.go], embedded and verified

    The development follows [src/player.go]: the [Track] and [Player]
    structs, the scanner ([ScanMusicFiles], [extractMetadata]), the
    transport operations ([Play], [Pause], [Resume], [Stop], [NextTrack],
    [PreviousTrack], the two toggles), [Search] and the position queries.
    On top of it comes the key handling of [ui.go]: the [Model], [Update],
    [handleKeyPress] and [handleSearchInput]; the rendering is left out.

    Go values that live behind pointers are kept in an explicit store:
    backing arrays of [[]Track] slices, the [beep.Ctrl] objects handed to
    the speaker, and a trace of the paths given to [loadTrack].  The
    collaborators outside the repository (file system, decoders, Unicode
    tables, the allocator's growth policy) are the fields of [Env]. *)

From stdpp Require Import base tactics option list strings.
From Stdlib Require Import ZArith Lia Ascii Sorted.
From Stdlib Require OrderedTypeEx.

Local Open Scope Z_scope.

(** ** Go's [int]: 64-bit, two's complement *)

Definition wrap64 (x : Z) : Z := (x + 2 ^ 63) mod 2 ^ 64 - 2 ^ 63.

(** ** The parts of package [strings] that [player.go] calls

    Go strings are byte sequences; [string] is used with one [ascii] per
    byte. *)

Module GoStrings.

Definition byte_val (c : ascii) : Z := Z.of_N (N_of_ascii c).

Fixpoint strlen (s : string) : nat :=
  match s with
  | EmptyString => 0%nat
  | String _ s' => S (strlen s')
  end.

(** [s[n:]] and [s[:n]] *)
Fixpoint from (n : nat) (s : string) : string :=
  match n, s with
  | O, _ => s
  | S n', String _ s' => from n' s'
  | S _, EmptyString => EmptyString
  end.

Fixpoint upto (n : nat) (s : string) : string :=
  match n, s with
  | O, _ => EmptyString
  | S n', String c s' => String c (upto n' s')
  | S _, EmptyString => EmptyString
  end.

Fixpoint HasPrefix (s prefix : string) {struct prefix} : bool :=
  match prefix, s with
  | EmptyString, _ => true
  | String c p', String d s' => if decide (c = d) then HasPrefix s' p' else false
  | String _ _, EmptyString => false
  end.

Definition HasSuffix (s suffix : string) : bool :=
  (strlen suffix <=? strlen s)%nat &&
  bool_decide (from (strlen s - strlen suffix) s = suffix).

Definition TrimSuffix (s suffix : string) : string :=
  if HasSuffix s suffix then upto (strlen s - strlen suffix) s else s.

(** [Index] returns the first position at which [substr] occurs in [s],
    or -1. *)
Fixpoint Index (s substr : string) : Z :=
  if HasPrefix s substr then 0
  else match s with
       | EmptyString => -1
       | String _ s' =>
           let i := Index s' substr in
           if i <? 0 then -1 else i + 1
       end.

Definition Contains (s substr : string) : bool := 0 <=? Index s substr.

(** [Count(s, sep)] for a non-empty [sep]: non-overlapping occurrences. *)
Fixpoint count_loop (fuel : nat) (s sep : string) : nat :=
  match fuel with
  | O => 0%nat
  | S fuel' =>
      let m := Index s sep in
      if m <? 0 then 0%nat
      else S (count_loop fuel' (from (Z.to_nat m + strlen sep) s) sep)
  end.

Definition Count (s sep : string) : nat :=
  match sep with
  | EmptyString => S (strlen s)
  | _ => count_loop (strlen s) s sep
  end.

(** [Split(s, sep)], i.e. [genSplit(s, sep, 0, -1)].  For the empty
    separator Go cuts after every UTF-8 sequence; the model cuts after
    every byte, which is the same on ASCII text.  [player.go] only splits
    on the path separator. *)
Fixpoint explode (s : string) : list string :=
  match s with
  | EmptyString => []
  | String c s' => String c EmptyString :: explode s'
  end.

Fixpoint split_loop (fuel : nat) (s sep : string) : list string :=
  match fuel with
  | O => [s]
  | S fuel' =>
      let m := Index s sep in
      if m <? 0 then [s]
      else upto (Z.to_nat m) s
             :: split_loop fuel' (from (Z.to_nat m + strlen sep) s) sep
  end.

Definition Split (s sep : string) : list string :=
  match sep with
  | EmptyString => explode s
  | _ => split_loop (Count s sep) s sep
  end.

(** [ToLower]: the ASCII fast path is Go's own code; a string with a byte
    at or above [utf8.RuneSelf] goes through [Map(unicode.ToLower, s)],
    which is taken from the Unicode tables ([unicode_lower]). *)
Definition is_upper (c : ascii) : bool :=
  (65 <=? byte_val c) && (byte_val c <=? 90).

Definition lower_byte (c : ascii) : ascii :=
  if is_upper c then ascii_of_N (N_of_ascii c + 32) else c.

Fixpoint isASCII (s : string) : bool :=
  match s with
  | EmptyString => true
  | String c s' => (byte_val c <? 128) && isASCII s'
  end.

Fixpoint hasUpper (s : string) : bool :=
  match s with
  | EmptyString => false
  | String c s' => is_upper c || hasUpper s'
  end.

Fixpoint map_bytes (f : ascii -> ascii) (s : string) : string :=
  match s with
  | EmptyString => EmptyString
  | String c s' => String (f c) (map_bytes f s')
  end.

Definition ToLowerWith (unicode_lower : string -> string) (s : string) : string :=
  if isASCII s then
    if hasUpper s then map_bytes lower_byte s else s
  else unicode_lower s.

End GoStrings.

(** ** The parts of package [path/filepath] that [player.go] calls

    Unix flavour: the separator is the slash and there are no volume
    names.  The loops of the Go code that advance an index [r] through
    [path] are written on the unread suffix [path[r:]]. *)

Module GoFilepath.
Import GoStrings.

Definition Separator : string := "/".

Definition IsPathSeparator (c : ascii) : bool := bool_decide (c = "/"%char).

Fixpoint byte_at (i : nat) (s : string) {struct s} : option ascii :=
  match s, i with
  | EmptyString, _ => None
  | String c _, O => Some c
  | String _ s', S i' => byte_at i' s'
  end.

(** [i := len(path) - 1; for i >= 0 && !IsPathSeparator(path[i]) { i-- }],
    started with [i + 1] and returning the final [i + 1]. *)
Fixpoint last_sep (i : nat) (path : string) : nat :=
  match i with
  | O => O
  | S j =>
      match byte_at j path with
      | Some c => if IsPathSeparator c then S j else last_sep j path
      | None => last_sep j path
      end
  end.

Fixpoint ext_loop (i : nat) (path : string) : string :=
  match i with
  | O => ""
  | S j =>
      match byte_at j path with
      | Some c =>
          if IsPathSeparator c then ""
          else if bool_decide (c = "."%char) then from j path
          else ext_loop j path
      | None => ""
      end
  end.

Definition Ext (path : string) : string := ext_loop (strlen path) path.

(** [for len(path) > 0 && IsPathSeparator(path[len(path)-1])
      { path = path[0 : len(path)-1] }] *)
Fixpoint strip_trailing (i : nat) (path : string) : string :=
  match i with
  | O => ""
  | S j =>
      match byte_at j path with
      | Some c => if IsPathSeparator c then strip_trailing j path
                  else upto (S j) path
      | None => strip_trailing j path
      end
  end.

Definition Base (path : string) : string :=
  if bool_decide (path = "") then "."
  else
    let path := strip_trailing (strlen path) path in
    let path := from (last_sep (strlen path) path) path in
    if bool_decide (path = "") then Separator else path.

Definition end_or_sep (rest : string) : bool :=
  match rest with
  | EmptyString => true
  | String c _ => IsPathSeparator c
  end.

(** The path element at the head of [rest] and what follows it. *)
Fixpoint span_elem (rest : string) : string * string :=
  match rest with
  | EmptyString => ("", "")
  | String c rest' =>
      if IsPathSeparator c then ("", rest)
      else let '(e, r) := span_elem rest' in (String c e, r)
  end.

(** [for out.w > dotdot && !IsPathSeparator(out.index(out.w)) { out.w-- }] *)
Fixpoint backtrack (w dotdot : nat) (out : string) : nat :=
  match w with
  | O => O
  | S w' =>
      if (dotdot <? w)%nat
         && negb (from_option IsPathSeparator false (byte_at w out))
      then backtrack w' dotdot out
      else w
  end.

Fixpoint clean_loop (fuel : nat) (rooted : bool) (rest out : string)
    (dotdot : nat) : string :=
  match fuel with
  | O => out
  | S fuel' =>
      match rest with
      | EmptyString => out
      | String c rest1 =>
          if IsPathSeparator c then
            (* empty path element *)
            clean_loop fuel' rooted rest1 out dotdot
          else if bool_decide (c = "."%char) && end_or_sep rest1 then
            (* . element *)
            clean_loop fuel' rooted rest1 out dotdot
          else if bool_decide (c = "."%char)
                  && HasPrefix rest1 "." && end_or_sep (from 1 rest1) then
            (* .. element: remove to last separator *)
            let rest2 := from 1 rest1 in
            if (dotdot <? strlen out)%nat then
              let w := backtrack (strlen out - 1) dotdot out in
              clean_loop fuel' rooted rest2 (upto w out) dotdot
            else if negb rooted then
              let out' :=
                ((if (0 <? strlen out)%nat then out +:+ Separator else out)
                   +:+ "..") in
              clean_loop fuel' rooted rest2 out' (strlen out')
            else clean_loop fuel' rooted rest2 out dotdot
          else
            (* real path element: add slash if needed, copy element *)
            let out1 :=
              if (rooted && negb (strlen out =? 1)%nat)
                 || (negb rooted && negb (strlen out =? 0)%nat)
              then out +:+ Separator else out in
            let '(e, rest') := span_elem rest in
            clean_loop fuel' rooted rest' (out1 +:+ e) dotdot
      end
  end.

Definition Clean (path : string) : string :=
  match path with
  | EmptyString => "."
  | String c _ =>
      let rooted := IsPathSeparator c in
      let out :=
        if rooted then clean_loop (S (strlen path)) true (from 1 path) Separator 1
        else clean_loop (S (strlen path)) false path "" 0 in
      if bool_decide (out = "") then "." else out
  end.

Definition Dir (path : string) : string :=
  Clean (upto (last_sep (strlen path) path) path).

(** The loop of [Rel] that walks [base] and [targ] element by element up
    to the first difference; it returns [base[b0:]], [base[b0:bi]] and
    [targ[t0:]]. *)
Definition skip_sep (s : string) : string :=
  match s with
  | String c s' => if IsPathSeparator c then s' else s
  | EmptyString => s
  end.

Fixpoint rel_loop (fuel : nat) (base targ : string)
    : string * string * string :=
  match fuel with
  | O => (base, "", targ)
  | S fuel' =>
      if bool_decide (base = "") || bool_decide (targ = "") then
        (base, "", targ)
      else
        let '(eb, base') := span_elem base in
        let '(et, targ') := span_elem targ in
        if bool_decide (et = eb) then
          rel_loop fuel' (skip_sep base') (skip_sep targ')
        else (base, eb, targ)
  end.

Fixpoint repeat_str (n : nat) (s : string) : string :=
  match n with
  | O => ""
  | S n' => s +:+ repeat_str n' s
  end.

Definition Rel (basepath targpath : string) : string * option string :=
  let cant :=
    Some ("Rel: can't make " +:+ targpath +:+ " relative to " +:+ basepath) in
  let base := Clean basepath in
  let targ := Clean targpath in
  if bool_decide (targ = base) then (".", None)
  else
    let base := if bool_decide (base = ".") then "" else base in
    let baseSlashed := HasPrefix base Separator in
    let targSlashed := HasPrefix targ Separator in
    if negb (bool_decide (baseSlashed = targSlashed)) then ("", cant)
    else
      let '(b, eb, t) := rel_loop (S (strlen base)) base targ in
      if bool_decide (eb = "..") then ("", cant)
      else if negb (bool_decide (b = "")) then
        (* base elements left: go up before going down *)
        let seps := Count b Separator in
        (".." +:+ repeat_str seps (Separator +:+ "..")
           +:+ (if bool_decide (t = "") then "" else Separator +:+ t),
         None)
      else (t, None).

End GoFilepath.

(** ** Errors, results

    A Go [error] value with the text its [Error()] method gives. *)

Inductive error : Type :=
  | errorString (s : string)                   (* errors.New, fmt.Errorf without %w *)
  | PathError (Op Path : string) (Err : error) (* *fs.PathError *)
  | wrapError (msg : string) (err : error).    (* fmt.Errorf with one %w *)

Fixpoint Error (e : error) : string :=
  match e with
  | errorString s => s
  | PathError op path err => op +:+ " " +:+ path +:+ ": " +:+ Error err
  | wrapError msg _ => msg
  end.

(** [fmt.Errorf(prefix + "%w", err)] *)
Definition fmt_Errorf_w (prefix : string) (err : error) : error :=
  wrapError (prefix +:+ Error err) err.

(** What a call does: it returns, or the goroutine panics. *)
Inductive result (A : Type) : Type :=
  | Returns (a : A)
  | Panics (msg : string).
Arguments Returns {A} a.
Arguments Panics {A} msg.

Definition index_out_of_range : string := "runtime error: index out of range".
Definition nil_dereference : string :=
  "runtime error: invalid memory address or nil pointer dereference".

(** ** Data model *)

Module Track.
Record t : Type := mk {
  Path : string;
  Title : string;
  Artist : string;
  Album : string;
  Duration : Z;      (* time.Duration, nanoseconds *)
  Format : string;
}.

(** The zero value of the struct. *)
Definition zero : t := mk "" "" "" "" 0 "".

Definition set_Title (v : string) (x : t) : t :=
  mk (Path x) v (Artist x) (Album x) (Duration x) (Format x).
Definition set_Artist (v : string) (x : t) : t :=
  mk (Path x) (Title x) v (Album x) (Duration x) (Format x).
Definition set_Album (v : string) (x : t) : t :=
  mk (Path x) (Title x) (Artist x) v (Duration x) (Format x).
End Track.

Global Instance Track_eq_dec : EqDecision Track.t.
Proof. solve_decision. Defined.

Inductive PlayerState : Type := Stopped | Playing | Paused.

Global Instance PlayerState_eq_dec : EqDecision PlayerState.
Proof. solve_decision. Defined.

(** [beep.Format] *)
Record beep_Format : Type := {
  SampleRate : Z;
  NumChannels : Z;
  Precision : Z;
}.

(** What the decoded stream reports: [Position()] and [Len()], in samples. *)
Record StreamSeeker : Type := {
  Position : Z;
  Len : Z;
}.

(** [beep.ResampleRatio(quality, 1.0, s)] *)
Inductive Resampler : Type :=
  | ResampleRatio (quality : Z) (s : StreamSeeker).

(** A [beep.Ctrl] object. *)
Record beep_Ctrl : Type := {
  Ctrl_Streamer : Resampler;
  Ctrl_Paused : bool;
}.

(** A slice header [[]Track]: address of the backing array, length,
    capacity.  Address 0 is the shared zero-size array of empty slices. *)
Record slice : Type := {
  s_ptr : nat;
  s_len : nat;
  s_cap : nat;
}.

Definition nil_slice : slice := {| s_ptr := 0; s_len := 0; s_cap := 0 |}.

Record Player : Type := {
  MusicDir : string;
  Tracks : slice;
  CurrentTrack : Z;
  State : PlayerState;
  Repeat : bool;
  Shuffle : bool;
  SearchQuery : string;
  FilteredTracks : slice;
  (* audio stuff *)
  Streamer : option StreamSeeker;
  Ctrl : option nat;            (* *beep.Ctrl: address in [ctrls] *)
  Format : beep_Format;
  LoadedTrack : Z;
}.

(** Everything the player reaches through pointers or package state. *)
Record World : Type := {
  arrays : list (list Track.t); (* backing arrays, by address *)
  ctrls : list beep_Ctrl;       (* the beep.Ctrl objects, by address *)
  speaker : list nat;           (* the controls given to speaker.Play *)
  decoded : list string;        (* the paths given to loadTrack, in order *)
}.

Definition init_World : World :=
  {| arrays := [[]]; ctrls := []; speaker := []; decoded := [] |}.

(** One call of the [WalkDir] callback: [fn(path, d, err)]. *)
Record WalkCall : Type := {
  walk_path : string;
  walk_IsDir : bool;
  walk_err : option error;
}.

(** The collaborators outside the repository. *)
Record Env : Type := {
  (* the file system: the contents of a file, or why it cannot be opened *)
  fs_open : string -> string + error;
  (* mp3.Decode and wav.Decode, on the contents of the opened file *)
  mp3_Decode : string -> (StreamSeeker * beep_Format) + error;
  wav_Decode : string -> (StreamSeeker * beep_Format) + error;
  (* the calls filepath.WalkDir makes to a callback that returns nil unless
     it is handed an error *)
  fs_walk : string -> list WalkCall;
  (* strings.Map(unicode.ToLower, s) *)
  unicode_lower : string -> string;
  (* the capacity the runtime picks when append has to grow an array *)
  growslice : nat -> nat;
}.

(** *** Field updates *)

Definition set_Tracks (v : slice) (p : Player) : Player :=
  {| MusicDir := MusicDir p; Tracks := v; CurrentTrack := CurrentTrack p;
     State := State p; Repeat := Repeat p; Shuffle := Shuffle p;
     SearchQuery := SearchQuery p; FilteredTracks := FilteredTracks p;
     Streamer := Streamer p; Ctrl := Ctrl p; Format := Format p;
     LoadedTrack := LoadedTrack p |}.
Definition set_CurrentTrack (v : Z) (p : Player) : Player :=
  {| MusicDir := MusicDir p; Tracks := Tracks p; CurrentTrack := v;
     State := State p; Repeat := Repeat p; Shuffle := Shuffle p;
     SearchQuery := SearchQuery p; FilteredTracks := FilteredTracks p;
     Streamer := Streamer p; Ctrl := Ctrl p; Format := Format p;
     LoadedTrack := LoadedTrack p |}.
Definition set_State (v : PlayerState) (p : Player) : Player :=
  {| MusicDir := MusicDir p; Tracks := Tracks p; CurrentTrack := CurrentTrack p;
     State := v; Repeat := Repeat p; Shuffle := Shuffle p;
     SearchQuery := SearchQuery p; FilteredTracks := FilteredTracks p;
     Streamer := Streamer p; Ctrl := Ctrl p; Format := Format p;
     LoadedTrack := LoadedTrack p |}.
Definition set_Repeat (v : bool) (p : Player) : Player :=
  {| MusicDir := MusicDir p; Tracks := Tracks p; CurrentTrack := CurrentTrack p;
     State := State p; Repeat := v; Shuffle := Shuffle p;
     SearchQuery := SearchQuery p; FilteredTracks := FilteredTracks p;
     Streamer := Streamer p; Ctrl := Ctrl p; Format := Format p;
     LoadedTrack := LoadedTrack p |}.
Definition set_Shuffle (v : bool) (p : Player) : Player :=
  {| MusicDir := MusicDir p; Tracks := Tracks p; CurrentTrack := CurrentTrack p;
     State := State p; Repeat := Repeat p; Shuffle := v;
     SearchQuery := SearchQuery p; FilteredTracks := FilteredTracks p;
     Streamer := Streamer p; Ctrl := Ctrl p; Format := Format p;
     LoadedTrack := LoadedTrack p |}.
Definition set_SearchQuery (v : string) (p : Player) : Player :=
  {| MusicDir := MusicDir p; Tracks := Tracks p; CurrentTrack := CurrentTrack p;
     State := State p; Repeat := Repeat p; Shuffle := Shuffle p;
     SearchQuery := v; FilteredTracks := FilteredTracks p;
     Streamer := Streamer p; Ctrl := Ctrl p; Format := Format p;
     LoadedTrack := LoadedTrack p |}.
Definition set_FilteredTracks (v : slice) (p : Player) : Player :=
  {| MusicDir := MusicDir p; Tracks := Tracks p; CurrentTrack := CurrentTrack p;
     State := State p; Repeat := Repeat p; Shuffle := Shuffle p;
     SearchQuery := SearchQuery p; FilteredTracks := v;
     Streamer := Streamer p; Ctrl := Ctrl p; Format := Format p;
     LoadedTrack := LoadedTrack p |}.
Definition set_Streamer (v : option StreamSeeker) (p : Player) : Player :=
  {| MusicDir := MusicDir p; Tracks := Tracks p; CurrentTrack := CurrentTrack p;
     State := State p; Repeat := Repeat p; Shuffle := Shuffle p;
     SearchQuery := SearchQuery p; FilteredTracks := FilteredTracks p;
     Streamer := v; Ctrl := Ctrl p; Format := Format p;
     LoadedTrack := LoadedTrack p |}.
Definition set_Ctrl (v : option nat) (p : Player) : Player :=
  {| MusicDir := MusicDir p; Tracks := Tracks p; CurrentTrack := CurrentTrack p;
     State := State p; Repeat := Repeat p; Shuffle := Shuffle p;
     SearchQuery := SearchQuery p; FilteredTracks := FilteredTracks p;
     Streamer := Streamer p; Ctrl := v; Format := Format p;
     LoadedTrack := LoadedTrack p |}.
Definition set_Format (v : beep_Format) (p : Player) : Player :=
  {| MusicDir := MusicDir p; Tracks := Tracks p; CurrentTrack := CurrentTrack p;
     State := State p; Repeat := Repeat p; Shuffle := Shuffle p;
     SearchQuery := SearchQuery p; FilteredTracks := FilteredTracks p;
     Streamer := Streamer p; Ctrl := Ctrl p; Format := v;
     LoadedTrack := LoadedTrack p |}.
Definition set_LoadedTrack (v : Z) (p : Player) : Player :=
  {| MusicDir := MusicDir p; Tracks := Tracks p; CurrentTrack := CurrentTrack p;
     State := State p; Repeat := Repeat p; Shuffle := Shuffle p;
     SearchQuery := SearchQuery p; FilteredTracks := FilteredTracks p;
     Streamer := Streamer p; Ctrl := Ctrl p; Format := Format p;
     LoadedTrack := v |}.

Definition set_arrays (v : list (list Track.t)) (w : World) : World :=
  {| arrays := v; ctrls := ctrls w; speaker := speaker w; decoded := decoded w |}.
Definition set_ctrls (v : list beep_Ctrl) (w : World) : World :=
  {| arrays := arrays w; ctrls := v; speaker := speaker w; decoded := decoded w |}.
Definition set_speaker (v : list nat) (w : World) : World :=
  {| arrays := arrays w; ctrls := ctrls w; speaker := v; decoded := decoded w |}.
Definition set_decoded (v : list string) (w : World) : World :=
  {| arrays := arrays w; ctrls := ctrls w; speaker := speaker w; decoded := v |}.

(** ** Slices over the store *)

Definition len (s : slice) : Z := Z.of_nat (s_len s).

(** The backing array at an address. *)
Definition array_at (w : World) (a : nat) : list Track.t :=
  default [] (arrays w !! a).

(** The elements of a slice, [s[0]] to [s[len(s)-1]]. *)
Definition elems (w : World) (s : slice) : list Track.t :=
  take (s_len s) (array_at w (s_ptr s)).

(** The element a [range] loop reads at index [i < len(s)]. *)
Definition elem_at (w : World) (s : slice) (i : nat) : Track.t :=
  default Track.zero (array_at w (s_ptr s) !! i).

(** The index expression [s[i]], with its bounds check. *)
Definition index (w : World) (s : slice) (i : Z) : result Track.t :=
  if (0 <=? i) && (i <? len s) then Returns (elem_at w s (Z.to_nat i))
  else Panics index_out_of_range.

(** [append(s, x)]: in place when the capacity allows, else into a new
    array. *)
Definition append (E : Env) (s : slice) (x : Track.t) (w : World)
    : slice * World :=
  if (s_len s <? s_cap s)%nat then
    ({| s_ptr := s_ptr s; s_len := S (s_len s); s_cap := s_cap s |},
     set_arrays (alter (λ a, <[s_len s := x]> a) (s_ptr s) (arrays w)) w)
  else
    let newcap := (S (s_len s) `max` growslice E (s_cap s))%nat in
    ({| s_ptr := length (arrays w); s_len := S (s_len s); s_cap := newcap |},
     set_arrays
       (arrays w ++ [elems w s ++ [x]
                       ++ replicate (newcap - S (s_len s)) Track.zero]) w).

(** [p.Ctrl.Paused = b] through the pointer [c]. *)
Definition set_Paused (c : nat) (b : bool) (w : World) : World :=
  set_ctrls
    (alter (λ o, {| Ctrl_Streamer := Ctrl_Streamer o; Ctrl_Paused := b |})
       c (ctrls w)) w.

(** [&beep.Ctrl{...}] *)
Definition new_Ctrl (o : beep_Ctrl) (w : World) : nat * World :=
  (length (ctrls w), set_ctrls (ctrls w ++ [o]) w).

(** [speaker.Play(c)] *)
Definition speaker_Play (c : nat) (w : World) : World :=
  set_speaker (speaker w ++ [c]) w.

(** [beep.SampleRate.D]: [time.Second * time.Duration(n) / time.Duration(sr)]
    on int64. *)
Definition SampleRate_D (sr n : Z) : result Z :=
  if sr =? 0 then Panics "runtime error: integer divide by zero"
  else Returns (wrap64 (Z.quot (wrap64 (1000000000 * n)) sr)).

(** [os.Open]: a failure is a [*PathError] with the name of the file. *)
Definition os_Open (E : Env) (name : string) : string + error :=
  match fs_open E name with
  | inl file => inl file
  | inr err => inr (PathError "open" name err)
  end.

Definition ToLower (E : Env) (s : string) : string :=
  GoStrings.ToLowerWith (unicode_lower E) s.

(** ** The player *)

Import GoStrings GoFilepath.

(** make a new player *)
Definition NewPlayer (musicDir : string) : Player :=
  {| MusicDir := musicDir; Tracks := nil_slice; CurrentTrack := 0;
     State := Stopped; Repeat := false; Shuffle := false;
     SearchQuery := ""; FilteredTracks := nil_slice;
     Streamer := None; Ctrl := None;
     Format := {| SampleRate := 0; NumChannels := 0; Precision := 0 |};
     LoadedTrack := 0 |}.

(** what file types we can play *)
Definition formats (ext : string) : bool :=
  bool_decide (ext ∈ [".mp3"; ".wav"; ".flac"; ".m4a"; ".aac"; ".ogg"]).

(** get song info from filename and folder *)
Definition extractMetadata (p : Player) (track : Track.t) : Track.t :=
  (* just use filename for now *)
  let baseName := Base (Track.Path track) in
  let ext := Ext baseName in
  let track := Track.set_Title (TrimSuffix baseName ext) track in
  (* try to get artist/album from folder structure *)
  let relPath := fst (Rel (MusicDir p) (Track.Path track)) in
  let parts := Split (Dir relPath) Separator in
  if (2 <=? length parts)%nat then
    Track.set_Album (nth 1 parts "") (Track.set_Artist (nth 0 parts "") track)
  else if (length parts =? 1)%nat && negb (bool_decide (nth 0 parts "" = "."))
  then Track.set_Artist (nth 0 parts "") track
  else track.

(** The callback of [ScanMusicFiles], over the calls [WalkDir] makes; the
    walk ends at the first call that carries an error. *)
Fixpoint scan_walk (E : Env) (calls : list WalkCall) (p : Player) (w : World)
    : option error * Player * World :=
  match calls with
  | [] => (None, p, w)
  | c :: calls' =>
      match walk_err c with
      | Some err => (Some err, p, w)
      | None =>
          if walk_IsDir c then scan_walk E calls' p w
          else
            let path := walk_path c in
            let ext := ToLower E (Ext path) in
            if formats ext then
              let track :=
                {| Track.Path := path; Track.Title := Base path;
                   Track.Artist := ""; Track.Album := ""; Track.Duration := 0;
                   Track.Format := ext |} in
              (* get song info from filename *)
              let track := extractMetadata p track in
              let '(s, w) := append E (Tracks p) track w in
              scan_walk E calls' (set_Tracks s p) w
            else scan_walk E calls' p w
      end
  end.

(** [sort.Slice] with [less(i, j) = Tracks[i].Path < Tracks[j].Path]. *)
Definition less (a b : Track.t) : bool :=
  String.ltb (Track.Path a) (Track.Path b).

Fixpoint sort_insert (x : Track.t) (l : list Track.t) : list Track.t :=
  match l with
  | [] => [x]
  | y :: l' => if less y x then y :: sort_insert x l' else x :: l
  end.

Definition sort_tracks (l : list Track.t) : list Track.t :=
  foldr sort_insert [] l.

Definition sort_Slice (s : slice) (w : World) : World :=
  set_arrays
    (alter (λ a, sort_tracks (take (s_len s) a) ++ drop (s_len s) a)
       (s_ptr s) (arrays w)) w.

(** find all music files *)
Definition ScanMusicFiles (E : Env) (p : Player) (w : World)
    : option error * Player * World :=
  let p := set_Tracks nil_slice p in
  let '(err, p, w) := scan_walk E (fs_walk E (MusicDir p)) p w in
  match err with
  | Some err => (Some err, p, w)
  | None =>
      (* sort by filename *)
      (None, p, sort_Slice (Tracks p) w)
  end.

(** start up the player *)
Definition Initialize (E : Env) (p : Player) (w : World)
    : option error * Player * World :=
  (* setup audio *)
  let w := set_speaker [] w in
  (* find all the music *)
  let '(err, p, w) := ScanMusicFiles E p w in
  match err with
  | Some err => (Some (fmt_Errorf_w "couldn't find music: " err), p, w)
  | None =>
      (* start with all tracks visible *)
      (None, set_FilteredTracks (Tracks p) p, w)
  end.

(** load a music file *)
Definition loadTrack (E : Env) (path : string)
    : (StreamSeeker * beep_Format) + error :=
  match os_Open E path with
  | inr err => inr err
  | inl file =>
      let ext := ToLower E (Ext path) in
      if bool_decide (ext = ".mp3") then mp3_Decode E file
      else if bool_decide (ext = ".wav") then wav_Decode E file
      else (* try mp3 for everything else *) mp3_Decode E file
  end.

(** play the current song *)
Definition Play (E : Env) (p : Player) (w : World)
    : result (option error) * Player * World :=
  if len (FilteredTracks p) =? 0 then
    (Returns (Some (errorString "no songs found")), p, w)
  else
    let p :=
      if len (FilteredTracks p) <=? CurrentTrack p then set_CurrentTrack 0 p
      else p in
    (* if we're paused on the same song, just resume *)
    if bool_decide (State p = Paused) && bool_decide (Streamer p ≠ None)
       && (LoadedTrack p =? CurrentTrack p) then
      match Ctrl p with
      | None => (Panics nil_dereference, p, w)
      | Some c => (Returns None, set_State Playing p, set_Paused c false w)
      end
    (* if already playing the same song, do nothing *)
    else if bool_decide (State p = Playing) && bool_decide (Streamer p ≠ None)
            && (LoadedTrack p =? CurrentTrack p) then
      (Returns None, p, w)
    else
      match index w (FilteredTracks p) (CurrentTrack p) with
      | Panics msg => (Panics msg, p, w)
      | Returns track =>
          (* stop whatever's playing *)
          let w := match Ctrl p with
                   | Some c => set_Paused c true w
                   | None => w
                   end in
          (* load the new song *)
          let w := set_decoded (decoded w ++ [Track.Path track]) w in
          match loadTrack E (Track.Path track) with
          | inr err =>
              (Returns (Some (fmt_Errorf_w "can't load song: " err)), p, w)
          | inl (streamer, format) =>
              let p := set_Streamer (Some streamer) p in
              let p := set_Format format p in
              let '(c, w) :=
                new_Ctrl {| Ctrl_Streamer := ResampleRatio 4 streamer;
                            Ctrl_Paused := false |} w in
              let p := set_Ctrl (Some c) p in
              let p := set_LoadedTrack (CurrentTrack p) p in
              let w := speaker_Play c w in
              let p := set_State Playing p in
              (Returns None, p, w)
          end
      end.

(** pause the song *)
Definition Pause (p : Player) (w : World) : Player * World :=
  match Ctrl p with
  | None => (p, w)
  | Some c =>
      if bool_decide (State p = Playing) then
        (set_State Paused p, set_Paused c true w)
      else (p, w)
  end.

(** resume from where we paused *)
Definition Resume (p : Player) (w : World) : Player * World :=
  match Ctrl p with
  | None => (p, w)
  | Some c =>
      if bool_decide (State p = Paused) then
        (set_State Playing p, set_Paused c false w)
      else (p, w)
  end.

(** stop everything *)
Definition Stop (p : Player) (w : World) : Player * World :=
  let w := match Ctrl p with
           | Some c => set_Paused c true w
           | None => w
           end in
  let p := set_State Stopped p in
  let p := set_LoadedTrack (-1) p in
  (p, w).

(** go to next song *)
Definition NextTrack (E : Env) (p : Player) (w : World)
    : result (option error) * Player * World :=
  if len (FilteredTracks p) =? 0 then
    (Returns (Some (errorString "no songs")), p, w)
  else
    let p := set_CurrentTrack (wrap64 (CurrentTrack p + 1)) p in
    if len (FilteredTracks p) <=? CurrentTrack p then
      if Repeat p then Play E (set_CurrentTrack 0 p) w
      else
        (Returns (Some (errorString "at the end")),
         set_CurrentTrack (len (FilteredTracks p) - 1) p, w)
    else Play E p w.

(** go to previous song *)
Definition PreviousTrack (E : Env) (p : Player) (w : World)
    : result (option error) * Player * World :=
  if len (FilteredTracks p) =? 0 then
    (Returns (Some (errorString "no songs")), p, w)
  else
    let p := set_CurrentTrack (wrap64 (CurrentTrack p - 1)) p in
    if CurrentTrack p <? 0 then
      if Repeat p then
        Play E (set_CurrentTrack (len (FilteredTracks p) - 1) p) w
      else
        (Returns (Some (errorString "at the beginning")),
         set_CurrentTrack 0 p, w)
    else Play E p w.

(** toggle repeat on/off *)
Definition ToggleRepeat (p : Player) : Player := set_Repeat (negb (Repeat p)) p.

(** toggle shuffle on/off *)
Definition ToggleShuffle (p : Player) : Player :=
  set_Shuffle (negb (Shuffle p)) p.

(** The condition of the loop of [Search], on the lowercased query. *)
Definition matches (E : Env) (query : string) (track : Track.t) : bool :=
  Contains (ToLower E (Track.Title track)) query
  || Contains (ToLower E (Track.Artist track)) query
  || Contains (ToLower E (Track.Album track)) query.

(** [for _, track := range tracks { ... }] of [Search], from index [i] for
    [n] more elements; [tracks] is the header [p.Tracks] had when the loop
    started. *)
Fixpoint search_loop (E : Env) (query : string) (tracks : slice)
    (i n : nat) (p : Player) (w : World) : Player * World :=
  match n with
  | O => (p, w)
  | S n' =>
      let track := elem_at w tracks i in
      if matches E query track then
        let '(s, w) := append E (FilteredTracks p) track w in
        search_loop E query tracks (S i) n' (set_FilteredTracks s p) w
      else search_loop E query tracks (S i) n' p w
  end.

(** search for songs *)
Definition Search (E : Env) (query : string) (p : Player) (w : World)
    : Player * World :=
  let p := set_SearchQuery query p in
  if bool_decide (query = "") then (set_FilteredTracks (Tracks p) p, w)
  else
    let p := set_FilteredTracks nil_slice p in
    let query := ToLower E query in
    search_loop E query (Tracks p) 0 (s_len (Tracks p)) p w.

(** get the current song: the address of the element, or nil *)
Definition GetCurrentTrack (p : Player) : result (option (nat * nat)) :=
  if (len (FilteredTracks p) =? 0)
     || (len (FilteredTracks p) <=? CurrentTrack p) then Returns None
  else if CurrentTrack p <? 0 then Panics index_out_of_range
  else Returns (Some (s_ptr (FilteredTracks p), Z.to_nat (CurrentTrack p))).

(** how far into the song we are *)
Definition GetPosition (p : Player) : result Z :=
  match Streamer p with
  | None => Returns 0
  | Some s => SampleRate_D (SampleRate (Format p)) (Position s)
  end.

(** how long the song is *)
Definition GetLength (p : Player) : result Z :=
  match Streamer p with
  | None => Returns 0
  | Some s => SampleRate_D (SampleRate (Format p)) (Len s)
  end.


(** * The public operations as one step function *)

Inductive Op : Type :=
  | OpPlay
  | OpPause
  | OpResume
  | OpStop
  | OpNextTrack
  | OpPreviousTrack
  | OpToggleRepeat
  | OpToggleShuffle
  | OpSearch (query : string).

(** What an operation leaves behind; the value it returns is dropped. *)
Definition step (E : Env) (op : Op) (p : Player) (w : World) : Player * World :=
  match op with
  | OpPlay => let '(_, p, w) := Play E p w in (p, w)
  | OpPause => Pause p w
  | OpResume => Resume p w
  | OpStop => Stop p w
  | OpNextTrack => let '(_, p, w) := NextTrack E p w in (p, w)
  | OpPreviousTrack => let '(_, p, w) := PreviousTrack E p w in (p, w)
  | OpToggleRepeat => (ToggleRepeat p, w)
  | OpToggleShuffle => (ToggleShuffle p, w)
  | OpSearch query => Search E query p w
  end.

Fixpoint run (E : Env) (ops : list Op) (p : Player) (w : World)
    : Player * World :=
  match ops with
  | [] => (p, w)
  | op :: ops' => let '(p, w) := step E op p w in run E ops' p w
  end.

(** Whether an operation panics. *)
Definition panics (E : Env) (op : Op) (p : Player) (w : World) : bool :=
  match op with
  | OpPlay => if fst (fst (Play E p w)) is Panics _ then true else false
  | OpNextTrack => if fst (fst (NextTrack E p w)) is Panics _ then true else false
  | OpPreviousTrack =>
      if fst (fst (PreviousTrack E p w)) is Panics _ then true else false
  | _ => false
  end.


(** * The terminal interface of [ui.go]

    [Model] holds a pointer to the player; here the player and the store
    are passed along with the model, so that what a key does to the player
    is seen in the result. *)

Record Model : Type := {
  width : Z;
  height : Z;
  cursor : Z;
  showHelp : bool;
  searchMode : bool;
  searchQuery : string;
}.

Definition set_width (v : Z) (m : Model) : Model :=
  {| width := v; height := height m; cursor := cursor m;
     showHelp := showHelp m; searchMode := searchMode m;
     searchQuery := searchQuery m |}.
Definition set_height (v : Z) (m : Model) : Model :=
  {| width := width m; height := v; cursor := cursor m;
     showHelp := showHelp m; searchMode := searchMode m;
     searchQuery := searchQuery m |}.
Definition set_cursor (v : Z) (m : Model) : Model :=
  {| width := width m; height := height m; cursor := v;
     showHelp := showHelp m; searchMode := searchMode m;
     searchQuery := searchQuery m |}.
Definition set_showHelp (v : bool) (m : Model) : Model :=
  {| width := width m; height := height m; cursor := cursor m;
     showHelp := v; searchMode := searchMode m;
     searchQuery := searchQuery m |}.
Definition set_searchMode (v : bool) (m : Model) : Model :=
  {| width := width m; height := height m; cursor := cursor m;
     showHelp := showHelp m; searchMode := v;
     searchQuery := searchQuery m |}.
Definition set_searchQuery (v : string) (m : Model) : Model :=
  {| width := width m; height := height m; cursor := cursor m;
     showHelp := showHelp m; searchMode := searchMode m;
     searchQuery := v |}.

(** A [tea.Msg].  A key message is given by the text its [String()] method
    returns: "q", " ", "enter", "ctrl+c", ... *)
Inductive Msg : Type :=
  | WindowSizeMsg (Width Height : Z)
  | KeyMsg (key : string)
  | OtherMsg.

(** A [tea.Cmd] as [Update] returns it: nil, or [tea.Quit]. *)
Inductive Cmd : Type := Cmd_nil | tea_Quit.

(** NewModel creates a new TUI model *)
Definition NewModel : Model :=
  {| width := 0; height := 0; cursor := 0; showHelp := false;
     searchMode := false; searchQuery := "" |}.

(** handleSearchInput handles search mode input *)
Definition handleSearchInput (E : Env) (key : string) (m : Model) (p : Player)
    (w : World) : Model * Cmd * Player * World :=
  if bool_decide (key = "enter") then
    let '(p, w) := Search E (searchQuery m) p w in
    (set_cursor 0 (set_searchMode false m), Cmd_nil, p, w)
  else if bool_decide (key = "esc") then
    (set_searchQuery "" (set_searchMode false m), Cmd_nil, p, w)
  else if bool_decide (key = "backspace") then
    ((if (0 <? strlen (searchQuery m))%nat
      then set_searchQuery
             (upto (strlen (searchQuery m) - 1) (searchQuery m)) m
      else m), Cmd_nil, p, w)
  else
    ((if (strlen key =? 1)%nat
      then set_searchQuery (searchQuery m +:+ key) m
      else m), Cmd_nil, p, w).

(** A call of a player method whose error result is dropped. *)
Definition dropped (m : Model) (r : result (option error) * Player * World)
    : result (Model * Cmd) * Player * World :=
  let '(out, p, w) := r in
  match out with
  | Returns _ => (Returns (m, Cmd_nil), p, w)
  | Panics msg => (Panics msg, p, w)
  end.

(** handleKeyPress handles keyboard input *)
Definition handleKeyPress (E : Env) (key : string) (m : Model) (p : Player)
    (w : World) : result (Model * Cmd) * Player * World :=
  if searchMode m then
    let '(m, c, p, w) := handleSearchInput E key m p w in (Returns (m, c), p, w)
  else if bool_decide (key = "q") || bool_decide (key = "ctrl+c") then
    (Returns (m, tea_Quit), p, w)
  else if bool_decide (key = "h") then
    (Returns (set_showHelp (negb (showHelp m)) m, Cmd_nil), p, w)
  else if bool_decide (key = "/") then
    (Returns (set_searchQuery "" (set_searchMode true m), Cmd_nil), p, w)
  else if bool_decide (key = " ") then
    if bool_decide (State p = Playing) then
      let '(p, w) := Pause p w in (Returns (m, Cmd_nil), p, w)
    else if bool_decide (State p = Paused) then
      let '(p, w) := Resume p w in (Returns (m, Cmd_nil), p, w)
    else dropped m (Play E p w)
  else if bool_decide (key = "n") then dropped m (NextTrack E p w)
  else if bool_decide (key = "p") then dropped m (PreviousTrack E p w)
  else if bool_decide (key = "r") then
    (Returns (m, Cmd_nil), ToggleRepeat p, w)
  else if bool_decide (key = "s") then
    (Returns (m, Cmd_nil), ToggleShuffle p, w)
  else if bool_decide (key = "j") || bool_decide (key = "down") then
    (Returns ((if cursor m <? len (FilteredTracks p) - 1
               then set_cursor (wrap64 (cursor m + 1)) m else m), Cmd_nil),
     p, w)
  else if bool_decide (key = "k") || bool_decide (key = "up") then
    (Returns ((if 0 <? cursor m
               then set_cursor (wrap64 (cursor m - 1)) m else m), Cmd_nil),
     p, w)
  else if bool_decide (key = "g") then
    (Returns (set_cursor 0 m, Cmd_nil), p, w)
  else if bool_decide (key = "G") then
    (Returns (set_cursor (len (FilteredTracks p) - 1) m, Cmd_nil), p, w)
  else if bool_decide (key = "enter") then
    if (0 <? len (FilteredTracks p)) && (cursor m <? len (FilteredTracks p))
    then dropped m (Play E (set_CurrentTrack (cursor m) p) w)
    else (Returns (m, Cmd_nil), p, w)
  else (Returns (m, Cmd_nil), p, w).

(** Update handles messages and updates the model *)
Definition Update (E : Env) (msg : Msg) (m : Model) (p : Player) (w : World)
    : result (Model * Cmd) * Player * World :=
  match msg with
  | WindowSizeMsg Width Height =>
      (Returns (set_height Height (set_width Width m), Cmd_nil), p, w)
  | KeyMsg key => handleKeyPress E key m p w
  | OtherMsg => (Returns (m, Cmd_nil), p, w)
  end.

(** The messages of a session, handed to [Update] one after the other; a
    panic ends the session. *)
Fixpoint updates (E : Env) (msgs : list Msg) (m : Model) (p : Player)
    (w : World) : result Model * Player * World :=
  match msgs with
  | [] => (Returns m, p, w)
  | msg :: msgs' =>
      match Update E msg m p w with
      | (Returns (m, _), p, w) => updates E msgs' m p w
      | (Panics s, p, w) => (Panics s, p, w)
      end
  end.

(** * A small library, used for the concrete runs below

    The tree of the scenario in the specification under the root [music]:
    two songs in [RootArtistA/AlbumX], a cover image, and [loose.mp3]
    directly under the root.  [loose.mp3] cannot be opened, the decoder
    rejects [Song2.mp3], everything else decodes to ten seconds of audio. *)

Module Demo.

Definition dir (path : string) : WalkCall :=
  {| walk_path := path; walk_IsDir := true; walk_err := None |}.
Definition file (path : string) : WalkCall :=
  {| walk_path := path; walk_IsDir := false; walk_err := None |}.

Definition stream : StreamSeeker := {| Position := 0; Len := 441000 |}.
Definition format : beep_Format :=
  {| SampleRate := 44100; NumChannels := 2; Precision := 2 |}.

(** What is in the files: [Song2.mp3] is not an MP3 stream. *)
Definition audio : string := "ID3 ten seconds of audio".
Definition garbage : string := "not an mp3 stream".

Definition env : Env :=
  {| fs_open := λ name,
       if bool_decide (name = "music/loose.mp3")
       then inr (errorString "permission denied")
       else if bool_decide (name = "music/RootArtistA/AlbumX/Song2.mp3")
       then inl garbage
       else inl audio;
     mp3_Decode := λ contents,
       if bool_decide (contents = garbage)
       then inr (errorString "mp3: EOF")
       else inl (stream, format);
     wav_Decode := λ _, inr (errorString "wav: missing RIFF at the beginning");
     fs_walk := λ root,
       [dir root;
        dir (root +:+ "/RootArtistA");
        dir (root +:+ "/RootArtistA/AlbumX");
        file (root +:+ "/RootArtistA/AlbumX/Song1.mp3");
        file (root +:+ "/RootArtistA/AlbumX/Song2.mp3");
        file (root +:+ "/RootArtistA/AlbumX/cover.jpg");
        file (root +:+ "/loose.mp3")];
     unicode_lower := id;
     growslice := λ c, (2 * c)%nat |}.

(** The player after [NewPlayer("music")] and [Initialize()]. *)
Definition started : Player * World :=
  let '(_, p, w) := Initialize env (NewPlayer "music") init_World in (p, w).

Definition player0 : Player := fst started.
Definition world0 : World := snd started.

(** ... and after a first [Play()], which loads [Song1.mp3]. *)
Definition playing : Player * World :=
  let '(_, p, w) := Play env player0 world0 in (p, w).

Definition player1 : Player := fst playing.
Definition world1 : World := snd playing.

(** The states the scenarios below start from: after pressing "next" once
    and twice (both loads fail, the index moves on), and after a search
    for "song" entered with the index on the third track. *)
Definition second : Player * World := run env [OpNextTrack] player0 world0.
Definition third : Player * World :=
  run env [OpNextTrack; OpNextTrack] player0 world0.
Definition searched : Player * World :=
  run env [OpNextTrack; OpNextTrack; OpSearch "song"] player0 world0.

Definition Song1 : Track.t :=
  {| Track.Path := "music/RootArtistA/AlbumX/Song1.mp3";
     Track.Title := "Song1"; Track.Artist := "RootArtistA";
     Track.Album := "AlbumX"; Track.Duration := 0; Track.Format := ".mp3" |}.
Definition Song2 : Track.t :=
  {| Track.Path := "music/RootArtistA/AlbumX/Song2.mp3";
     Track.Title := "Song2"; Track.Artist := "RootArtistA";
     Track.Album := "AlbumX"; Track.Duration := 0; Track.Format := ".mp3" |}.
Definition loose : Track.t :=
  {| Track.Path := "music/loose.mp3";
     Track.Title := "loose"; Track.Artist := "";
     Track.Album := ""; Track.Duration := 0; Track.Format := ".mp3" |}.

(** The same machine when the directory [RootArtistA] cannot be read: the
    walk announces the directory, then hands its callback the error of the
    failed read. *)
Definition unreadable (path : string) : WalkCall :=
  {| walk_path := path; walk_IsDir := true;
     walk_err := Some (PathError "open" path (errorString "permission denied")) |}.

Definition locked : Env :=
  {| fs_open := fs_open env;
     mp3_Decode := mp3_Decode env;
     wav_Decode := wav_Decode env;
     fs_walk := λ root,
       [dir root;
        file (root +:+ "/intro.WAV");
        dir (root +:+ "/RootArtistA");
        unreadable (root +:+ "/RootArtistA");
        file (root +:+ "/loose.mp3")];
     unicode_lower := id;
     growslice := λ c, (2 * c)%nat |}.

End Demo.


(** * Predicates used in the statements *)

(** A slice header fits the store: its length is within its capacity and
    its capacity within the backing array. *)
Definition slice_ok (w : World) (s : slice) : Prop :=
  (s_len s <= s_cap s)%nat /\ (s_cap s <= length (array_at w (s_ptr s)))%nat.

(** The invariant of the states the program reaches. *)
Record wf (p : Player) (w : World) : Prop := {
  wf_Tracks : slice_ok w (Tracks p);
  wf_Filtered : slice_ok w (FilteredTracks p);
  wf_view_len : len (FilteredTracks p) <= len (Tracks p);
  wf_int : len (Tracks p) < 2 ^ 63;
  wf_index : 0 <= CurrentTrack p < 2 ^ 63 - 1;
  (* a stream is installed together with its control *)
  wf_Streamer : Streamer p <> None -> Ctrl p <> None;
  wf_Ctrl : forall c, Ctrl p = Some c -> (c < length (ctrls w))%nat;
}.

(** [q] is a substring of [s] when case is ignored: the lowercased [q]
    occurs in the lowercased [s]. *)
Definition ci_substring (E : Env) (q s : string) : Prop :=
  exists pre post, ToLower E s = pre +:+ ToLower E q +:+ post.

(** The search predicate of the specification. *)
Definition query_matches (E : Env) (q : string) (t : Track.t) : Prop :=
  ci_substring E q (Track.Title t)
  \/ ci_substring E q (Track.Artist t)
  \/ ci_substring E q (Track.Album t).

Fixpoint has_sep (s : string) : bool :=
  match s with
  | EmptyString => false
  | String c s' => IsPathSeparator c || has_sep s'
  end.

(** A name of a directory entry: not empty, without separator, and neither
    of the two special names. *)
Definition entry_name (s : string) : Prop :=
  s <> "" /\ has_sep s = false /\ s <> "." /\ s <> "..".

(** A relative path from its elements, [a/b/c], and the same with a
    separator after every element, [a/b/c/]. *)
Definition join_path (elems : list string) : string :=
  String.concat Separator elems.

Fixpoint join_trail (elems : list string) : string :=
  match elems with
  | [] => ""
  | e :: elems' => e +:+ Separator +:+ join_trail elems'
  end.

(** The track the callback of [ScanMusicFiles] makes for a music file. *)
Definition scan_track (E : Env) (p : Player) (path : string) : Track.t :=
  extractMetadata p
    {| Track.Path := path; Track.Title := Base path; Track.Artist := "";
       Track.Album := ""; Track.Duration := 0;
       Track.Format := ToLower E (Ext path) |}.

(** What the transport operations may change outside the index and the
    State: the Paused flags, and, when a track is loaded, the stream with
    its format and a new control. *)
Definition audio_frame (p : Player) (w : World) (p' : Player) (w' : World)
    : Prop :=
  arrays w' = arrays w
  /\ Tracks p' = Tracks p
  /\ FilteredTracks p' = FilteredTracks p
  /\ (Streamer p' = Streamer p /\ Ctrl p' = Ctrl p
      /\ length (ctrls w') = length (ctrls w)
      \/ Streamer p' <> None /\ Ctrl p' = Some (length (ctrls w))
         /\ length (ctrls w') = S (length (ctrls w))).

(** What [Clean] builds from the elements, one after the other. *)
Definition clean_acc (out : string) (ds : list string) : string :=
  fold_left
    (λ o d,
       (if (GoStrings.strlen o =? 0)%nat then o else o +:+ Separator) +:+ d)
    ds out.


(** At most the player's own control is running, and only while the State
    is [Playing]: every other control handed to the speaker is paused. *)
Definition quiet (p : Player) (w : World) : Prop :=
  forall c o, ctrls w !! c = Some o -> Ctrl_Paused o = false ->
    Ctrl p = Some c /\ State p = Playing.

(** Every control of the store is paused. *)
Definition all_paused (w : World) : Prop :=
  Forall (λ o, Ctrl_Paused o = true) (ctrls w).

(** The entries of a walk that [ScanMusicFiles] turns into tracks. *)
Definition music_file (E : Env) (c : WalkCall) : bool :=
  negb (walk_IsDir c) && formats (ToLower E (Ext (walk_path c))).

Definition no_walk_error (c : WalkCall) : Prop := walk_err c = None.

(** The tracks [ScanMusicFiles] makes from a run of calls, in the order of
    the walk. *)
Definition scanned (E : Env) (p : Player) (calls : list WalkCall)
    : list Track.t :=
  map (λ c, scan_track E p (walk_path c)) (List.filter (music_file E) calls).

(** A byte occurs in a string. *)
Fixpoint has_byte (b : ascii) (s : string) : bool :=
  match s with
  | EmptyString => false
  | String c s' => bool_decide (c = b) || has_byte b s'
  end.

(** The order of [sort.Slice] in [ScanMusicFiles]: Go compares strings byte
    by byte, [a] is not after [b]. *)
Definition path_le (a b : Track.t) : Prop :=
  String.leb (Track.Path a) (Track.Path b) = true.

(** The cursor of the interface is on a row of the view; over an empty view
    it is 0, or -1 after "G". *)
Definition cursor_ok (m : Model) (p : Player) : Prop :=
  len (FilteredTracks p) = 0 /\ -1 <= cursor m <= 0
  \/ 0 <= cursor m < len (FilteredTracks p).

(** A key whose text is one byte long. *)
Definition one_byte (key : string) : Prop := strlen key = 1%nat.

(** The operation a key stands for outside search mode. *)
Definition key_op (key : string) (p : Player) : option Op :=
  if bool_decide (key = " ") then
    Some (match State p with
          | Playing => OpPause
          | Paused => OpResume
          | Stopped => OpPlay
          end)
  else if bool_decide (key = "n") then Some OpNextTrack
  else if bool_decide (key = "p") then Some OpPreviousTrack
  else if bool_decide (key = "r") then Some OpToggleRepeat
  else if bool_decide (key = "s") then Some OpToggleShuffle
  else None.

(** * Checks of the library models against the documented examples *)

Example strings_Index_1 : GoStrings.Index "chicken" "ken" = 4.
Proof. reflexivity. Qed.
Example strings_Index_2 : GoStrings.Index "chicken" "dmr" = -1.
Proof. reflexivity. Qed.
Example strings_Split_1 : GoStrings.Split "a/b/c" "/" = ["a"; "b"; "c"].
Proof. reflexivity. Qed.
Example strings_Split_2 : GoStrings.Split "." "/" = ["."].
Proof. reflexivity. Qed.
Example strings_ToLower_1 : GoStrings.ToLowerWith id "AbC d.MP3" = "abc d.mp3".
Proof. reflexivity. Qed.
Example strings_TrimSuffix_1 : GoStrings.TrimSuffix "Song1.mp3" ".mp3" = "Song1".
Proof. reflexivity. Qed.

Example filepath_Clean_1 :
  map GoFilepath.Clean ["a/c"; "a//c"; "a/c/."; "a/c/b/.."; "/../a/c";
                        "/../a/b/../././/c"; ""; "../../x/"; "a/../.."; "/"]
  = ["a/c"; "a/c"; "a/c"; "a/c"; "/a/c"; "/a/c"; "."; "../../x"; ".."; "/"].
Proof. reflexivity. Qed.
Example filepath_Dir_1 :
  map GoFilepath.Dir ["/foo/bar/baz.js"; "/foo/bar/baz/"; "dev.txt";
                      "../todo.txt"; ".."; "."; "/"; ""; "A/B/s.mp3"]
  = ["/foo/bar"; "/foo/bar/baz"; "."; ".."; "."; "."; "/"; "."; "A/B"].
Proof. reflexivity. Qed.
Example filepath_Base_1 :
  map GoFilepath.Base ["/foo/bar/baz.js"; "/foo/bar/baz/"; "dev.txt"; ""; "/"; "//"]
  = ["baz.js"; "baz"; "dev.txt"; "."; "/"; "/"].
Proof. reflexivity. Qed.
Example filepath_Ext_1 :
  map GoFilepath.Ext ["index"; "index.js"; "main.test.js"; "a.b/c"; "dir/.x"]
  = [""; ".js"; ".js"; ""; ".x"].
Proof. reflexivity. Qed.
Example filepath_Rel_1 :
  map (λ t, fst (GoFilepath.Rel "/a" t)) ["/a/b/c"; "/b/c"; "/a"; "./b/c"]
  = ["b/c"; "../b/c"; "."; ""].
Proof. reflexivity. Qed.
Example filepath_Rel_2 :
  map (λ t, fst (GoFilepath.Rel "a/b" t)) ["a/b/c/d"; "a/x"; "q"; "a"; "../z"]
  = ["c/d"; "../x"; "../../q"; ".."; "../../../z"].
Proof. reflexivity. Qed.
Example filepath_Rel_3 :
  GoFilepath.Rel "." "music/A/B/s.mp3" = ("music/A/B/s.mp3", None)
  /\ GoFilepath.Rel "/" "/A/s.mp3" = ("A/s.mp3", None)
  /\ GoFilepath.Rel "../m/" "../m/A/s.mp3" = ("A/s.mp3", None)
  /\ GoFilepath.Rel "/a" "b" = ("", Some "Rel: can't make b relative to /a").
Proof. repeat split. Qed.

Example Demo_catalog :
  elems Demo.world0 (Tracks Demo.player0) = [Demo.Song1; Demo.Song2; Demo.loose]
  /\ FilteredTracks Demo.player0 = Tracks Demo.player0
  /\ State Demo.player0 = Stopped.
Proof. repeat split. Qed.

Example Demo_playing :
  State Demo.player1 = Playing
  /\ CurrentTrack Demo.player1 = 0 /\ LoadedTrack Demo.player1 = 0
  /\ Streamer Demo.player1 = Some Demo.stream
  /\ decoded Demo.world1 = ["music/RootArtistA/AlbumX/Song1.mp3"].
Proof. repeat split. Qed.

(** * Facts about the string functions *)

#[local] Arguments String.append !_ _ / : simpl nomatch.

Section string_facts.
Import GoStrings.

Lemma str_app_nil_r (s : string) : s +:+ "" = s.
Proof. induction s; simpl; congruence. Qed.

Lemma str_app_assoc (a b c : string) : (a +:+ b) +:+ c = a +:+ b +:+ c.
Proof. induction a; simpl; congruence. Qed.

Lemma strlen_app (a b : string) : strlen (a +:+ b) = (strlen a + strlen b)%nat.
Proof. induction a; simpl; congruence. Qed.

Lemma from_app (a b : string) : from (strlen a) (a +:+ b) = b.
Proof. induction a; simpl; auto. Qed.

Lemma upto_app (a b : string) : upto (strlen a) (a +:+ b) = a.
Proof. induction a; simpl; congruence. Qed.

Lemma from_add (n m : nat) (s : string) : from (n + m) s = from m (from n s).
Proof.
  revert s; induction n as [|n IH]; intros s; simpl; [done|].
  destruct s; simpl; [by destruct m|apply IH].
Qed.

Lemma HasPrefix_spec (s prefix : string) :
  HasPrefix s prefix = true <-> exists post, s = prefix +:+ post.
Proof.
  revert s; induction prefix as [|c p IH]; intros s; simpl.
  - split; eauto.
  - destruct s as [|d s]; [split; [done|intros [? [=]]]|].
    case_decide as Hcd; subst.
    + rewrite IH. split; intros [post Hpost]; exists post; congruence.
    + split; [done|]. intros [post [= ? ?]]. congruence.
Qed.

Lemma Index_range (s substr : string) :
  -1 <= Index s substr <= Z.of_nat (strlen s).
Proof.
  induction s as [|c s IH]; simpl.
  - destruct (HasPrefix _ _); lia.
  - destruct (HasPrefix _ _); [lia|].
    destruct (Z.ltb_spec (Index s substr) 0); lia.
Qed.

(** [Index] finds an occurrence exactly when there is one. *)
Lemma Index_found (s substr : string) :
  0 <= Index s substr <-> exists pre post, s = pre +:+ substr +:+ post.
Proof.
  induction s as [|c s IH]; simpl.
  - destruct (HasPrefix "" substr) eqn:Hp.
    + split; [intros _|lia]. apply HasPrefix_spec in Hp as [post ->].
      by exists "", post.
    + split; [lia|]. intros (pre & post & Heq).
      destruct pre; simpl in Heq; [|done].
      assert (HasPrefix "" substr = true) as Hp'
        by (apply HasPrefix_spec; eauto).
      congruence.
  - destruct (HasPrefix (String c s) substr) eqn:Hp.
    + split; [intros _|lia]. apply HasPrefix_spec in Hp as [post ->].
      by exists "", post.
    + pose proof (Index_range s substr).
      destruct (Z.ltb_spec (Index s substr) 0) as [Hlt|Hge].
      * split; [lia|]. intros (pre & post & Heq).
        destruct pre as [|d pre]; simpl in Heq.
        -- assert (HasPrefix (String c s) substr = true) as Hp'
             by (apply HasPrefix_spec; eauto).
           congruence.
        -- injection Heq as -> ->.
           assert (0 <= Index (pre +:+ substr +:+ post) substr)
             by (apply IH; eauto).
           lia.
      * split; [intros _|lia]. apply IH in Hge as (pre & post & ->).
        by exists (String c pre), post.
Qed.

Lemma Contains_spec (s substr : string) :
  Contains s substr = true <-> exists pre post, s = pre +:+ substr +:+ post.
Proof.
  unfold Contains. rewrite <- Index_found. apply Z.leb_le.
Qed.

Lemma map_bytes_no_upper (s : string) :
  hasUpper s = false -> map_bytes lower_byte s = s.
Proof.
  induction s as [|c s IH]; simpl; [done|]. intros Hu.
  apply orb_false_elim in Hu as [Hc Hs].
  rewrite IH by done. unfold lower_byte. by rewrite Hc.
Qed.

(** On ASCII text [ToLower] is the bytewise map, whatever the Unicode
    tables say. *)
Lemma ToLowerWith_ascii (f : string -> string) (s : string) :
  isASCII s = true -> ToLowerWith f s = map_bytes lower_byte s.
Proof.
  intros Ha. unfold ToLowerWith. rewrite Ha.
  destruct (hasUpper s) eqn:Hu; [done|]. by rewrite map_bytes_no_upper.
Qed.

End string_facts.

(** * The transport operations *)

Lemma wrap64_id (x : Z) : - 2 ^ 63 <= x < 2 ^ 63 -> wrap64 x = x.
Proof. intros Hx. unfold wrap64. rewrite Z.mod_small; lia. Qed.

Lemma len_nonneg (s : slice) : 0 <= len s.
Proof. unfold len. lia. Qed.

Lemma set_CurrentTrack_same (p : Player) :
  set_CurrentTrack (CurrentTrack p) p = p.
Proof. by destruct p. Qed.

Lemma set_CurrentTrack_twice (a b : Z) (p : Player) :
  set_CurrentTrack a (set_CurrentTrack b p) = set_CurrentTrack a p.
Proof. done. Qed.

(** [set_Paused] only touches the controls. *)
Lemma set_Paused_frame (c : nat) (b : bool) (w : World) :
  arrays (set_Paused c b w) = arrays w
  /\ speaker (set_Paused c b w) = speaker w
  /\ decoded (set_Paused c b w) = decoded w
  /\ length (ctrls (set_Paused c b w)) = length (ctrls w).
Proof. unfold set_Paused; simpl. by rewrite length_alter. Qed.

Lemma set_Paused_lookup (c : nat) (b : bool) (w : World) :
  Ctrl_Paused <$> ctrls (set_Paused c b w) !! c
  = (λ _, b) <$> ctrls w !! c.
Proof.
  unfold set_Paused; simpl. rewrite list_lookup_alter.
  case_decide; [|done]. by destruct (ctrls w !! c).
Qed.

(** [Play] with an index at or past the end of a non-empty view is [Play]
    at index 0. *)
Lemma Play_resets_index (E : Env) (p : Player) (w : World) :
  0 < len (FilteredTracks p) <= CurrentTrack p ->
  Play E p w = Play E (set_CurrentTrack 0 p) w.
Proof.
  intros [Hpos Hge]. unfold Play; simpl.
  destruct (Z.eqb_spec (len (FilteredTracks p)) 0) as [|_]; [lia|].
  destruct (Z.leb_spec (len (FilteredTracks p)) (CurrentTrack p)); [|lia].
  destruct (Z.leb_spec (len (FilteredTracks p)) 0); [lia|]. done.
Qed.

(** [Play] never leaves the index at or past the end of a non-empty view,
    and it leaves the view itself alone. *)
Lemma Play_index_below (E : Env) (p : Player) (w : World) out p' w' :
  Play E p w = (out, p', w') ->
  FilteredTracks p' = FilteredTracks p
  /\ (0 < len (FilteredTracks p) -> CurrentTrack p' < len (FilteredTracks p))
  /\ (0 < len (FilteredTracks p) <= CurrentTrack p -> CurrentTrack p' = 0).
Proof.
  unfold Play.
  destruct (Z.eqb_spec (len (FilteredTracks p)) 0) as [Hz|Hnz].
  { intros [= <- <- <-]. repeat split; lia. }
  set (q := if len (FilteredTracks p) <=? CurrentTrack p
            then set_CurrentTrack 0 p else p).
  assert (FilteredTracks q = FilteredTracks p
          /\ CurrentTrack q < len (FilteredTracks p)
          /\ (len (FilteredTracks p) <= CurrentTrack p -> CurrentTrack q = 0))
    as (HF & Hlt & Hzero).
  { pose proof (len_nonneg (FilteredTracks p)). subst q.
    destruct (Z.leb_spec (len (FilteredTracks p)) (CurrentTrack p));
      simpl; repeat split; lia. }
  clearbody q. intros Hplay.
  assert (FilteredTracks p' = FilteredTracks q /\ CurrentTrack p' = CurrentTrack q)
    as [HF' HC'].
  { repeat case_match; simplify_eq; done. }
  rewrite HF', HC'. repeat split; [done|lia|tauto].
Qed.

(** ** Stop *)

(** C4, as the code has it: after [Stop()] the player is [Stopped] with
    [LoadedTrack = -1] and its control, if there is one, is paused; the
    control stays with the speaker, and the stream and its format are
    kept, so that [GetPosition] and [GetLength] answer what they answered
    before, zero only when no stream was ever loaded. *)
Theorem Stop_effect (p : Player) (w : World) :
  let p' := fst (Stop p w) in
  let w' := snd (Stop p w) in
  State p' = Stopped
  /\ LoadedTrack p' = -1
  /\ Streamer p' = Streamer p
  /\ Format p' = Format p
  /\ Ctrl p' = Ctrl p
  /\ speaker w' = speaker w
  /\ (forall c, Ctrl p = Some c ->
        Ctrl_Paused <$> ctrls w' !! c = (λ _, true) <$> ctrls w !! c)
  /\ GetPosition p' = GetPosition p
  /\ GetLength p' = GetLength p
  /\ (Streamer p = None ->
        GetPosition p' = Returns 0 /\ GetLength p' = Returns 0).
Proof.
  unfold Stop; simpl. split_and!; try done.
  - destruct (Ctrl p); [apply set_Paused_frame|done].
  - intros c ->. apply set_Paused_lookup.
  - intros Hnil. unfold GetPosition, GetLength; simpl. by rewrite Hnil.
Qed.

Lemma Stop_effect_witness :
  GetPosition (fst (Stop (NewPlayer "music") init_World)) = Returns 0
  /\ GetLength (fst (Stop (NewPlayer "music") init_World)) = Returns 0.
Proof.
  apply (Stop_effect (NewPlayer "music") init_World). reflexivity.
Defined.

(** The claim C4 as written fails: stopping the demo player while it plays
    [Song1.mp3] keeps the stream, and [GetLength] still reports its ten
    seconds. *)
Lemma Stop_keeps_stream :
  Streamer (fst (Stop Demo.player1 Demo.world1)) = Some Demo.stream
  /\ GetLength (fst (Stop Demo.player1 Demo.world1)) = Returns 10000000000
  /\ GetLength (fst (Stop Demo.player1 Demo.world1)) <> Returns 0
  /\ speaker (snd (Stop Demo.player1 Demo.world1)) = [0%nat].
Proof. vm_compute. split_and!; done. Qed.

(** ** NextTrack at the end of the view *)

(** C5: at the last index of a non-empty view with Repeat off,
    [NextTrack()] returns the error "at the end" and leaves player and
    store exactly as they were: the index stays at the last position,
    [Play] is not called, nothing is decoded. *)
Theorem NextTrack_at_end (E : Env) (p : Player) (w : World) :
  0 < len (FilteredTracks p) < 2 ^ 63 ->
  Repeat p = false ->
  CurrentTrack p = len (FilteredTracks p) - 1 ->
  NextTrack E p w = (Returns (Some (errorString "at the end")), p, w).
Proof.
  intros Hlen Hrep Hcur. unfold NextTrack; simpl.
  destruct (Z.eqb_spec (len (FilteredTracks p)) 0) as [|_]; [lia|].
  rewrite Hcur, wrap64_id by lia.
  replace (len (FilteredTracks p) - 1 + 1) with (len (FilteredTracks p)) by lia.
  rewrite Z.leb_refl, Hrep, <- Hcur.
  by rewrite set_CurrentTrack_twice, set_CurrentTrack_same.
Qed.

Lemma NextTrack_at_end_witness :
  NextTrack Demo.env (fst Demo.third) (snd Demo.third)
  = (Returns (Some (errorString "at the end")), fst Demo.third, snd Demo.third).
Proof.
  apply (NextTrack_at_end Demo.env (fst Demo.third) (snd Demo.third)).
  - vm_compute. split; reflexivity.
  - vm_compute. reflexivity.
  - vm_compute. reflexivity.
Defined.

(** ** Play *)

Lemma app_singleton_neq {A} (l : list A) (x : A) : l <> l ++ [x].
Proof.
  intros Heq. apply (f_equal length) in Heq.
  rewrite length_app in Heq. simpl in Heq. lia.
Qed.

(** What [Play] does to the trace of decode calls: nothing, or one call
    for the track at the index it settled on. *)
Lemma Play_decoded (E : Env) (p : Player) (w : World) out p' w' :
  Play E p w = (out, p', w') ->
  decoded w' = decoded w
  \/ decoded w'
     = decoded w
         ++ [Track.Path
               (elem_at w (FilteredTracks p) (Z.to_nat (CurrentTrack p')))].
Proof.
  unfold Play, index, new_Ctrl, speaker_Play. intros Hplay.
  repeat case_match; simplify_eq; simpl;
    rewrite ?(proj1 (proj2 (proj2 (set_Paused_frame _ _ _)))); auto.
Qed.

(** A [Play()] whose decode call fails changes at most the index (when it
    was past the end), pauses the control it had, and records the call. *)
Lemma Play_failed_load (E : Env) (p : Player) (w : World)
    (out : result (option error)) (p' : Player) (w' : World)
    (path : string) (err : error) :
  Play E p w = (out, p', w') ->
  decoded w' = decoded w ++ [path] ->
  loadTrack E path = inr err ->
  out = Returns (Some (fmt_Errorf_w "can't load song: " err))
  /\ (p' = p \/ p' = set_CurrentTrack 0 p)
  /\ w' = set_decoded (decoded w ++ [path])
            (match Ctrl p with Some c => set_Paused c true w | None => w end).
Proof.
  unfold Play, index, new_Ctrl, speaker_Play. intros Hplay Hdec Hload.
  repeat case_match; simplify_eq; simpl in Hdec;
    rewrite ?(proj1 (proj2 (proj2 (set_Paused_frame _ _ _)))) in Hdec;
    try (by apply app_singleton_neq in Hdec);
    apply app_inj_tail in Hdec as [_ <-]; simpl in *; try congruence;
    split_and!; auto; congruence.
Qed.

(** C1, as the code has it: when the [loadTrack] call of [Play()] fails
    with [err], [Play()] returns the error "can't load song: " followed by
    the text of [err], wrapping [err]; State, Streamer, LoadedTrack, Format
    and the Ctrl pointer are as before the call, no control is created and
    nothing is handed to the speaker; the control the player had is left
    paused.  The text of the error names the path when it is the opening
    of the file that failed. *)
Theorem Play_load_error (E : Env) (p : Player) (w : World)
    (out : result (option error)) (p' : Player) (w' : World)
    (path : string) (err : error) :
  Play E p w = (out, p', w') ->
  decoded w' = decoded w ++ [path] ->
  loadTrack E path = inr err ->
  out = Returns (Some (wrapError ("can't load song: " +:+ Error err) err))
  /\ State p' = State p
  /\ Streamer p' = Streamer p
  /\ LoadedTrack p' = LoadedTrack p
  /\ Format p' = Format p
  /\ Ctrl p' = Ctrl p
  /\ speaker w' = speaker w
  /\ length (ctrls w') = length (ctrls w)
  /\ (forall c, Ctrl p = Some c ->
        Ctrl_Paused <$> ctrls w' !! c = (λ _, true) <$> ctrls w !! c)
  /\ (forall oserr, fs_open E path = inr oserr ->
        GoStrings.Contains ("can't load song: " +:+ Error err) path = true).
Proof.
  intros Hplay Hdec Hload.
  destruct (Play_failed_load _ _ _ _ _ _ _ _ Hplay Hdec Hload)
    as (-> & Hp & ->).
  split_and!; try (by destruct Hp as [-> | ->]).
  - simpl. destruct (Ctrl p); [apply set_Paused_frame|done].
  - simpl. destruct (Ctrl p); [apply set_Paused_frame|done].
  - intros c ->. simpl. apply set_Paused_lookup.
  - intros oserr Hopen. unfold loadTrack, os_Open in Hload.
    rewrite Hopen in Hload. injection Hload as <-.
    apply Contains_spec.
    exists "can't load song: open ", (": " +:+ Error oserr). reflexivity.
Qed.

Lemma Play_load_error_witness :
  exists p' w',
    Play Demo.env (fst Demo.second) (snd Demo.second)
    = (Returns (Some (wrapError "can't load song: mp3: EOF"
                        (errorString "mp3: EOF"))), p', w')
    /\ State p' = Stopped /\ Streamer p' = None.
Proof.
  destruct (Play Demo.env (fst Demo.second) (snd Demo.second))
    as [[out p'] w'] eqn:Hplay.
  destruct (Play_load_error Demo.env (fst Demo.second) (snd Demo.second)
              out p' w' "music/RootArtistA/AlbumX/Song2.mp3"
              (errorString "mp3: EOF") Hplay)
    as (Hout & HState & HStreamer & _).
  - vm_compute in Hplay. by injection Hplay as <- <- <-.
  - vm_compute. reflexivity.
  - exists p', w'. rewrite Hout, HState, HStreamer.
    vm_compute. split_and!; reflexivity.
Defined.

(** The claim C1 as written fails on the text of the error: with the index
    on [Song2.mp3], which the decoder of the demo library rejects, the
    file opens, [loadTrack] fails, and [Play()] answers
    "can't load song: mp3: EOF", which does not name the path. *)
Lemma Play_error_without_path :
  let path := "music/RootArtistA/AlbumX/Song2.mp3" in
  let p := fst Demo.second in
  let w := snd Demo.second in
  Track.Path (elem_at w (FilteredTracks p) (Z.to_nat (CurrentTrack p))) = path
  /\ loadTrack Demo.env path = inr (errorString "mp3: EOF")
  /\ exists e p' w',
       Play Demo.env p w = (Returns (Some e), p', w')
       /\ decoded w' = decoded w ++ [path]
       /\ Error e = "can't load song: mp3: EOF"
       /\ GoStrings.Contains (Error e) path = false.
Proof.
  split_and!; [by vm_compute|by vm_compute|].
  eexists _, _, _. vm_compute. split_and!; reflexivity.
Qed.

(** C3, as the code has it: on a non-empty view with the index at or past
    its end, [Play()] does not panic and does not refuse; it sets the
    index to 0 and goes on as [Play()] at index 0, so the only track it
    may decode is the first of the view. *)
Theorem Play_index_past_end (E : Env) (p : Player) (w : World) :
  (Streamer p <> None -> Ctrl p <> None) ->
  0 < len (FilteredTracks p) <= CurrentTrack p ->
  Play E p w = Play E (set_CurrentTrack 0 p) w
  /\ exists r p' w',
       Play E p w = (Returns r, p', w')
       /\ CurrentTrack p' = 0
       /\ (decoded w' = decoded w
           \/ decoded w'
              = decoded w ++ [Track.Path (elem_at w (FilteredTracks p) 0)]).
Proof.
  intros Hctrl Hidx. split; [by apply Play_resets_index|].
  destruct (Play E p w) as [[out p'] w'] eqn:Hplay.
  pose proof (Play_index_below _ _ _ _ _ _ Hplay) as (_ & _ & Hzero).
  specialize (Hzero Hidx).
  pose proof (Play_decoded _ _ _ _ _ _ Hplay) as Hdec.
  rewrite Hzero in Hdec. simpl in Hdec.
  destruct out as [r|msg]; [by eauto 10|].
  exfalso. rewrite Play_resets_index in Hplay by done.
  revert Hplay. unfold Play, index; simpl.
  repeat case_match; intros; simplify_eq;
    repeat match goal with
           | H : _ && _ = true |- _ => apply andb_prop in H as [? ?]
           | H : bool_decide _ = true |- _ => apply bool_decide_eq_true in H
           | H : (_ <? _) = false |- _ => apply Z.ltb_ge in H
           | H : (_ =? _) = true |- _ => apply Z.eqb_eq in H
           end;
    simpl in *; try lia.
  by apply Hctrl.
Qed.

Lemma Play_index_past_end_witness :
  Play Demo.env (fst Demo.searched) (snd Demo.searched)
  = Play Demo.env (set_CurrentTrack 0 (fst Demo.searched)) (snd Demo.searched).
Proof.
  apply (Play_index_past_end Demo.env (fst Demo.searched) (snd Demo.searched)).
  - intros H. exfalso. vm_compute in H. by apply H.
  - vm_compute. split; [reflexivity|discriminate].
Defined.

(** The claim C3 as written fails: after the search for "song" the demo
    view has two tracks and the index is 2; [Play()] then reports no
    error, decodes the first track of the view, and the player is
    [Playing] at index 0. *)
Lemma Play_past_end_plays_first :
  let p := fst Demo.searched in
  let w := snd Demo.searched in
  0 < len (FilteredTracks p) <= CurrentTrack p
  /\ State p = Stopped
  /\ exists p' w',
       Play Demo.env p w = (Returns None, p', w')
       /\ State p' = Playing
       /\ CurrentTrack p' = 0
       /\ Streamer p' = Some Demo.stream
       /\ decoded w' = decoded w ++ [Track.Path Demo.Song1].
Proof.
  split_and!; [by vm_compute|by vm_compute|by vm_compute|].
  eexists _, _. vm_compute. split_and!; reflexivity.
Qed.

(** A [Play()] that returns nil leaves the player playing the track under
    the index. *)
Lemma Play_nil_state (E : Env) (p : Player) (w : World)
    (p1 : Player) (w1 : World) :
  Play E p w = (Returns None, p1, w1) ->
  len (FilteredTracks p1) <> 0
  /\ State p1 = Playing
  /\ Streamer p1 <> None
  /\ LoadedTrack p1 = CurrentTrack p1.
Proof.
  unfold Play, index, new_Ctrl, speaker_Play. intros Hplay.
  repeat case_match; simplify_eq; simpl in *;
    repeat match goal with
           | H : _ && _ = true |- _ => apply andb_prop in H as [? ?]
           | H : bool_decide _ = true |- _ => apply bool_decide_eq_true in H
           | H : (_ =? _) = true |- _ => apply Z.eqb_eq in H
           | H : (_ =? _) = false |- _ => apply Z.eqb_neq in H
           end;
    simpl in *; split_and!; done.
Qed.

(** C8: after a [Play()] that returned nil, a second [Play()] with nothing
    in between returns nil and changes neither the player nor the store:
    no decode call, same stream.  If the player was paused in between, the
    second [Play()] does what [Resume()] does and nothing else; again no
    decode call and the same stream. *)
Theorem Play_twice (E : Env) (p : Player) (w : World)
    (p1 : Player) (w1 : World) :
  Play E p w = (Returns None, p1, w1) ->
  Play E p1 w1 = (Returns None, p1, w1)
  /\ (let p2 := fst (Pause p1 w1) in
      let w2 := snd (Pause p1 w1) in
      Play E p2 w2 = (Returns None, fst (Resume p2 w2), snd (Resume p2 w2))
      /\ fst (Resume p2 w2) = p1
      /\ decoded (snd (Resume p2 w2)) = decoded w1
      /\ Streamer (fst (Resume p2 w2)) = Streamer p1).
Proof.
  intros Hplay.
  pose proof (Play_index_below _ _ _ _ _ _ Hplay) as (HF & Hlt & _).
  pose proof (Play_nil_state _ _ _ _ _ Hplay) as (Hnz & HSt & HStr & HLd).
  pose proof (len_nonneg (FilteredTracks p1)).
  rewrite <- HF in Hlt.
  apply Z.eqb_neq in Hnz as Hnz'.
  assert ((len (FilteredTracks p1) <=? CurrentTrack p1) = false) as Hin
    by (apply Z.leb_gt, Hlt; lia).
  assert (bool_decide (Streamer p1 <> None) = true) as HStr'
    by by apply bool_decide_eq_true.
  assert (Play E p1 w1 = (Returns None, p1, w1)) as Hagain.
  { unfold Play. rewrite Hnz', Hin, HLd, Z.eqb_refl, HStr', HSt. done. }
  split; [done|].
  unfold Pause, Resume. destruct (Ctrl p1) as [c|] eqn:HCtrl; simpl.
  - rewrite HSt; simpl. rewrite HCtrl; simpl.
    split_and!; try done; [|rewrite <- HSt; by destruct p1].
    unfold Play; simpl. rewrite Hnz', Hin; simpl.
    rewrite HLd, Z.eqb_refl, HStr', HCtrl. done.
  - rewrite HCtrl. simpl. done.
Qed.

Lemma Play_twice_witness :
  Play Demo.env Demo.player1 Demo.world1
  = (Returns None, Demo.player1, Demo.world1).
Proof.
  apply (Play_twice Demo.env Demo.player0 Demo.world0 Demo.player1 Demo.world1).
  vm_compute. reflexivity.
Defined.

(** * Slices, [append], and [Search] *)

Lemma elems_length (w : World) (s : slice) :
  slice_ok w s -> length (elems w s) = s_len s.
Proof. intros [? ?]. unfold elems. rewrite length_take. lia. Qed.

Lemma slice_ok_ptr (w : World) (s : slice) :
  slice_ok w s -> (0 < s_cap s)%nat -> (s_ptr s < length (arrays w))%nat.
Proof.
  intros [_ Hcap] Hpos. unfold array_at in Hcap.
  destruct (arrays w !! s_ptr s) eqn:Hl; simpl in Hcap; [|lia].
  by eapply lookup_lt_Some.
Qed.

Lemma elem_at_elems (w : World) (s : slice) (i : nat) :
  (i < s_len s)%nat -> slice_ok w s ->
  elems w s !! i = Some (elem_at w s i).
Proof.
  intros Hi [Hlen Hcap]. unfold elems, elem_at.
  rewrite lookup_take_lt by done.
  destruct (array_at w (s_ptr s) !! i) eqn:Hl; [done|].
  apply lookup_ge_None in Hl. lia.
Qed.

(** [elems] and [slice_ok] only look at the backing array of the slice. *)
Lemma elems_frame (w w' : World) (s : slice) :
  array_at w' (s_ptr s) = array_at w (s_ptr s) -> elems w' s = elems w s.
Proof. unfold elems. by intros ->. Qed.

Lemma slice_ok_frame (w w' : World) (s : slice) :
  array_at w' (s_ptr s) = array_at w (s_ptr s) -> slice_ok w s -> slice_ok w' s.
Proof. unfold slice_ok. by intros ->. Qed.

(** [append]: the new slice holds the old elements and then [x]; it fits
    the store; no array other than its own has changed, and its own array
    is the old one only when there was room. *)
Lemma append_spec (E : Env) (s : slice) (x : Track.t) (w : World)
    (s' : slice) (w' : World) :
  slice_ok w s ->
  append E s x w = (s', w') ->
  elems w' s' = elems w s ++ [x]
  /\ slice_ok w' s'
  /\ s_len s' = S (s_len s)
  /\ (length (arrays w) <= length (arrays w'))%nat
  /\ (forall a, a <> s_ptr s' -> array_at w' a = array_at w a)
  /\ (s_ptr s' = s_ptr s /\ (0 < s_cap s)%nat
      \/ s_ptr s' = length (arrays w))
  /\ ctrls w' = ctrls w /\ speaker w' = speaker w /\ decoded w' = decoded w.
Proof.
  intros Hok Happ. pose proof (elems_length _ _ Hok) as Hlen.
  destruct Hok as [Hlc Hcap]. unfold append in Happ.
  destruct (Nat.ltb_spec (s_len s) (s_cap s)) as [Hroom|Hfull];
    injection Happ as <- <-; simpl.
  - (* in place *)
    assert (s_ptr s < length (arrays w))%nat as Hptr
      by (apply slice_ok_ptr; [done|lia]).
    destruct (arrays w !! s_ptr s) as [a|] eqn:Ha;
      [|apply lookup_ge_None in Ha; lia].
    assert (array_at w (s_ptr s) = a) as Hat by (unfold array_at; by rewrite Ha).
    rewrite Hat in Hcap.
    assert (array_at
              (set_arrays (alter (λ a, <[s_len s:=x]> a) (s_ptr s) (arrays w)) w)
              (s_ptr s) = <[s_len s:=x]> a) as Hnew.
    { unfold array_at; simpl. rewrite list_lookup_alter, Ha.
      by case_decide. }
    split_and!; try done.
    + unfold elems; simpl. rewrite Hnew, Hat.
      rewrite take_S_r with (x := x)
        by (apply list_lookup_insert_eq; lia).
      by rewrite take_insert_ge by lia.
    + split; simpl; [lia|]. rewrite Hnew, length_insert. done.
    + by rewrite length_alter.
    + intros b Hb. unfold array_at; simpl.
      rewrite list_lookup_alter. by case_decide.
    + left. split; [done|lia].
  - (* a new array *)
    split_and!; try done.
    + unfold elems, array_at; simpl.
      rewrite lookup_app_r, Nat.sub_diag by done. simpl.
      fold (array_at w (s_ptr s)). fold (elems w s).
      rewrite cons_middle, (assoc_L (++)), take_app_length'; [done|].
      rewrite length_app, Hlen. simpl. lia.
    + split; simpl; [lia|]. unfold array_at; simpl.
      rewrite lookup_app_r, Nat.sub_diag by done. simpl.
      fold (array_at w (s_ptr s)). fold (elems w s).
      rewrite length_app, Hlen. simpl. rewrite length_replicate. lia.
    + rewrite length_app. lia.
    + intros b Hb. unfold array_at; simpl.
      destruct (decide (b < length (arrays w))%nat).
      * by rewrite lookup_app_l.
      * rewrite !(proj2 (lookup_ge_None _ _)); [done|lia|].
        rewrite length_app. simpl. lia.
    + by right.
Qed.

(** [search_loop] only replaces the view. *)
Lemma search_loop_player (E : Env) (query : string) (tracks : slice)
    (i n : nat) (p : Player) (w : World) :
  fst (search_loop E query tracks i n p w)
  = set_FilteredTracks
      (FilteredTracks (fst (search_loop E query tracks i n p w))) p.
Proof.
  revert i p w. induction n as [|n IH]; intros i p w; simpl.
  - by destruct p.
  - destruct (matches E query (elem_at w tracks i)); [|apply IH].
    destruct (append E (FilteredTracks p) (elem_at w tracks i) w) as [s w1].
    rewrite IH. simpl. done.
Qed.

(** The loop of [Search] from index [i]: the view grows by the matching
    tracks among the next [n] of the catalog, in their order; the array of
    the catalog is not written. *)
Lemma search_loop_spec (E : Env) (query : string) (tracks : slice)
    (w0 : World) (i n : nat) (p : Player) (w : World) :
  slice_ok w0 tracks ->
  (i + n <= s_len tracks)%nat ->
  array_at w (s_ptr tracks) = array_at w0 (s_ptr tracks) ->
  (length (arrays w0) <= length (arrays w))%nat ->
  slice_ok w (FilteredTracks p) ->
  (s_cap (FilteredTracks p) = 0%nat
   \/ (length (arrays w0) <= s_ptr (FilteredTracks p))%nat) ->
  let p' := fst (search_loop E query tracks i n p w) in
  let w' := snd (search_loop E query tracks i n p w) in
  elems w' (FilteredTracks p')
  = elems w (FilteredTracks p)
      ++ List.filter (matches E query) (take n (drop i (elems w0 tracks)))
  /\ array_at w' (s_ptr tracks) = array_at w0 (s_ptr tracks)
  /\ slice_ok w' (FilteredTracks p')
  /\ (length (arrays w0) <= length (arrays w'))%nat
  /\ ctrls w' = ctrls w /\ speaker w' = speaker w /\ decoded w' = decoded w.
Proof.
  intros Hok. revert i p w.
  induction n as [|n IH]; intros i p w Hin Harr Hgrow HF Hfresh; simpl.
  { rewrite app_nil_r. done. }
  assert (elems w0 tracks !! i = Some (elem_at w tracks i)) as Hi.
  { rewrite elem_at_elems by (done || lia). unfold elem_at. by rewrite Harr. }
  rewrite (drop_S _ _ _ Hi). simpl.
  set (track := elem_at w tracks i) in *.
  assert (s_ptr tracks < length (arrays w0))%nat as Hptr.
  { apply slice_ok_ptr; [done|]. destruct Hok. lia. }
  destruct (matches E query track) eqn:Hm.
  - destruct (append E (FilteredTracks p) track w) as [s w1] eqn:Happ.
    destruct (append_spec _ _ _ _ _ _ HF Happ)
      as (Hel & Hok1 & _ & Hgrow1 & Hframe & Hwhere & Hc & Hs & Hd).
    assert (s_ptr tracks <> s_ptr s) as Hne by (destruct Hwhere as [[-> ?]| ->]; lia).
    specialize (IH (S i) (set_FilteredTracks s p) w1).
    simpl in IH. destruct IH as (IH1 & IH2 & IH3 & IH4 & IH5 & IH6 & IH7).
    + lia.
    + rewrite Hframe; done.
    + lia.
    + done.
    + right. destruct Hwhere as [[-> ?]| ->]; [|lia].
      destruct Hfresh; lia.
    + rewrite IH1, Hel, <- (assoc_L (++)). simpl.
      split_and!; congruence.
  - apply IH; (done || lia).
Qed.

(** The view after [Search], in one equation: the catalog itself for the
    empty query, and the matching part of the catalog otherwise. *)
Lemma Search_elems (E : Env) (q : string) (p : Player) (w : World) :
  slice_ok w (Tracks p) ->
  let p' := fst (Search E q p w) in
  let w' := snd (Search E q p w) in
  elems w' (FilteredTracks p')
  = (if bool_decide (q = "") then elems w (Tracks p)
     else List.filter (matches E (ToLower E q)) (elems w (Tracks p)))
  /\ Tracks p' = Tracks p
  /\ array_at w' (s_ptr (Tracks p)) = array_at w (s_ptr (Tracks p))
  /\ slice_ok w' (FilteredTracks p')
  /\ (length (arrays w) <= length (arrays w'))%nat
  /\ ctrls w' = ctrls w /\ speaker w' = speaker w /\ decoded w' = decoded w.
Proof.
  intros Hok. unfold Search. case_bool_decide as Hq; simpl.
  { split_and!; done. }
  rewrite search_loop_player; simpl.
  pose proof (search_loop_spec E (ToLower E q) (Tracks p) w 0
                (s_len (Tracks p))
                (set_FilteredTracks nil_slice (set_SearchQuery q p)) w Hok)
    as Hloop.
  simpl in Hloop. rewrite drop_0 in Hloop.
  destruct Hloop as (H1 & H2 & H3 & H4 & H5 & H6 & H7); try done.
  { split; simpl; lia. }
  { by left. }
  split_and!; try done.
  rewrite H1. rewrite take_ge; [done|]. by rewrite elems_length.
Qed.

Lemma ToLower_empty (E : Env) : ToLower E "" = "".
Proof. reflexivity. Qed.

(** The boolean test of the loop says what the specification says. *)
Lemma matches_spec (E : Env) (q : string) (t : Track.t) :
  matches E (ToLower E q) t = true <-> query_matches E q t.
Proof.
  unfold matches, query_matches, ci_substring.
  rewrite !orb_true_iff, !Contains_spec. tauto.
Qed.

(** On ASCII text the test compares byte by byte with the letters A-Z
    mapped to a-z. *)
Lemma ci_substring_ascii (E : Env) (q s : string) :
  GoStrings.isASCII q = true -> GoStrings.isASCII s = true ->
  ci_substring E q s
  <-> exists pre post,
        GoStrings.map_bytes GoStrings.lower_byte s
        = pre +:+ GoStrings.map_bytes GoStrings.lower_byte q +:+ post.
Proof.
  intros Hq Hs. unfold ci_substring, ToLower.
  by rewrite !ToLowerWith_ascii.
Qed.

Lemma query_matches_empty (E : Env) (t : Track.t) : query_matches E "" t.
Proof.
  left. exists "", (ToLower E (Track.Title t)). by rewrite ToLower_empty.
Qed.

Lemma sublist_List_filter {A} (f : A -> bool) (l : list A) :
  sublist (List.filter f l) l.
Proof.
  induction l as [|x l IH]; simpl; [constructor|].
  destruct (f x); by constructor.
Qed.

(** C6: after [Search(q)] a track is in the view exactly when it is in the
    catalog and [q], case ignored, is a substring of its title, its artist
    or its album; a track of the catalog left out of the view fails the
    test on all three fields; and the view keeps the catalog's order. *)
Theorem Search_view (E : Env) (q : string) (p : Player) (w : World) :
  slice_ok w (Tracks p) ->
  let p' := fst (Search E q p w) in
  let w' := snd (Search E q p w) in
  (forall t, t ∈ elems w' (FilteredTracks p')
             <-> t ∈ elems w (Tracks p) /\ query_matches E q t)
  /\ (forall t, t ∈ elems w (Tracks p) ->
        t ∉ elems w' (FilteredTracks p') ->
        ~ ci_substring E q (Track.Title t)
        /\ ~ ci_substring E q (Track.Artist t)
        /\ ~ ci_substring E q (Track.Album t))
  /\ sublist (elems w' (FilteredTracks p')) (elems w (Tracks p)).
Proof.
  intros Hok p' w'.
  destruct (Search_elems E q p w Hok) as (Hview & _).
  fold p' w' in Hview.
  assert (forall t, t ∈ elems w' (FilteredTracks p')
                    <-> t ∈ elems w (Tracks p) /\ query_matches E q t) as Hiff.
  { intros t. rewrite Hview. case_bool_decide as Hq.
    - subst q. pose proof (query_matches_empty E t). tauto.
    - rewrite !list_elem_of_In, filter_In, matches_spec. done. }
  split_and!; [done| |].
  - intros t Hin Hout. unfold query_matches in Hiff.
    specialize (Hiff t). tauto.
  - rewrite Hview. case_bool_decide; [done|apply sublist_List_filter].
Qed.

Lemma Search_view_witness :
  sublist
    (elems (snd (Search Demo.env "ALBUMx" Demo.player0 Demo.world0))
       (FilteredTracks (fst (Search Demo.env "ALBUMx" Demo.player0 Demo.world0))))
    (elems Demo.world0 (Tracks Demo.player0)).
Proof.
  apply (Search_view Demo.env "ALBUMx" Demo.player0 Demo.world0).
  vm_compute. split; lia.
Defined.

Example Search_demo :
  elems (snd (Search Demo.env "ALBUMx" Demo.player0 Demo.world0))
    (FilteredTracks (fst (Search Demo.env "ALBUMx" Demo.player0 Demo.world0)))
  = [Demo.Song1; Demo.Song2]
  /\ elems (snd (Search Demo.env "LOO" Demo.player0 Demo.world0))
       (FilteredTracks (fst (Search Demo.env "LOO" Demo.player0 Demo.world0)))
     = [Demo.loose]
  /\ elems (snd (Search Demo.env "zz" Demo.player0 Demo.world0))
       (FilteredTracks (fst (Search Demo.env "zz" Demo.player0 Demo.world0)))
     = [].
Proof. vm_compute. split_and!; reflexivity. Qed.

Lemma filter_empty_query (E : Env) (l : list Track.t) :
  List.filter (matches E (ToLower E "")) l = l.
Proof.
  induction l as [|t l IH]; simpl; [done|].
  rewrite (proj2 (matches_spec E "" t) (query_matches_empty E t)).
  by rewrite IH.
Qed.

(** C9: [Search("")] makes the view the catalog itself, whatever the view
    and the query were before: the same slice header, hence the same
    elements in the same order, with the store untouched; and that is the
    list the filter loop would have built, since the empty query occurs
    in every field. *)
Theorem Search_empty_query (E : Env) (p : Player) (w : World) :
  let p' := fst (Search E "" p w) in
  let w' := snd (Search E "" p w) in
  FilteredTracks p' = Tracks p
  /\ Tracks p' = Tracks p
  /\ w' = w
  /\ elems w' (FilteredTracks p') = elems w (Tracks p)
  /\ elems w' (FilteredTracks p')
     = List.filter (matches E (ToLower E "")) (elems w (Tracks p)).
Proof.
  intros p' w'. subst p' w'. unfold Search.
  rewrite bool_decide_eq_true_2 by done. simpl.
  split_and!; try reflexivity.
  by rewrite filter_empty_query.
Qed.

(** ** Search and the index *)

Lemma Search_player (E : Env) (q : string) (p : Player) (w : World) :
  fst (Search E q p w)
  = set_FilteredTracks (FilteredTracks (fst (Search E q p w)))
      (set_SearchQuery q p).
Proof.
  unfold Search. case_bool_decide; simpl; [done|].
  by rewrite search_loop_player.
Qed.

(** C2, as the code has it: [Search(q)] replaces the view and leaves the
    index as it was, neither clamped nor reset; an index left at or past
    the end of a non-empty view is set to 0 by the next [Play()]. *)
Theorem Search_leaves_index (E : Env) (q : string) (p : Player) (w : World)
    (p' : Player) (w' : World) :
  Search E q p w = (p', w') ->
  CurrentTrack p' = CurrentTrack p
  /\ forall out p'' w'',
       0 < len (FilteredTracks p') <= CurrentTrack p' ->
       Play E p' w' = (out, p'', w'') ->
       CurrentTrack p'' = 0.
Proof.
  intros HS. split.
  - pose proof (Search_player E q p w) as Hp. rewrite HS in Hp. simpl in Hp.
    by rewrite Hp.
  - intros out p'' w'' Hidx Hplay.
    by apply (Play_index_below _ _ _ _ _ _ Hplay).
Qed.

Lemma Search_leaves_index_witness :
  CurrentTrack (fst (Search Demo.env "song" (fst Demo.third) (snd Demo.third)))
  = CurrentTrack (fst Demo.third).
Proof.
  destruct (Search Demo.env "song" (fst Demo.third) (snd Demo.third))
    as [p' w'] eqn:HS.
  apply (Search_leaves_index Demo.env "song" (fst Demo.third) (snd Demo.third)
           p' w' HS).
Defined.

(** The claim C2 as written fails: with the index on the third track of the
    demo catalog, [Search("song")] leaves a view of two tracks and the index
    still at 2, out of range and not 0. *)
Lemma Search_index_out_of_range :
  let p := fst Demo.third in
  let p' := fst (Search Demo.env "song" p (snd Demo.third)) in
  CurrentTrack p = 2
  /\ len (FilteredTracks p') = 2
  /\ CurrentTrack p' = 2
  /\ ~ (0 <= CurrentTrack p' <= len (FilteredTracks p') - 1)
  /\ CurrentTrack p' <> 0.
Proof. vm_compute. split_and!; try done. intros [_ H]. by apply H. Qed.

(** * The catalog is never written, and the invariant of reachable states *)

Lemma Play_frame (E : Env) (p : Player) (w : World) out p' w' :
  Play E p w = (out, p', w') ->
  audio_frame p w p' w'
  /\ (CurrentTrack p' = CurrentTrack p \/ CurrentTrack p' = 0).
Proof.
  unfold Play, index, new_Ctrl, speaker_Play, audio_frame. intros Hplay.
  repeat case_match; simplify_eq; simpl;
    rewrite ?length_app, ?length_alter; simpl; rewrite ?length_alter;
    split_and!; try done; try (by left); try (by right);
    try (right; split_and!; [done|done|lia]); auto.
Qed.

Lemma Pause_frame (p : Player) (w : World) :
  audio_frame p w (fst (Pause p w)) (snd (Pause p w))
  /\ CurrentTrack (fst (Pause p w)) = CurrentTrack p.
Proof.
  unfold Pause, audio_frame. repeat case_match; simpl;
    rewrite ?length_alter; tauto.
Qed.

Lemma Resume_frame (p : Player) (w : World) :
  audio_frame p w (fst (Resume p w)) (snd (Resume p w))
  /\ CurrentTrack (fst (Resume p w)) = CurrentTrack p.
Proof.
  unfold Resume, audio_frame. repeat case_match; simpl;
    rewrite ?length_alter; tauto.
Qed.

Lemma Stop_frame (p : Player) (w : World) :
  audio_frame p w (fst (Stop p w)) (snd (Stop p w))
  /\ CurrentTrack (fst (Stop p w)) = CurrentTrack p.
Proof.
  unfold Stop, audio_frame. repeat case_match; simpl;
    rewrite ?length_alter; tauto.
Qed.

Lemma NextTrack_frame (E : Env) (p : Player) (w : World) out p' w' :
  NextTrack E p w = (out, p', w') -> audio_frame p w p' w'.
Proof.
  unfold NextTrack. intros Hnext.
  repeat case_match; simplify_eq;
    first [ by (unfold audio_frame; simpl; tauto)
          | match goal with
            | H : Play _ _ _ = _ |- _ => by apply Play_frame in H as [H _]
            end ].
Qed.

Lemma PreviousTrack_frame (E : Env) (p : Player) (w : World) out p' w' :
  PreviousTrack E p w = (out, p', w') -> audio_frame p w p' w'.
Proof.
  unfold PreviousTrack. intros Hprev.
  repeat case_match; simplify_eq;
    first [ by (unfold audio_frame; simpl; tauto)
          | match goal with
            | H : Play _ _ _ = _ |- _ => by apply Play_frame in H as [H _]
            end ].
Qed.

(** No operation writes the array of the catalog or changes its header. *)
Lemma step_catalog (E : Env) (op : Op) (p : Player) (w : World) :
  slice_ok w (Tracks p) ->
  Tracks (fst (step E op p w)) = Tracks p
  /\ array_at (snd (step E op p w)) (s_ptr (Tracks p))
     = array_at w (s_ptr (Tracks p)).
Proof.
  intros Hok. unfold array_at.
  destruct op; cbn [step];
    try (destruct (Play E p w) as [[out p'] w'] eqn:H; simpl;
         apply Play_frame in H as [(-> & -> & _) _]; done);
    try (destruct (NextTrack E p w) as [[out p'] w'] eqn:H; simpl;
         apply NextTrack_frame in H as (-> & -> & _); done);
    try (destruct (PreviousTrack E p w) as [[out p'] w'] eqn:H; simpl;
         apply PreviousTrack_frame in H as (-> & -> & _); done);
    try done.
  - by destruct (Pause_frame p w) as [(-> & -> & _) _].
  - by destruct (Resume_frame p w) as [(-> & -> & _) _].
  - by destruct (Stop_frame p w) as [(-> & -> & _) _].
  - destruct (Search_elems E query p w Hok) as (_ & -> & Harr & _).
    split; [done|]. apply Harr.
Qed.

(** C10: whatever public operations are run, in whatever order, the
    catalog stays as the scan left it: the slice header [Tracks] is the
    same and so is every track record it reaches, in the same order. *)
Theorem catalog_unchanged (E : Env) (ops : list Op) (p : Player) (w : World) :
  slice_ok w (Tracks p) ->
  Tracks (fst (run E ops p w)) = Tracks p
  /\ elems (snd (run E ops p w)) (Tracks (fst (run E ops p w)))
     = elems w (Tracks p).
Proof.
  revert p w. induction ops as [|op ops IH]; intros p w Hok; simpl; [done|].
  destruct (step_catalog E op p w Hok) as [HT Harr].
  destruct (step E op p w) as [p1 w1]; simpl in *.
  assert (slice_ok w1 (Tracks p1)) as Hok1.
  { rewrite HT. by apply (slice_ok_frame w). }
  destruct (IH p1 w1 Hok1) as [-> ->].
  split; [done|]. rewrite HT. by apply elems_frame.
Qed.

Lemma catalog_unchanged_witness :
  elems
    (snd (run Demo.env [OpSearch "song"; OpNextTrack; OpPause; OpSearch "";
                        OpPlay; OpToggleShuffle; OpPreviousTrack; OpStop;
                        OpResume; OpToggleRepeat; OpNextTrack]
            Demo.player0 Demo.world0))
    (Tracks Demo.player0)
  = [Demo.Song1; Demo.Song2; Demo.loose].
Proof.
  pose proof (catalog_unchanged Demo.env
                [OpSearch "song"; OpNextTrack; OpPause; OpSearch "";
                 OpPlay; OpToggleShuffle; OpPreviousTrack; OpStop;
                 OpResume; OpToggleRepeat; OpNextTrack]
                Demo.player0 Demo.world0) as [HT Hel].
  - vm_compute. split; lia.
  - rewrite HT in Hel. rewrite Hel. vm_compute. reflexivity.
Defined.

(** * Facts about the path functions, and [extractMetadata] *)

Section filepath_facts.
Import GoStrings GoFilepath.

Lemma join_path_cons (d : string) (ds : list string) :
  ds <> [] -> join_path (d :: ds) = d +:+ Separator +:+ join_path ds.
Proof. by destruct ds. Qed.

Lemma join_path_snoc (ds : list string) (file : string) :
  join_path (ds ++ [file]) = join_trail ds +:+ file.
Proof.
  induction ds as [|d ds IH]; [done|].
  change ((d :: ds) ++ [file]) with (d :: (ds ++ [file])).
  rewrite join_path_cons by (by destruct ds).
  rewrite IH. simpl. by rewrite !str_app_assoc.
Qed.

Lemma byte_at_app_r (a b : string) (i : nat) :
  byte_at (strlen a + i) (a +:+ b) = byte_at i b.
Proof. induction a; simpl; [done|]. apply IHa. Qed.

Lemma byte_at_app_mid (a b : string) (c : ascii) :
  byte_at (strlen a) (a +:+ String c b) = Some c.
Proof.
  rewrite <- (Nat.add_0_r (strlen a)). by rewrite byte_at_app_r.
Qed.

Lemma byte_at_no_sep (s : string) (i : nat) (c : ascii) :
  has_sep s = false -> byte_at i s = Some c -> IsPathSeparator c = false.
Proof.
  revert i. induction s as [|d s IH]; intros i Hs Hi; simpl in *; [done|].
  apply orb_false_elim in Hs as [Hd Hs].
  destruct i; [by simplify_eq|]. by eapply IH.
Qed.

Lemma byte_at_lt (s : string) (i : nat) :
  (i < strlen s)%nat -> is_Some (byte_at i s).
Proof.
  revert i. induction s as [|d s IH]; intros i Hi; simpl in *; [lia|].
  destruct i; [by eexists|]. apply IH. lia.
Qed.

(** Scanning back over a last element without separator. *)
Lemma last_sep_skip (pre suf : string) (n : nat) :
  has_sep suf = false -> (n <= strlen suf)%nat ->
  last_sep (strlen pre + n) (pre +:+ suf) = last_sep (strlen pre) (pre +:+ suf).
Proof.
  intros Hs. induction n as [|n IH]; intros Hn.
  - by rewrite Nat.add_0_r.
  - rewrite Nat.add_succ_r. simpl. rewrite byte_at_app_r.
    destruct (byte_at_lt suf n) as [c Hc]; [lia|]. rewrite Hc.
    rewrite (byte_at_no_sep _ _ _ Hs Hc). apply IH. lia.
Qed.

Lemma last_sep_file (file : string) :
  has_sep file = false -> last_sep (strlen file) file = 0%nat.
Proof.
  intros Hs. pose proof (last_sep_skip "" file (strlen file) Hs) as H.
  simpl in H. rewrite H by lia. done.
Qed.

Lemma last_sep_dir (pre file : string) :
  has_sep file = false ->
  last_sep (strlen (pre +:+ Separator +:+ file)) (pre +:+ Separator +:+ file)
  = strlen (pre +:+ Separator).
Proof.
  intros Hs. rewrite <- str_app_assoc, strlen_app.
  rewrite last_sep_skip by (done || lia).
  rewrite strlen_app. simpl strlen. rewrite Nat.add_1_r. simpl.
  rewrite str_app_assoc.
  change (Separator +:+ file) with (String "/"%char file).
  by rewrite byte_at_app_mid.
Qed.

Lemma join_trail_sep (ds : list string) :
  ds <> [] -> exists pre, join_trail ds = pre +:+ Separator.
Proof.
  induction ds as [|d ds IH]; [done|]. intros _. destruct ds as [|d' ds].
  - by exists d.
  - destruct IH as [pre Hpre]; [done|]. exists (d +:+ Separator +:+ pre).
    change (join_trail (d :: d' :: ds))
      with (d +:+ Separator +:+ join_trail (d' :: ds)).
    by rewrite Hpre, !str_app_assoc.
Qed.

(** The directory part of a relative path that [Dir] hands to [Clean]. *)
Lemma Dir_join (ds : list string) (file : string) :
  has_sep file = false ->
  Dir (join_path (ds ++ [file])) = Clean (join_trail ds).
Proof.
  intros Hs. unfold Dir. rewrite join_path_snoc. f_equal.
  destruct ds as [|d ds].
  - simpl. by rewrite last_sep_file.
  - destruct (join_trail_sep (d :: ds)) as [pre ->]; [done|].
    rewrite str_app_assoc, last_sep_dir by done.
    by rewrite <- str_app_assoc, upto_app.
Qed.

Lemma span_elem_app (d X : string) :
  has_sep d = false ->
  span_elem (d +:+ String "/" X) = (d, String "/"%char X).
Proof.
  induction d as [|c d IH]; intros Hs; simpl in *; [done|].
  apply orb_false_elim in Hs as [-> Hs]. by rewrite IH.
Qed.

Lemma clean_loop_unfold (fuel : nat) (rooted : bool) (c : ascii)
    (rest1 out : string) (dotdot : nat) :
  clean_loop (S fuel) rooted (String c rest1) out dotdot
  = if IsPathSeparator c then clean_loop fuel rooted rest1 out dotdot
    else if bool_decide (c = "."%char) && end_or_sep rest1 then
      clean_loop fuel rooted rest1 out dotdot
    else if bool_decide (c = "."%char)
            && HasPrefix rest1 "." && end_or_sep (from 1 rest1) then
      let rest2 := from 1 rest1 in
      if (dotdot <? strlen out)%nat then
        let w := backtrack (strlen out - 1) dotdot out in
        clean_loop fuel rooted rest2 (upto w out) dotdot
      else if negb rooted then
        let out' :=
          ((if (0 <? strlen out)%nat then out +:+ Separator else out)
             +:+ "..") in
        clean_loop fuel rooted rest2 out' (strlen out')
      else clean_loop fuel rooted rest2 out dotdot
    else
      let out1 :=
        if (rooted && negb (strlen out =? 1)%nat)
           || (negb rooted && negb (strlen out =? 0)%nat)
        then out +:+ Separator else out in
      let '(e, rest') := span_elem (String c rest1) in
      clean_loop fuel rooted rest' (out1 +:+ e) dotdot.
Proof. reflexivity. Qed.

(** One real element followed by a separator costs [clean_loop] two
    rounds and lands in the buffer, after a separator if the buffer is not
    empty. *)
Lemma clean_loop_elem (fuel : nat) (d X out : string) :
  entry_name d ->
  clean_loop (S (S fuel)) false (d +:+ Separator +:+ X) out 0
  = clean_loop fuel false X
      ((if (strlen out =? 0)%nat then out else out +:+ Separator) +:+ d) 0.
Proof.
  intros (Hne & Hs & Hdot & Hdotdot).
  change (Separator +:+ X) with (String "/"%char X).
  pose proof (span_elem_app d X Hs) as Hspan.
  destruct d as [|c d]; [done|]. simpl in Hs.
  apply orb_false_elim in Hs as [Hc Hs].
  change (String c d +:+ String "/" X) with (String c (d +:+ String "/" X)) in *.
  rewrite clean_loop_unfold, Hc.
  assert (bool_decide (c = "."%char) && end_or_sep (d +:+ String "/" X) = false)
    as ->.
  { case_bool_decide as Hcd; [|done]. subst c. simpl.
    destruct d as [|e d]; [done|]. simpl in *.
    by apply orb_false_elim in Hs as [-> _]. }
  assert (bool_decide (c = "."%char) && HasPrefix (d +:+ String "/" X) "."
          && end_or_sep (from 1 (d +:+ String "/" X)) = false) as ->.
  { case_bool_decide as Hcd; [|done]. subst c. simpl.
    destruct d as [|e d]; [done|]. simpl in *.
    apply orb_false_elim in Hs as [He Hs].
    case_decide as Hed; [|done]. subst e. simpl.
    destruct d as [|f d]; [done|]. simpl in *.
    by apply orb_false_elim in Hs as [-> _]. }
  cbv zeta. rewrite Hspan. simpl negb. rewrite orb_false_l, andb_true_l.
  rewrite clean_loop_unfold. simpl IsPathSeparator. cbv iota.
  by destruct (strlen out =? 0)%nat.
Qed.

Lemma clean_loop_trail (ds : list string) (fuel : nat) (out : string) :
  Forall entry_name ds ->
  (2 * length ds <= fuel)%nat ->
  clean_loop fuel false (join_trail ds) out 0 = clean_acc out ds.
Proof.
  revert fuel out. induction ds as [|d ds IH]; intros fuel out Hds Hfuel.
  - by destruct fuel.
  - apply Forall_cons in Hds as [Hd Hds]. simpl in Hfuel.
    destruct fuel as [|[|fuel]]; [lia|lia|].
    change (join_trail (d :: ds)) with (d +:+ Separator +:+ join_trail ds).
    rewrite clean_loop_elem by done.
    rewrite IH by (done || lia). done.
Qed.

Lemma strlen_zero (s : string) : (strlen s =? 0)%nat = bool_decide (s = "").
Proof. by destruct s. Qed.

Lemma clean_acc_join (out : string) (ds : list string) :
  out <> "" -> clean_acc out ds = join_path (out :: ds).
Proof.
  revert out. induction ds as [|d ds IH]; intros out Hout; [done|].
  unfold clean_acc in *. simpl fold_left.
  rewrite strlen_zero, bool_decide_eq_false_2 by done.
  rewrite IH by (by destruct out).
  rewrite (join_path_cons out) by done.
  destruct ds as [|e ds].
  - simpl. by rewrite str_app_assoc.
  - rewrite !join_path_cons by done. by rewrite !str_app_assoc.
Qed.

Lemma strlen_join_trail (ds : list string) :
  Forall entry_name ds -> (2 * length ds <= strlen (join_trail ds))%nat.
Proof.
  induction 1 as [|d ds (Hne & _) _ IH]; simpl; [lia|].
  rewrite !strlen_app. destruct d; [done|]. simpl. lia.
Qed.

(** [Clean] takes the trailing separator off a relative path of real
    elements and changes nothing else. *)
Lemma Clean_join_trail (ds : list string) :
  Forall entry_name ds ->
  Clean (join_trail ds) = if ds is [] then "." else join_path ds.
Proof.
  intros Hds. destruct ds as [|d ds]; [done|].
  pose proof (strlen_join_trail _ Hds) as Hlen.
  pose proof (clean_loop_trail (d :: ds) (S (strlen (join_trail (d :: ds)))) ""
                Hds) as Hloop.
  specialize (Hloop ltac:(lia)). clear Hlen.
  apply Forall_cons in Hds as [(Hne & Hs & _) _].
  assert (clean_acc "" (d :: ds) = join_path (d :: ds)) as Hacc.
  { unfold clean_acc. simpl fold_left. fold (clean_acc d ds).
    by apply clean_acc_join. }
  rewrite Hacc in Hloop. clear Hacc.
  destruct d as [|c d]; [done|]. simpl in Hs.
  apply orb_false_elim in Hs as [Hc _].
  change (join_trail (String c d :: ds))
    with (String c (d +:+ Separator +:+ join_trail ds)) in *.
  unfold Clean. cbv zeta. rewrite Hc, Hloop.
  rewrite bool_decide_eq_false_2; [done|]. by destruct ds.
Qed.

Lemma Dir_relative (ds : list string) (file : string) :
  Forall entry_name ds -> has_sep file = false ->
  Dir (join_path (ds ++ [file])) = if ds is [] then "." else join_path ds.
Proof. intros Hds Hs. by rewrite Dir_join, Clean_join_trail. Qed.

Lemma HasPrefix_Separator (c : ascii) (s : string) :
  HasPrefix (String c s) Separator = IsPathSeparator c.
Proof.
  unfold IsPathSeparator. simpl. case_decide; case_bool_decide; congruence.
Qed.

Lemma Index_no_sep (d : string) :
  has_sep d = false -> Index d Separator = -1.
Proof.
  induction d as [|c d IH]; intros Hs; [done|]. simpl in Hs.
  apply orb_false_elim in Hs as [Hc Hs].
  change (Index (String c d) Separator)
    with (if HasPrefix (String c d) Separator then 0
          else let i := Index d Separator in if i <? 0 then -1 else i + 1).
  rewrite HasPrefix_Separator, Hc, IH by done. done.
Qed.

Lemma Index_elem (d X : string) :
  has_sep d = false ->
  Index (d +:+ Separator +:+ X) Separator = Z.of_nat (strlen d).
Proof.
  induction d as [|c d IH]; intros Hs; [done|]. simpl in Hs.
  apply orb_false_elim in Hs as [Hc Hs].
  change (Index (String c d +:+ Separator +:+ X) Separator)
    with (if HasPrefix (String c (d +:+ Separator +:+ X)) Separator then 0
          else let i := Index (d +:+ Separator +:+ X) Separator in
               if i <? 0 then -1 else i + 1).
  rewrite HasPrefix_Separator, Hc, IH by done. cbv zeta.
  destruct (Z.ltb_spec (Z.of_nat (strlen d)) 0); simpl strlen; lia.
Qed.

Lemma from_elem (d X : string) :
  from (Z.to_nat (Z.of_nat (strlen d)) + strlen Separator)
    (d +:+ Separator +:+ X) = X.
Proof. rewrite Nat2Z.id, from_add, from_app. done. Qed.

Lemma upto_elem (d X : string) :
  upto (Z.to_nat (Z.of_nat (strlen d))) (d +:+ Separator +:+ X) = d.
Proof. by rewrite Nat2Z.id, upto_app. Qed.

Lemma count_loop_join (d : string) (ds : list string) (fuel : nat) :
  Forall (λ s, has_sep s = false) (d :: ds) ->
  (length ds <= fuel)%nat ->
  count_loop fuel (join_path (d :: ds)) Separator = length ds.
Proof.
  revert d fuel. induction ds as [|e ds IH]; intros d fuel Hds Hfuel.
  - apply Forall_cons in Hds as [Hd _]. destruct fuel; [done|].
    simpl. by rewrite Index_no_sep.
  - apply Forall_cons in Hds as [Hd Hds]. simpl in Hfuel.
    destruct fuel as [|fuel]; [lia|].
    rewrite join_path_cons by done.
    change (count_loop (S fuel) ?s ?sep)
      with (let m := Index s sep in
            if m <? 0 then 0%nat
            else S (count_loop fuel (from (Z.to_nat m + strlen sep) s) sep)).
    cbv zeta. rewrite Index_elem by done.
    destruct (Z.ltb_spec (Z.of_nat (strlen d)) 0); [lia|].
    rewrite from_elem, IH by (done || lia). done.
Qed.

Lemma split_loop_join (d : string) (ds : list string) :
  Forall (λ s, has_sep s = false) (d :: ds) ->
  split_loop (length ds) (join_path (d :: ds)) Separator = d :: ds.
Proof.
  revert d. induction ds as [|e ds IH]; intros d Hds; [done|].
  apply Forall_cons in Hds as [Hd Hds].
  rewrite join_path_cons by done.
  change (split_loop (length (e :: ds)) ?s ?sep)
    with (let m := Index s sep in
          if m <? 0 then [s]
          else upto (Z.to_nat m) s
                 :: split_loop (length ds) (from (Z.to_nat m + strlen sep) s) sep).
  cbv zeta. rewrite Index_elem by done.
  destruct (Z.ltb_spec (Z.of_nat (strlen d)) 0); [lia|].
  rewrite from_elem, upto_elem, IH by done. done.
Qed.

Lemma strlen_join_path (d : string) (ds : list string) :
  (length ds <= strlen (join_path (d :: ds)))%nat.
Proof.
  revert d. induction ds as [|e ds IH]; intros d; simpl length; [lia|].
  rewrite join_path_cons by done. rewrite !strlen_app.
  specialize (IH e). simpl strlen. lia.
Qed.

(** Splitting a joined path at the separator gives back its elements. *)
Lemma Split_join (d : string) (ds : list string) :
  Forall (λ s, has_sep s = false) (d :: ds) ->
  Split (join_path (d :: ds)) Separator = d :: ds.
Proof.
  intros Hds. unfold Split, Count. simpl Separator. cbv iota.
  fold Separator.
  rewrite count_loop_join by (done || apply strlen_join_path).
  by apply split_loop_join.
Qed.

Lemma entry_names_no_sep (ds : list string) :
  Forall entry_name ds -> Forall (λ s, has_sep s = false) ds.
Proof. induction 1 as [|s ds (_ & Hs & _) _ IH]; by constructor. Qed.

End filepath_facts.

(** C7: for a track that comes out of the scan with path
    [root/d1/.../dk/file], i.e. whose path relative to the scan root has
    the directory elements [d1 ... dk] above the file, [extractMetadata]
    sets the artist to the first element and the album to the second; an
    element that is missing leaves the field empty, so a file directly
    under the root has neither artist nor album. *)
Theorem extractMetadata_positional (p : Player) (track : Track.t)
    (dirs : list string) (file : string) :
  Forall entry_name dirs ->
  entry_name file ->
  fst (Rel (MusicDir p) (Track.Path track)) = join_path (dirs ++ [file]) ->
  Track.Artist track = "" ->
  Track.Album track = "" ->
  Track.Artist (extractMetadata p track) = nth 0 dirs ""
  /\ Track.Album (extractMetadata p track) = nth 1 dirs "".
Proof.
  intros Hdirs (_ & Hfile & _) Hrel HArtist HAlbum.
  unfold extractMetadata. cbv zeta. simpl Track.Path. rewrite Hrel.
  rewrite Dir_relative by done.
  destruct dirs as [|d1 ds].
  - change (Split "." Separator) with ["."]. simpl. done.
  - rewrite Split_join by by apply entry_names_no_sep.
    apply Forall_cons in Hdirs as [(_ & _ & Hdot & _) _].
    destruct ds as [|d2 ds]; simpl.
    + rewrite bool_decide_eq_false_2 by done. simpl. done.
    + done.
Qed.

Lemma extractMetadata_positional_witness :
  Track.Artist
    (extractMetadata Demo.player0
       (Track.mk "music/RootArtistA/AlbumX/Song1.mp3" "Song1.mp3" "" "" 0 ".mp3"))
  = "RootArtistA"
  /\ Track.Album
       (extractMetadata Demo.player0
          (Track.mk "music/RootArtistA/AlbumX/Song1.mp3" "Song1.mp3" "" "" 0
             ".mp3"))
     = "AlbumX".
Proof.
  apply (extractMetadata_positional Demo.player0
           (Track.mk "music/RootArtistA/AlbumX/Song1.mp3" "Song1.mp3" "" "" 0
              ".mp3")
           ["RootArtistA"; "AlbumX"] "Song1.mp3").
  - repeat constructor; done.
  - repeat constructor; done.
  - vm_compute. reflexivity.
  - reflexivity.
  - reflexivity.
Defined.

(** The scenario of the specification, run through the scan. *)
Example extractMetadata_scenario :
  map (λ t, (Track.Path t, Track.Artist t, Track.Album t))
    (elems Demo.world0 (Tracks Demo.player0))
  = [("music/RootArtistA/AlbumX/Song1.mp3", "RootArtistA", "AlbumX");
     ("music/RootArtistA/AlbumX/Song2.mp3", "RootArtistA", "AlbumX");
     ("music/loose.mp3", "", "")].
Proof. vm_compute. reflexivity. Qed.

(** Below the second directory the elements are not looked at, and one
    directory gives an artist without album. *)
Example extractMetadata_depths :
  map (λ path,
         let t := extractMetadata (NewPlayer "/m") (Track.mk path "" "" "" 0 "") in
         (Track.Artist t, Track.Album t))
    ["/m/A/B/C/s.mp3"; "/m/A/s.mp3"; "/m/s.mp3"]
  = [("A", "B"); ("A", ""); ("", "")].
Proof. vm_compute. reflexivity. Qed.

(** * The invariant holds after start-up and is kept by every operation *)

(** The invariant of a closed state, by evaluation. *)
Ltac wf_by_evaluation :=
  split; vm_compute;
  [ lia | lia | discriminate | reflexivity
  | split; [discriminate|reflexivity]
  | intros H1 H2; first [discriminate H2 | exact (H1 H2)]
  | intros c H; first [discriminate H | injection H as <-; lia] ].

Lemma wf_audio_frame (p : Player) (w : World) (p' : Player) (w' : World) :
  wf p w -> audio_frame p w p' w' ->
  0 <= CurrentTrack p' < 2 ^ 63 - 1 ->
  wf p' w'.
Proof.
  intros [HT HF Hlen Hint Hidx HS HC] (Harr & HT' & HF' & Haudio) Hidx'.
  split; rewrite ?HT', ?HF'; try done.
  - unfold slice_ok, array_at. by rewrite Harr.
  - unfold slice_ok, array_at. by rewrite Harr.
  - destruct Haudio as [(-> & -> & _)|(_ & -> & _)]; done.
  - intros c Hc. destruct Haudio as [(_ & HC' & ->)|(_ & HC' & ->)].
    + apply HC. by rewrite <- HC'.
    + rewrite HC' in Hc. injection Hc as <-. lia.
Qed.

Lemma Play_no_panic (E : Env) (p : Player) (w : World) :
  (Streamer p <> None -> Ctrl p <> None) ->
  0 <= CurrentTrack p ->
  exists r p' w', Play E p w = (Returns r, p', w').
Proof.
  intros Hctrl Hidx. unfold Play, index, new_Ctrl, speaker_Play.
  repeat case_match; simplify_eq; eauto;
    repeat match goal with
           | H : _ && _ = true |- _ => apply andb_prop in H as [? ?]
           | H : _ && _ = false |- _ => apply andb_false_iff in H as [?|?]
           | H : bool_decide _ = true |- _ => apply bool_decide_eq_true in H
           | H : (_ <? _) = false |- _ => apply Z.ltb_ge in H
           | H : (_ <=? _) = false |- _ => apply Z.leb_gt in H
           | H : (_ <=? _) = true |- _ => apply Z.leb_le in H
           | H : (_ =? _) = false |- _ => apply Z.eqb_neq in H
           end;
    simpl in *; try lia.
  all: try (exfalso; by apply Hctrl).
  all: pose proof (len_nonneg (FilteredTracks p)); lia.
Qed.

Lemma NextTrack_index (E : Env) (p : Player) (w : World) out p' w' :
  wf p w -> NextTrack E p w = (out, p', w') ->
  0 <= CurrentTrack p' < 2 ^ 63 - 1
  /\ exists r, out = Returns r.
Proof.
  intros [HT HF Hlen Hint Hidx HS HC]. unfold NextTrack.
  pose proof (len_nonneg (FilteredTracks p)).
  destruct (Z.eqb_spec (len (FilteredTracks p)) 0); [intros [= <- <- <-]; eauto|].
  simpl. rewrite wrap64_id by lia.
  destruct (Z.leb_spec (len (FilteredTracks p)) (CurrentTrack p + 1)).
  - destruct (Repeat p); [|intros [= <- <- <-]; simpl; split; [lia|eauto]].
    intros Hplay.
    destruct (Play_no_panic E (set_CurrentTrack 0
                (set_CurrentTrack (CurrentTrack p + 1) p)) w)
      as (r & ? & ? & Hr); [done|simpl; lia|].
    rewrite Hplay in Hr. injection Hr as -> <- <-.
    apply Play_frame in Hplay as [_ [->| ->]]; simpl; split; eauto; lia.
  - intros Hplay.
    destruct (Play_no_panic E (set_CurrentTrack (CurrentTrack p + 1) p) w)
      as (r & ? & ? & Hr); [done|simpl; lia|].
    rewrite Hplay in Hr. injection Hr as -> <- <-.
    apply Play_frame in Hplay as [_ [->| ->]]; simpl; split; eauto; lia.
Qed.

Lemma PreviousTrack_index (E : Env) (p : Player) (w : World) out p' w' :
  wf p w -> PreviousTrack E p w = (out, p', w') ->
  0 <= CurrentTrack p' < 2 ^ 63 - 1
  /\ exists r, out = Returns r.
Proof.
  intros [HT HF Hlen Hint Hidx HS HC]. unfold PreviousTrack.
  pose proof (len_nonneg (FilteredTracks p)).
  destruct (Z.eqb_spec (len (FilteredTracks p)) 0); [intros [= <- <- <-]; eauto|].
  simpl. rewrite wrap64_id by lia.
  destruct (Z.ltb_spec (CurrentTrack p - 1) 0).
  - destruct (Repeat p); [|intros [= <- <- <-]; simpl; split; [lia|eauto]].
    intros Hplay.
    destruct (Play_no_panic E (set_CurrentTrack (len (FilteredTracks p) - 1)
                (set_CurrentTrack (CurrentTrack p - 1) p)) w)
      as (r & ? & ? & Hr); [done|simpl; lia|].
    rewrite Hplay in Hr. injection Hr as -> <- <-.
    apply Play_frame in Hplay as [_ [->| ->]]; simpl; split; eauto; lia.
  - intros Hplay.
    destruct (Play_no_panic E (set_CurrentTrack (CurrentTrack p - 1) p) w)
      as (r & ? & ? & Hr); [done|simpl; lia|].
    rewrite Hplay in Hr. injection Hr as -> <- <-.
    apply Play_frame in Hplay as [_ [->| ->]]; simpl; split; eauto; lia.
Qed.

Lemma length_List_filter {A} (f : A -> bool) (l : list A) :
  (length (List.filter f l) <= length l)%nat.
Proof. induction l as [|x l IH]; simpl; [lia|]. destruct (f x); simpl; lia. Qed.

Lemma wf_Search (E : Env) (q : string) (p : Player) (w : World) :
  wf p w -> wf (fst (Search E q p w)) (snd (Search E q p w)).
Proof.
  intros [HT HF Hlen Hint Hidx HS HC].
  destruct (Search_elems E q p w HT)
    as (Hview & HT' & Harr & HF' & _ & Hc & _).
  pose proof (Search_player E q p w) as Hp.
  pose proof (elems_length _ _ HF') as HlenF.
  pose proof (elems_length _ _ HT) as HlenT.
  split; rewrite ?HT'; try done.
  - by apply (slice_ok_frame w).
  - unfold len. rewrite <- HlenF, <- HlenT, Hview.
    case_bool_decide; [done|].
    pose proof (length_List_filter (matches E (ToLower E q)) (elems w (Tracks p))).
    lia.
  - by rewrite Hp.
  - by rewrite Hp.
  - rewrite Hc, Hp. done.
Qed.

(** Every operation keeps the invariant. *)
Theorem wf_step (E : Env) (op : Op) (p : Player) (w : World) :
  wf p w -> wf (fst (step E op p w)) (snd (step E op p w)).
Proof.
  intros Hwf. pose proof Hwf as [HT HF Hlen Hint Hidx HS HC].
  destruct op; cbn [step].
  - destruct (Play E p w) as [[out p'] w'] eqn:H; simpl.
    apply Play_frame in H as [Hfr [Hi|Hi]];
      apply (wf_audio_frame p w); (done || lia).
  - destruct (Pause_frame p w) as [Hfr Hi].
    apply (wf_audio_frame p w); (done || lia).
  - destruct (Resume_frame p w) as [Hfr Hi].
    apply (wf_audio_frame p w); (done || lia).
  - destruct (Stop_frame p w) as [Hfr Hi].
    apply (wf_audio_frame p w); (done || lia).
  - destruct (NextTrack E p w) as [[out p'] w'] eqn:H; simpl.
    apply (wf_audio_frame p w); [done| |].
    + by apply NextTrack_frame in H.
    + by apply NextTrack_index in H as [? _].
  - destruct (PreviousTrack E p w) as [[out p'] w'] eqn:H; simpl.
    apply (wf_audio_frame p w); [done| |].
    + by apply PreviousTrack_frame in H.
    + by apply PreviousTrack_index in H as [? _].
  - by split.
  - by split.
  - by apply wf_Search.
Qed.

(** X22: the invariant of the player is kept by every sequence of the nine
    public operations, whatever the file system and the decoders answer:
    the index stays in [0, 2^63 - 1), the view is never longer than the
    catalog, both slices stay inside their backing arrays, and a stream is
    installed only together with a control that exists. *)
Theorem wf_run (E : Env) (ops : list Op) (p : Player) (w : World) :
  wf p w -> wf (fst (run E ops p w)) (snd (run E ops p w)).
Proof.
  revert p w. induction ops as [|op ops IH]; intros p w Hwf; [done|].
  simpl. pose proof (wf_step E op p w Hwf) as Hwf1.
  destruct (step E op p w) as [p1 w1]. by apply IH.
Qed.

Lemma wf_run_witness :
  wf (fst (run Demo.env [OpNextTrack; OpSearch "loo"; OpPlay; OpStop;
                         OpPreviousTrack] Demo.player1 Demo.world1))
    (snd (run Demo.env [OpNextTrack; OpSearch "loo"; OpPlay; OpStop;
                        OpPreviousTrack] Demo.player1 Demo.world1)).
Proof.
  apply (wf_run Demo.env [OpNextTrack; OpSearch "loo"; OpPlay; OpStop;
                          OpPreviousTrack] Demo.player1 Demo.world1).
  wf_by_evaluation.
Defined.

(** X23: from a state that satisfies the invariant no public operation
    panics: no index expression of [Play()], [NextTrack()] or
    [PreviousTrack()] is out of range and [Play()] never dereferences a nil
    control. *)
Theorem step_no_panic (E : Env) (op : Op) (p : Player) (w : World) :
  wf p w -> panics E op p w = false.
Proof.
  intros Hwf. pose proof Hwf as [HT HF Hlen Hint Hidx HS HC].
  destruct op; try done; unfold panics.
  - destruct (Play_no_panic E p w) as (r & p' & w' & ->); [done|lia|done].
  - destruct (NextTrack E p w) as [[out p'] w'] eqn:H.
    by apply NextTrack_index in H as [_ [r ->]].
  - destruct (PreviousTrack E p w) as [[out p'] w'] eqn:H.
    by apply PreviousTrack_index in H as [_ [r ->]].
Qed.

Lemma step_no_panic_witness :
  panics Demo.env OpPreviousTrack Demo.player1 Demo.world1 = false.
Proof.
  apply (step_no_panic Demo.env OpPreviousTrack Demo.player1 Demo.world1).
  wf_by_evaluation.
Defined.

(** Without the invariant they can: an index below zero is not caught by
    the guard of [Play()]. *)
Example Play_negative_index_panics :
  fst (fst (Play Demo.env (set_CurrentTrack (-1) Demo.player0) Demo.world0))
  = Panics index_out_of_range.
Proof. vm_compute. reflexivity. Qed.

(** ** Start-up *)

Lemma sort_insert_perm (x : Track.t) (l : list Track.t) :
  sort_insert x l ≡ₚ x :: l.
Proof.
  induction l as [|y l IH]; simpl; [done|].
  destruct (less y x); [|done]. rewrite IH. apply Permutation_swap.
Qed.

Lemma sort_tracks_perm (l : list Track.t) : sort_tracks l ≡ₚ l.
Proof.
  induction l as [|x l IH]; simpl; [done|].
  by rewrite sort_insert_perm, IH.
Qed.

Lemma sort_Slice_spec (s : slice) (w : World) :
  slice_ok w s ->
  elems (sort_Slice s w) s = sort_tracks (elems w s)
  /\ slice_ok (sort_Slice s w) s
  /\ ctrls (sort_Slice s w) = ctrls w
  /\ speaker (sort_Slice s w) = speaker w
  /\ decoded (sort_Slice s w) = decoded w.
Proof.
  intros Hok. pose proof (elems_length _ _ Hok) as Hlen.
  assert (array_at (sort_Slice s w) (s_ptr s)
          = sort_tracks (elems w s) ++ drop (s_len s) (array_at w (s_ptr s)))
    as Harr.
  { unfold array_at, sort_Slice, elems; simpl. rewrite list_lookup_alter.
    case_decide; [|done]. unfold array_at.
    destruct (arrays w !! s_ptr s) as [a|] eqn:Ha; simpl; [done|].
    by rewrite take_nil, drop_nil. }
  assert (length (sort_tracks (elems w s)) = s_len s) as Hlen'
    by (by rewrite (Permutation_length (sort_tracks_perm _))).
  split_and!; try done.
  - unfold elems at 1. rewrite Harr. by rewrite take_app_length'.
  - destruct Hok as [Hlc Hcap]. split; [done|].
    rewrite Harr, length_app, Hlen', length_drop. lia.
Qed.

Lemma scan_walk_spec (E : Env) (calls : list WalkCall) (p : Player)
    (w : World) err p' w' :
  slice_ok w (Tracks p) ->
  scan_walk E calls p w = (err, p', w') ->
  slice_ok w' (Tracks p')
  /\ (s_len (Tracks p') <= s_len (Tracks p) + length calls)%nat
  /\ p' = set_Tracks (Tracks p') p
  /\ ctrls w' = ctrls w /\ speaker w' = speaker w /\ decoded w' = decoded w
  /\ exists paths,
       elems w' (Tracks p') = elems w (Tracks p) ++ map (scan_track E p) paths
       /\ Forall (λ path, exists c, c ∈ calls /\ walk_path c = path
                                    /\ walk_IsDir c = false) paths.
Proof.
  revert p w. induction calls as [|c calls IH]; intros p w Hok; simpl.
  { intros [= <- <- <-]. split_and!; try done; [lia|by destruct p|].
    exists []. by rewrite app_nil_r. }
  assert (forall p1 w1,
            slice_ok w1 (Tracks p1) -> p1 = set_Tracks (Tracks p1) p ->
            (s_len (Tracks p1) <= S (s_len (Tracks p)))%nat ->
            ctrls w1 = ctrls w -> speaker w1 = speaker w ->
            decoded w1 = decoded w ->
            (exists paths1,
               elems w1 (Tracks p1)
               = elems w (Tracks p) ++ map (scan_track E p) paths1
               /\ Forall (λ path, path = walk_path c /\ walk_IsDir c = false)
                    paths1) ->
            scan_walk E calls p1 w1 = (err, p', w') ->
            slice_ok w' (Tracks p')
            /\ (s_len (Tracks p') <= s_len (Tracks p) + S (length calls))%nat
            /\ p' = set_Tracks (Tracks p') p
            /\ ctrls w' = ctrls w /\ speaker w' = speaker w
            /\ decoded w' = decoded w
            /\ exists paths,
                 elems w' (Tracks p')
                 = elems w (Tracks p) ++ map (scan_track E p) paths
                 /\ Forall (λ path, exists c0, c0 ∈ c :: calls
                              /\ walk_path c0 = path
                              /\ walk_IsDir c0 = false) paths) as Hrest.
  { intros p1 w1 Hok1 Hp1 Hlen1 Hc1 Hs1 Hd1 (paths1 & Hel1 & Hpaths1) Hwalk.
    destruct (IH _ _ Hok1 Hwalk)
      as (Hok' & Hlen' & Hp' & Hc' & Hs' & Hd' & paths & Hel' & Hpaths).
    split_and!; try congruence; [lia|by rewrite Hp', Hp1|].
    exists (paths1 ++ paths). split.
    - rewrite Hel', Hel1, map_app, <- (assoc_L (++)).
      do 2 f_equal. apply map_ext. intros path.
      rewrite Hp1. reflexivity.
    - apply Forall_app. split.
      + eapply Forall_impl; [apply Hpaths1|]. intros path [-> ?].
        exists c. split_and!; [left|done|done].
      + eapply Forall_impl; [apply Hpaths|]. intros path (c0 & ? & ? & ?).
        exists c0. split_and!; [by right|done|done]. }
  destruct (walk_err c) as [e|].
  { intros [= <- <- <-]. split_and!; try done; [lia|by destruct p|].
    exists []. by rewrite app_nil_r. }
  destruct (walk_IsDir c) eqn:Hdir.
  { apply Hrest; try done; [by destruct p|lia|].
    exists []. by rewrite app_nil_r. }
  destruct (formats (ToLower E (Ext (walk_path c)))).
  - fold (scan_track E p (walk_path c)).
    destruct (append E (Tracks p) (scan_track E p (walk_path c)) w)
      as [s w1] eqn:Happ.
    destruct (append_spec _ _ _ _ _ _ Hok Happ)
      as (Hel & Hok1 & Hlen1 & _ & _ & _ & Hc & Hs & Hd).
    apply Hrest; simpl; try done; [lia|].
    exists [walk_path c]. split; [done|]. by repeat constructor.
  - apply Hrest; try done; [by destruct p|lia|].
    exists []. by rewrite app_nil_r.
Qed.

(** After [NewPlayer(dir)] and a successful [Initialize()] the invariant
    holds, the view is the catalog, nothing plays, and every track of the
    catalog is the one the callback makes for some file of the walk. *)
Theorem Initialize_wf (E : Env) (dir : string) (p : Player) (w : World) :
  Z.of_nat (length (fs_walk E dir)) < 2 ^ 63 ->
  Initialize E (NewPlayer dir) init_World = (None, p, w) ->
  wf p w
  /\ FilteredTracks p = Tracks p
  /\ State p = Stopped
  /\ forall t, t ∈ elems w (Tracks p) ->
       exists c, c ∈ fs_walk E dir /\ walk_IsDir c = false
                 /\ t = scan_track E (NewPlayer dir) (walk_path c).
Proof.
  intros Hwalk. unfold Initialize, ScanMusicFiles. simpl MusicDir.
  destruct (scan_walk E (fs_walk E dir) (set_Tracks nil_slice (NewPlayer dir))
              (set_speaker [] init_World)) as [[err p1] w1] eqn:Hscan.
  apply scan_walk_spec in Hscan
    as (Hok & Hlen & Hp & Hc & Hs & Hd & paths & Hel & Hpaths);
    [|split; simpl; lia].
  destruct err as [e|]; [done|]. intros [= <- <-].
  destruct (sort_Slice_spec (Tracks p1) w1 Hok) as (Hsorted & Hok' & Hc' & _).
  simpl in Hlen. rewrite Hp. simpl.
  split_and!; try done.
  - split; simpl; try done. unfold len. lia.
  - intros t Ht. rewrite Hsorted, sort_tracks_perm, Hel in Ht.
    change (elems _ nil_slice) with (@nil Track.t) in Ht. simpl in Ht.
    apply list_elem_of_fmap in Ht as (path & -> & Hpath).
    rewrite Forall_forall in Hpaths.
    destruct (Hpaths path Hpath) as (c & Hin & <- & Hfile).
    by exists c.
Qed.

(** * Further properties of the transport operations *)

(** [Play] leaves an index alone that is below the length of the view. *)
Lemma Play_keeps_index (E : Env) (p : Player) (w : World) out p' w' :
  Play E p w = (out, p', w') ->
  CurrentTrack p < len (FilteredTracks p) ->
  CurrentTrack p' = CurrentTrack p.
Proof.
  unfold Play, index, new_Ctrl, speaker_Play. intros Hplay Hlt.
  destruct (Z.leb_spec (len (FilteredTracks p)) (CurrentTrack p)); [lia|].
  repeat case_match; simplify_eq; done.
Qed.

(** X1: at index 0 of a non-empty view with Repeat off, [PreviousTrack()]
    returns the error "at the beginning" and leaves the player and the
    store exactly as they were: no wrap to the end, no [Play()]. *)
Theorem PreviousTrack_at_start (E : Env) (p : Player) (w : World) :
  0 < len (FilteredTracks p) ->
  Repeat p = false ->
  CurrentTrack p = 0 ->
  PreviousTrack E p w = (Returns (Some (errorString "at the beginning")), p, w).
Proof.
  intros Hlen Hrep Hcur. unfold PreviousTrack; simpl.
  destruct (Z.eqb_spec (len (FilteredTracks p)) 0) as [|_]; [lia|].
  rewrite Hcur, wrap64_id by lia. simpl. rewrite Hrep, <- Hcur.
  by rewrite set_CurrentTrack_twice, set_CurrentTrack_same.
Qed.

Lemma PreviousTrack_at_start_witness :
  PreviousTrack Demo.env Demo.player1 Demo.world1
  = (Returns (Some (errorString "at the beginning")), Demo.player1, Demo.world1).
Proof.
  apply (PreviousTrack_at_start Demo.env Demo.player1 Demo.world1).
  - vm_compute. reflexivity.
  - vm_compute. reflexivity.
  - vm_compute. reflexivity.
Defined.

(** X2: at the last index of a non-empty view with Repeat on,
    [NextTrack()] is [Play()] with the index set to 0, and the index is 0
    afterwards whether or not the track could be loaded. *)
Theorem NextTrack_wraps (E : Env) (p : Player) (w : World) :
  0 < len (FilteredTracks p) < 2 ^ 63 ->
  Repeat p = true ->
  CurrentTrack p = len (FilteredTracks p) - 1 ->
  NextTrack E p w = Play E (set_CurrentTrack 0 p) w
  /\ CurrentTrack (snd (fst (NextTrack E p w))) = 0.
Proof.
  intros Hlen Hrep Hcur.
  assert (NextTrack E p w = Play E (set_CurrentTrack 0 p) w) as Heq.
  { unfold NextTrack; simpl.
    destruct (Z.eqb_spec (len (FilteredTracks p)) 0) as [|_]; [lia|].
    rewrite Hcur, wrap64_id by lia.
    replace (len (FilteredTracks p) - 1 + 1) with (len (FilteredTracks p)) by lia.
    by rewrite Z.leb_refl, Hrep. }
  split; [done|]. rewrite Heq.
  destruct (Play E (set_CurrentTrack 0 p) w) as [[out p'] w'] eqn:Hplay.
  simpl. apply Play_keeps_index in Hplay; simpl in *; [done|lia].
Qed.

Lemma NextTrack_wraps_witness :
  CurrentTrack
    (snd (fst (NextTrack Demo.env (ToggleRepeat (fst Demo.third))
                 (snd Demo.third))))
  = 0.
Proof.
  apply (NextTrack_wraps Demo.env (ToggleRepeat (fst Demo.third))
           (snd Demo.third)).
  - vm_compute. split; reflexivity.
  - vm_compute. reflexivity.
  - vm_compute. reflexivity.
Defined.

(** X3: at index 0 of a non-empty view with Repeat on, [PreviousTrack()]
    is [Play()] with the index set to the last position, and the index is
    the last position afterwards whether or not the track could be
    loaded. *)
Theorem PreviousTrack_wraps (E : Env) (p : Player) (w : World) :
  0 < len (FilteredTracks p) ->
  Repeat p = true ->
  CurrentTrack p = 0 ->
  PreviousTrack E p w
  = Play E (set_CurrentTrack (len (FilteredTracks p) - 1) p) w
  /\ CurrentTrack (snd (fst (PreviousTrack E p w)))
     = len (FilteredTracks p) - 1.
Proof.
  intros Hlen Hrep Hcur.
  assert (PreviousTrack E p w
          = Play E (set_CurrentTrack (len (FilteredTracks p) - 1) p) w) as Heq.
  { unfold PreviousTrack; simpl.
    destruct (Z.eqb_spec (len (FilteredTracks p)) 0) as [|_]; [lia|].
    rewrite Hcur, wrap64_id by lia. simpl. by rewrite Hrep. }
  split; [done|]. rewrite Heq.
  destruct (Play E (set_CurrentTrack (len (FilteredTracks p) - 1) p) w)
    as [[out p'] w'] eqn:Hplay.
  simpl. apply Play_keeps_index in Hplay; simpl in *; lia.
Qed.

Lemma PreviousTrack_wraps_witness :
  CurrentTrack
    (snd (fst (PreviousTrack Demo.env (ToggleRepeat Demo.player1) Demo.world1)))
  = len (FilteredTracks (ToggleRepeat Demo.player1)) - 1.
Proof.
  apply (PreviousTrack_wraps Demo.env (ToggleRepeat Demo.player1) Demo.world1).
  - vm_compute. reflexivity.
  - vm_compute. reflexivity.
  - vm_compute. reflexivity.
Defined.

(** X4: away from the end of the view, [NextTrack()] followed by
    [PreviousTrack()] brings the index back to where it was, whatever the
    two [Play()] calls inside did and whatever Repeat says. *)
Theorem NextTrack_PreviousTrack_index (E : Env) (p : Player) (w : World)
    r1 p1 w1 r2 p2 w2 :
  0 <= CurrentTrack p ->
  CurrentTrack p + 1 < len (FilteredTracks p) ->
  len (FilteredTracks p) < 2 ^ 63 ->
  NextTrack E p w = (r1, p1, w1) ->
  PreviousTrack E p1 w1 = (r2, p2, w2) ->
  CurrentTrack p1 = CurrentTrack p + 1 /\ CurrentTrack p2 = CurrentTrack p.
Proof.
  intros Hge Hlt Hint Hnext Hprev.
  assert (CurrentTrack p1 = CurrentTrack p + 1
          /\ FilteredTracks p1 = FilteredTracks p) as [H1 HF].
  { revert Hnext. unfold NextTrack; simpl.
    destruct (Z.eqb_spec (len (FilteredTracks p)) 0) as [|_]; [lia|].
    rewrite wrap64_id by lia.
    destruct (Z.leb_spec (len (FilteredTracks p)) (CurrentTrack p + 1)); [lia|].
    intros Hplay. split.
    - apply Play_keeps_index in Hplay; simpl in *; lia.
    - by apply Play_index_below in Hplay as [-> _]. }
  split; [done|].
  revert Hprev. unfold PreviousTrack; simpl. rewrite HF, H1.
  destruct (Z.eqb_spec (len (FilteredTracks p)) 0) as [|_]; [lia|].
  rewrite wrap64_id by lia.
  destruct (Z.ltb_spec (CurrentTrack p + 1 - 1) 0); [lia|].
  intros Hplay.
  apply Play_keeps_index in Hplay; simpl in *; [lia|rewrite HF; lia].
Qed.

Lemma NextTrack_PreviousTrack_index_witness :
  exists r1 p1 w1 r2 p2 w2,
    NextTrack Demo.env Demo.player1 Demo.world1 = (r1, p1, w1)
    /\ PreviousTrack Demo.env p1 w1 = (r2, p2, w2)
    /\ CurrentTrack p1 = CurrentTrack Demo.player1 + 1
    /\ CurrentTrack p2 = CurrentTrack Demo.player1.
Proof.
  destruct (NextTrack Demo.env Demo.player1 Demo.world1)
    as [[r1 p1] w1] eqn:Hnext.
  destruct (PreviousTrack Demo.env p1 w1) as [[r2 p2] w2] eqn:Hprev.
  exists r1, p1, w1, r2, p2, w2.
  split; [reflexivity|]. split; [exact Hprev|].
  apply (NextTrack_PreviousTrack_index Demo.env Demo.player1 Demo.world1
           r1 p1 w1 r2 p2 w2).
  - vm_compute. discriminate.
  - vm_compute. reflexivity.
  - vm_compute. reflexivity.
  - exact Hnext.
  - exact Hprev.
Defined.

(** ** Pause and Resume *)

Lemma set_Paused_twice (c : nat) (a b : bool) (w : World) :
  set_Paused c a (set_Paused c b w) = set_Paused c a w.
Proof.
  unfold set_Paused, set_ctrls; simpl. f_equal. apply list_eq. intros i.
  rewrite !list_lookup_alter. repeat case_decide; try done.
  by destruct (ctrls w !! c).
Qed.

Lemma set_Paused_same (c : nat) (o : beep_Ctrl) (w : World) :
  ctrls w !! c = Some o -> set_Paused c (Ctrl_Paused o) w = w.
Proof.
  intros Ho. unfold set_Paused, set_ctrls.
  destruct w as [ar cs sp de]; simpl in *.
  f_equal. apply list_eq. intros i. rewrite list_lookup_alter.
  case_decide; [|done]. subst i. rewrite Ho. by destruct o.
Qed.

(** X5: [Pause()] then [Resume()] on a player that is playing brings the
    player and its control back exactly; a second [Pause()] changes
    nothing; and [Pause()] on a player that is not [Playing] does
    nothing at all. *)
Theorem Pause_Resume (p : Player) (w : World) (c : nat) (o : beep_Ctrl) :
  State p = Playing ->
  Ctrl p = Some c ->
  ctrls w !! c = Some o ->
  Ctrl_Paused o = false ->
  Resume (fst (Pause p w)) (snd (Pause p w)) = (p, w)
  /\ Pause (fst (Pause p w)) (snd (Pause p w)) = Pause p w
  /\ State (fst (Pause p w)) = Paused
  /\ Ctrl_Paused <$> ctrls (snd (Pause p w)) !! c = Some true
  /\ forall q, State q <> Playing -> Pause q w = (q, w).
Proof.
  intros HSt HCtrl Ho Hrun. unfold Pause, Resume. rewrite HCtrl, HSt. simpl.
  rewrite HCtrl. simpl. split_and!.
  - rewrite set_Paused_twice, <- Hrun, set_Paused_same by done.
    rewrite <- HSt. by destruct p.
  - done.
  - done.
  - pose proof (set_Paused_lookup c true w) as Hl. rewrite Ho in Hl.
    exact Hl.
  - intros q Hq. destruct (Ctrl q); [|done].
    by rewrite bool_decide_eq_false_2.
Qed.

Lemma Pause_Resume_witness :
  Resume (fst (Pause Demo.player1 Demo.world1))
    (snd (Pause Demo.player1 Demo.world1))
  = (Demo.player1, Demo.world1).
Proof.
  refine (proj1 (Pause_Resume Demo.player1 Demo.world1 0%nat
                   {| Ctrl_Streamer := ResampleRatio 4 Demo.stream;
                      Ctrl_Paused := false |} _ _ _ _));
    vm_compute; reflexivity.
Defined.

(** ** An empty view *)

(** X6: while the view is empty, [Play()], [NextTrack()] and
    [PreviousTrack()], in any number and order, return their "no songs"
    errors and leave the player and the store exactly as they are, and
    [GetCurrentTrack()] answers nil. *)
Theorem empty_view_refuses (E : Env) (ops : list Op) (p : Player) (w : World) :
  len (FilteredTracks p) = 0 ->
  Forall (λ op, op = OpPlay \/ op = OpNextTrack \/ op = OpPreviousTrack) ops ->
  run E ops p w = (p, w)
  /\ Play E p w = (Returns (Some (errorString "no songs found")), p, w)
  /\ NextTrack E p w = (Returns (Some (errorString "no songs")), p, w)
  /\ PreviousTrack E p w = (Returns (Some (errorString "no songs")), p, w)
  /\ GetCurrentTrack p = Returns None.
Proof.
  intros Hlen Hops.
  assert (Play E p w = (Returns (Some (errorString "no songs found")), p, w))
    as HPlay by (unfold Play; by rewrite Hlen).
  assert (NextTrack E p w = (Returns (Some (errorString "no songs")), p, w))
    as HNext by (unfold NextTrack; by rewrite Hlen).
  assert (PreviousTrack E p w = (Returns (Some (errorString "no songs")), p, w))
    as HPrev by (unfold PreviousTrack; by rewrite Hlen).
  split_and!; try done.
  - induction Hops as [|op ops [->|[->| ->]] _ IH]; simpl;
      rewrite ?HPlay, ?HNext, ?HPrev; done.
  - unfold GetCurrentTrack. by rewrite Hlen.
Qed.

Lemma empty_view_refuses_witness :
  run Demo.env [OpNextTrack; OpPlay; OpPreviousTrack]
    (fst (Search Demo.env "zz" Demo.player1 Demo.world1))
    (snd (Search Demo.env "zz" Demo.player1 Demo.world1))
  = (fst (Search Demo.env "zz" Demo.player1 Demo.world1),
     snd (Search Demo.env "zz" Demo.player1 Demo.world1)).
Proof.
  refine (proj1 (empty_view_refuses Demo.env
                   [OpNextTrack; OpPlay; OpPreviousTrack]
                   (fst (Search Demo.env "zz" Demo.player1 Demo.world1))
                   (snd (Search Demo.env "zz" Demo.player1 Demo.world1)) _ _)).
  - vm_compute. reflexivity.
  - repeat first [apply Forall_nil_2 | apply Forall_cons_2; [auto|]].
Defined.

(** ** The track under the index *)

(** X7: when [GetCurrentTrack()] answers a track, it is the element of the
    view under the index, in the view's own backing array, and it is the
    track a [Play()] made now is about: that [Play()] keeps the index and
    decodes either nothing or the path of exactly that track. *)
Theorem GetCurrentTrack_is_played (E : Env) (p : Player) (w : World)
    (a i : nat) :
  GetCurrentTrack p = Returns (Some (a, i)) ->
  a = s_ptr (FilteredTracks p)
  /\ Z.of_nat i = CurrentTrack p
  /\ (i < s_len (FilteredTracks p))%nat
  /\ index w (FilteredTracks p) (CurrentTrack p)
     = Returns (elem_at w (FilteredTracks p) i)
  /\ forall out p' w',
       Play E p w = (out, p', w') ->
       CurrentTrack p' = CurrentTrack p
       /\ (decoded w' = decoded w
           \/ decoded w'
              = decoded w ++ [Track.Path (elem_at w (FilteredTracks p) i)]).
Proof.
  unfold GetCurrentTrack. intros Hget.
  destruct (Z.eqb_spec (len (FilteredTracks p)) 0) as [|Hnz]; [done|].
  destruct (Z.leb_spec (len (FilteredTracks p)) (CurrentTrack p)) as [|Hlt];
    [done|].
  destruct (Z.ltb_spec (CurrentTrack p) 0) as [|Hge]; [done|].
  simpl in Hget. injection Hget as <- <-.
  split_and!; [done|lia|unfold len in Hlt; lia| |].
  - unfold index.
    destruct (Z.leb_spec 0 (CurrentTrack p)); [|lia].
    by destruct (Z.ltb_spec (CurrentTrack p) (len (FilteredTracks p))); [|lia].
  - intros out p' w' Hplay.
    pose proof (Play_keeps_index _ _ _ _ _ _ Hplay Hlt) as Hkeep.
    split; [done|].
    apply Play_decoded in Hplay. by rewrite Hkeep in Hplay.
Qed.

Lemma GetCurrentTrack_is_played_witness :
  index (snd Demo.second) (FilteredTracks (fst Demo.second))
    (CurrentTrack (fst Demo.second))
  = Returns (elem_at (snd Demo.second) (FilteredTracks (fst Demo.second)) 1).
Proof.
  refine (proj1 (proj2 (proj2 (proj2
            (GetCurrentTrack_is_played Demo.env (fst Demo.second)
               (snd Demo.second) 3 1 _))))).
  vm_compute. reflexivity.
Defined.

(** ** Position and length *)

(** X8: with a stream loaded whose format has a positive sample rate, and
    while the sample counts times 10^9 fit an int64, [GetPosition()] and
    [GetLength()] return the counts converted to nanoseconds, rounded
    down, and the position is between 0 and the length. *)
Theorem GetPosition_le_GetLength (p : Player) (s : StreamSeeker) :
  Streamer p = Some s ->
  0 < SampleRate (Format p) ->
  0 <= Position s <= Len s ->
  1000000000 * Len s < 2 ^ 63 ->
  GetPosition p = Returns (1000000000 * Position s / SampleRate (Format p))
  /\ GetLength p = Returns (1000000000 * Len s / SampleRate (Format p))
  /\ 0 <= 1000000000 * Position s / SampleRate (Format p)
       <= 1000000000 * Len s / SampleRate (Format p).
Proof.
  intros HS Hsr Hpos Hfit. unfold GetPosition, GetLength, SampleRate_D.
  rewrite HS. destruct (Z.eqb_spec (SampleRate (Format p)) 0) as [|_]; [lia|].
  assert (forall n, 0 <= n -> 1000000000 * n < 2 ^ 63 ->
            wrap64 (Z.quot (wrap64 (1000000000 * n)) (SampleRate (Format p)))
            = 1000000000 * n / SampleRate (Format p)) as Hconv.
  { intros n Hn Hf. rewrite (wrap64_id (1000000000 * n)) by lia.
    rewrite Z.quot_div_nonneg by lia.
    apply wrap64_id. split.
    - pose proof (Z.div_pos (1000000000 * n) (SampleRate (Format p))). lia.
    - apply Z.le_lt_trans with (1000000000 * n); [|lia].
      apply Z.div_le_upper_bound; nia. }
  rewrite !Hconv by lia. split_and!; try done.
  - apply Z.div_pos; lia.
  - apply Z.div_le_mono; lia.
Qed.

Lemma GetPosition_le_GetLength_witness :
  GetLength Demo.player1 = Returns (1000000000 * 441000 / 44100).
Proof.
  refine (proj1 (proj2 (GetPosition_le_GetLength Demo.player1 Demo.stream
                          _ _ _ _))).
  - vm_compute. reflexivity.
  - vm_compute. reflexivity.
  - vm_compute. split; discriminate.
  - vm_compute. reflexivity.
Defined.

(** The other edge of the conversion: a loaded stream whose format has
    sample rate 0 makes both queries panic on the division. *)
Example GetPosition_zero_rate :
  GetPosition (set_Format {| SampleRate := 0; NumChannels := 2; Precision := 2 |}
                 Demo.player1)
  = Panics "runtime error: integer divide by zero".
Proof. vm_compute. reflexivity. Qed.

(** ** The Shuffle flag *)

Lemma Play_Shuffle (E : Env) (b : bool) (p : Player) (w : World) :
  Play E (set_Shuffle b p) w
  = (fst (fst (Play E p w)), set_Shuffle b (snd (fst (Play E p w))),
     snd (Play E p w)).
Proof.
  unfold Play. simpl.
  destruct (len (FilteredTracks p) =? 0); [done|].
  destruct (len (FilteredTracks p) <=? CurrentTrack p); simpl;
    (destruct (bool_decide (State p = Paused) && bool_decide (Streamer p ≠ None)
               && (LoadedTrack p =? _));
     [by destruct (Ctrl p)|]);
    (destruct (bool_decide (State p = Playing) && bool_decide (Streamer p ≠ None)
               && (LoadedTrack p =? _)); [done|]);
    (destruct (index w (FilteredTracks p) _); [|done]);
    (destruct (loadTrack E (Track.Path a)) as [[? ?]|?]);
    by destruct (Ctrl p).
Qed.

Lemma search_loop_Shuffle (E : Env) (query : string) (tracks : slice)
    (i n : nat) (b : bool) (p : Player) (w : World) :
  search_loop E query tracks i n (set_Shuffle b p) w
  = (set_Shuffle b (fst (search_loop E query tracks i n p w)),
     snd (search_loop E query tracks i n p w)).
Proof.
  revert i p w. induction n as [|n IH]; intros i p w; simpl; [done|].
  destruct (matches E query (elem_at w tracks i)); [|apply IH].
  destruct (append E (FilteredTracks p) (elem_at w tracks i) w) as [s w1].
  apply (IH (S i) (set_FilteredTracks s p) w1).
Qed.

Lemma NextTrack_Shuffle (E : Env) (b : bool) (p : Player) (w : World) :
  NextTrack E (set_Shuffle b p) w
  = (fst (fst (NextTrack E p w)), set_Shuffle b (snd (fst (NextTrack E p w))),
     snd (NextTrack E p w)).
Proof.
  unfold NextTrack. simpl.
  destruct (len (FilteredTracks p) =? 0); [done|].
  destruct (len (FilteredTracks p) <=? wrap64 (CurrentTrack p + 1)).
  - destruct (Repeat p); [|done].
    apply (Play_Shuffle E b
             (set_CurrentTrack 0
                (set_CurrentTrack (wrap64 (CurrentTrack p + 1)) p)) w).
  - apply (Play_Shuffle E b
             (set_CurrentTrack (wrap64 (CurrentTrack p + 1)) p) w).
Qed.

Lemma PreviousTrack_Shuffle (E : Env) (b : bool) (p : Player) (w : World) :
  PreviousTrack E (set_Shuffle b p) w
  = (fst (fst (PreviousTrack E p w)),
     set_Shuffle b (snd (fst (PreviousTrack E p w))),
     snd (PreviousTrack E p w)).
Proof.
  unfold PreviousTrack. simpl.
  destruct (len (FilteredTracks p) =? 0); [done|].
  destruct (wrap64 (CurrentTrack p - 1) <? 0).
  - destruct (Repeat p); [|done].
    apply (Play_Shuffle E b
             (set_CurrentTrack (len (FilteredTracks p) - 1)
                (set_CurrentTrack (wrap64 (CurrentTrack p - 1)) p)) w).
  - apply (Play_Shuffle E b
             (set_CurrentTrack (wrap64 (CurrentTrack p - 1)) p) w).
Qed.

Lemma step_Shuffle (E : Env) (op : Op) (b : bool) (p : Player) (w : World) :
  exists b',
    step E op (set_Shuffle b p) w
    = (set_Shuffle b' (fst (step E op p w)), snd (step E op p w)).
Proof.
  destruct op; cbn [step].
  - exists b. rewrite Play_Shuffle. by destruct (Play E p w) as [[? ?] ?].
  - exists b. unfold Pause; simpl. by repeat case_match.
  - exists b. unfold Resume; simpl. by repeat case_match.
  - by exists b.
  - exists b. rewrite NextTrack_Shuffle.
    by destruct (NextTrack E p w) as [[? ?] ?].
  - exists b. rewrite PreviousTrack_Shuffle.
    by destruct (PreviousTrack E p w) as [[? ?] ?].
  - by exists b.
  - by exists (negb b).
  - exists b. unfold Search; simpl. case_bool_decide; [done|].
    apply (search_loop_Shuffle E (ToLower E query) (Tracks p) 0
             (s_len (Tracks p)) b
             (set_FilteredTracks nil_slice (set_SearchQuery query p)) w).
Qed.

(** X9: the Shuffle flag has no effect: whatever operations are run, the
    store, the view, the index, the transport state and every other field
    of the player come out the same whether Shuffle was on or off at the
    start; only the flag itself differs. *)
Theorem Shuffle_is_inert (E : Env) (ops : list Op) (b : bool) (p : Player)
    (w : World) :
  set_Shuffle false (fst (run E ops (set_Shuffle b p) w))
  = set_Shuffle false (fst (run E ops p w))
  /\ snd (run E ops (set_Shuffle b p) w) = snd (run E ops p w).
Proof.
  revert b p w. induction ops as [|op ops IH]; intros b p w; [done|].
  cbn [run]. destruct (step_Shuffle E op b p w) as [b' ->].
  destruct (step E op p w) as [p1 w1]. simpl. apply IH.
Qed.

(** ** The loaded index after a search *)

(** X10: [Play()] tells "the same song" by the index alone.  While a track
    plays that was loaded at index [i], and after any [Search] that leaves
    more than [i] tracks in the view, [Play()] at index [i] returns nil and
    changes nothing: it neither decodes nor starts the track now under
    the index. *)
Theorem Play_after_Search_same_index (E : Env) (q : string) (p : Player)
    (w : World) :
  State p = Playing ->
  Streamer p <> None ->
  LoadedTrack p = CurrentTrack p ->
  0 <= CurrentTrack p < len (FilteredTracks (fst (Search E q p w))) ->
  Play E (fst (Search E q p w)) (snd (Search E q p w))
  = (Returns None, fst (Search E q p w), snd (Search E q p w)).
Proof.
  intros HSt HStr HLd Hidx.
  pose proof (Search_player E q p w) as Hp.
  set (p' := fst (Search E q p w)) in *. set (w' := snd (Search E q p w)).
  assert (State p' = Playing /\ Streamer p' <> None
          /\ LoadedTrack p' = CurrentTrack p'
          /\ CurrentTrack p' = CurrentTrack p) as (HSt' & HStr' & HLd' & HC').
  { rewrite Hp. simpl. done. }
  clearbody p' w'. unfold Play.
  destruct (Z.eqb_spec (len (FilteredTracks p')) 0) as [|_]; [lia|].
  destruct (Z.leb_spec (len (FilteredTracks p')) (CurrentTrack p')) as [|_];
    [lia|].
  rewrite HSt', HLd', Z.eqb_refl. simpl.
  by rewrite bool_decide_eq_true_2.
Qed.

Lemma Play_after_Search_same_index_witness :
  Play Demo.env (fst (Search Demo.env "loose" Demo.player1 Demo.world1))
    (snd (Search Demo.env "loose" Demo.player1 Demo.world1))
  = (Returns None, fst (Search Demo.env "loose" Demo.player1 Demo.world1),
     snd (Search Demo.env "loose" Demo.player1 Demo.world1)).
Proof.
  apply (Play_after_Search_same_index Demo.env "loose" Demo.player1 Demo.world1).
  - vm_compute. reflexivity.
  - vm_compute. discriminate.
  - vm_compute. reflexivity.
  - vm_compute. split; [discriminate|reflexivity].
Defined.

(** In the demo library: [Song1.mp3] plays, the search leaves [loose.mp3]
    alone in the view, and [Play()] on it keeps playing [Song1.mp3]. *)
Example Play_after_Search_demo :
  let p := fst (Search Demo.env "loose" Demo.player1 Demo.world1) in
  let w := snd (Search Demo.env "loose" Demo.player1 Demo.world1) in
  elems w (FilteredTracks p) = [Demo.loose]
  /\ GetCurrentTrack p = Returns (Some (s_ptr (FilteredTracks p), 0%nat))
  /\ decoded (snd (Play Demo.env p w)) = [Track.Path Demo.Song1].
Proof. vm_compute. split_and!; reflexivity. Qed.

(** * What the speaker is given *)

Lemma all_paused_quiet (p : Player) (w : World) : all_paused w -> quiet p w.
Proof.
  intros Hall c o Hc Ho. unfold all_paused in Hall.
  rewrite Forall_lookup in Hall. specialize (Hall c o Hc). congruence.
Qed.

Lemma quiet_ext (p : Player) (w : World) (p' : Player) (w' : World) :
  quiet p w -> Ctrl p' = Ctrl p -> State p' = State p -> ctrls w' = ctrls w ->
  quiet p' w'.
Proof. intros Hq HC HS Hc c o. rewrite HC, HS, Hc. apply Hq. Qed.

(** The statement [if p.Ctrl != nil { p.Ctrl.Paused = true }] of [Play] and
    [Stop] silences a quiet player. *)
Lemma quiet_pause_own (p : Player) (w : World) :
  quiet p w ->
  all_paused (match Ctrl p with Some c => set_Paused c true w | None => w end).
Proof.
  intros Hq. unfold all_paused. apply Forall_lookup. intros i o Hi.
  destruct (Ctrl p) as [c|] eqn:HC.
  - unfold set_Paused in Hi; simpl in Hi. rewrite list_lookup_alter in Hi.
    case_decide as Hic.
    + subst i. destruct (ctrls w !! c); simplify_eq/=. done.
    + destruct (Ctrl_Paused o) eqn:Ho; [done|].
      destruct (Hq i o Hi Ho) as [? _]. congruence.
  - destruct (Ctrl_Paused o) eqn:Ho; [done|].
    destruct (Hq i o Hi Ho) as [? _]. congruence.
Qed.

Lemma quiet_unpause_own (p : Player) (w : World) (c : nat) :
  quiet p w -> Ctrl p = Some c ->
  quiet (set_State Playing p) (set_Paused c false w).
Proof.
  intros Hq HC i o Hi Ho. simpl. split; [|done].
  unfold set_Paused in Hi; simpl in Hi. rewrite list_lookup_alter in Hi.
  case_decide as Hic; [by subst|].
  destruct (Hq i o Hi Ho) as [? _]. congruence.
Qed.

Lemma quiet_new_Ctrl (p : Player) (w : World) (o : beep_Ctrl) :
  all_paused w ->
  State p = Playing -> Ctrl p = Some (length (ctrls w)) ->
  quiet p (set_ctrls (ctrls w ++ [o]) w).
Proof.
  intros Hall HS HC i o' Hi Ho. split; [|done]. simpl in Hi.
  destruct (decide (i < length (ctrls w))%nat) as [Hlt|Hge].
  - rewrite lookup_app_l in Hi by done. unfold all_paused in Hall.
    rewrite Forall_lookup in Hall. specialize (Hall i o' Hi). congruence.
  - apply lookup_lt_Some in Hi. rewrite length_app in Hi. simpl in Hi.
    rewrite HC. f_equal. lia.
Qed.

Lemma Play_quiet (E : Env) (p : Player) (w : World) out p' w' :
  quiet p w -> Play E p w = (out, p', w') -> quiet p' w'.
Proof.
  intros Hq. unfold Play.
  destruct (len (FilteredTracks p) =? 0); [by intros [= <- <- <-]|].
  set (p0 := if len (FilteredTracks p) <=? CurrentTrack p
             then set_CurrentTrack 0 p else p).
  assert (Ctrl p0 = Ctrl p /\ State p0 = State p) as [HC HS]
    by (unfold p0; by case_match).
  assert (quiet p0 w) as Hq0 by (by apply (quiet_ext p w)).
  clearbody p0.
  destruct (bool_decide (State p0 = Paused) && bool_decide (Streamer p0 ≠ None)
            && (LoadedTrack p0 =? CurrentTrack p0)).
  { destruct (Ctrl p0) as [c|] eqn:HC0; intros [= <- <- <-]; [|done].
    by apply quiet_unpause_own. }
  destruct (bool_decide (State p0 = Playing) && bool_decide (Streamer p0 ≠ None)
            && (LoadedTrack p0 =? CurrentTrack p0)); [by intros [= <- <- <-]|].
  destruct (index w (FilteredTracks p0) (CurrentTrack p0)) as [track|msg];
    [|by intros [= <- <- <-]].
  pose proof (quiet_pause_own p0 w Hq0) as Hall.
  set (w1 := match Ctrl p0 with Some c => set_Paused c true w | None => w end)
    in *. clearbody w1.
  destruct (loadTrack E (Track.Path track)) as [[streamer format]|err].
  - unfold new_Ctrl, speaker_Play. simpl. intros [= <- <- <-].
    apply (quiet_ext
             (set_State Playing (set_Ctrl (Some (length (ctrls w1))) p0))
             (set_ctrls (ctrls w1 ++ [{| Ctrl_Streamer := ResampleRatio 4 streamer;
                                         Ctrl_Paused := false |}]) w1));
      [|done|done|done].
    by apply quiet_new_Ctrl.
  - intros [= <- <- <-]. by apply all_paused_quiet.
Qed.

Lemma step_quiet (E : Env) (op : Op) (p : Player) (w : World) :
  quiet p w -> quiet (fst (step E op p w)) (snd (step E op p w)).
Proof.
  intros Hq. destruct op; cbn [step].
  - destruct (Play E p w) as [[out p'] w'] eqn:H. by apply Play_quiet in H.
  - unfold Pause. destruct (Ctrl p) as [c|] eqn:HC; [|done].
    case_bool_decide; [|done]. simpl. apply all_paused_quiet.
    pose proof (quiet_pause_own p w Hq) as Hall. by rewrite HC in Hall.
  - unfold Resume. destruct (Ctrl p) as [c|] eqn:HC; [|done].
    case_bool_decide; [|done]. by apply quiet_unpause_own.
  - unfold Stop. simpl. apply all_paused_quiet. by apply quiet_pause_own.
  - unfold NextTrack.
    destruct (len (FilteredTracks p) =? 0); [done|]. simpl.
    destruct (len (FilteredTracks p) <=? wrap64 (CurrentTrack p + 1)).
    + destruct (Repeat p); [|by apply (quiet_ext p w)].
      destruct (Play E _ w) as [[out p'] w'] eqn:H.
      apply Play_quiet in H; [done|]. by apply (quiet_ext p w).
    + destruct (Play E _ w) as [[out p'] w'] eqn:H.
      apply Play_quiet in H; [done|]. by apply (quiet_ext p w).
  - unfold PreviousTrack.
    destruct (len (FilteredTracks p) =? 0); [done|]. simpl.
    destruct (wrap64 (CurrentTrack p - 1) <? 0).
    + destruct (Repeat p); [|by apply (quiet_ext p w)].
      destruct (Play E _ w) as [[out p'] w'] eqn:H.
      apply Play_quiet in H; [done|]. by apply (quiet_ext p w).
    + destruct (Play E _ w) as [[out p'] w'] eqn:H.
      apply Play_quiet in H; [done|]. by apply (quiet_ext p w).
  - by apply (quiet_ext p w).
  - by apply (quiet_ext p w).
  - pose proof (Search_player E query p w) as Hp.
    unfold Search in *. case_bool_decide; [by apply (quiet_ext p w)|].
    simpl in *.
    assert (ctrls (snd (search_loop E (ToLower E query) (Tracks p) 0
                          (s_len (Tracks p))
                          (set_FilteredTracks nil_slice
                             (set_SearchQuery query p)) w)) = ctrls w) as Hc.
    { generalize (set_FilteredTracks nil_slice (set_SearchQuery query p)).
      generalize 0%nat. generalize (s_len (Tracks p)). clear.
      intros n. revert w. induction n as [|n IH]; intros w i p0; simpl; [done|].
      destruct (matches E _ _); [|apply IH].
      destruct (append E (FilteredTracks p0) _ w) as [s w1] eqn:Happ.
      rewrite IH. unfold append in Happ. by case_match; simplify_eq. }
    apply (quiet_ext p w); [done|by rewrite Hp|by rewrite Hp|done].
Qed.

(** X11: at most one stream is audible.  If every control other than the
    player's own is paused, and the player's own runs only while the State
    is [Playing], then the same holds after any sequence of operations,
    whatever the decoders answer: [Play()] pauses the control it replaces,
    and a control that is no longer the player's is never resumed. *)
Theorem quiet_run (E : Env) (ops : list Op) (p : Player) (w : World) :
  quiet p w -> quiet (fst (run E ops p w)) (snd (run E ops p w)).
Proof.
  revert p w. induction ops as [|op ops IH]; intros p w Hq; [done|].
  simpl. pose proof (step_quiet E op p w Hq) as Hq1.
  destruct (step E op p w) as [p1 w1]. by apply IH.
Qed.

Lemma quiet_run_witness :
  quiet (fst (run Demo.env [OpNextTrack; OpPause; OpPreviousTrack; OpResume]
                Demo.player1 Demo.world1))
    (snd (run Demo.env [OpNextTrack; OpPause; OpPreviousTrack; OpResume]
            Demo.player1 Demo.world1)).
Proof.
  apply (quiet_run Demo.env [OpNextTrack; OpPause; OpPreviousTrack; OpResume]
           Demo.player1 Demo.world1).
  intros c o. vm_compute.
  destruct c as [|[|c]]; intros H; [|discriminate H|discriminate H].
  intros _. split; reflexivity.
Defined.

Lemma step_speaker (E : Env) (op : Op) (p : Player) (w : World) :
  speaker w = seq 0 (length (ctrls w)) ->
  speaker (snd (step E op p w)) = seq 0 (length (ctrls (snd (step E op p w))))
  /\ speaker w `prefix_of` speaker (snd (step E op p w)).
Proof.
  intros Hs.
  assert (forall p0 out p' w',
            Play E p0 w = (out, p', w') ->
            speaker w' = seq 0 (length (ctrls w'))
            /\ speaker w `prefix_of` speaker w') as HPlay.
  { intros p0 out p' w'. unfold Play, new_Ctrl, speaker_Play.
    repeat case_match; intros; simplify_eq/=;
      rewrite ?length_app, ?length_alter; simpl; rewrite ?length_alter;
      try (split; [done|reflexivity]).
    all: split; [|by apply prefix_app_r].
    all: by rewrite Nat.add_1_r, seq_S, Hs. }
  destruct op; cbn [step].
  - destruct (Play E p w) as [[out p'] w'] eqn:H. by apply HPlay in H.
  - unfold Pause. repeat case_match; simpl; rewrite ?length_alter; done.
  - unfold Resume. repeat case_match; simpl; rewrite ?length_alter; done.
  - unfold Stop. repeat case_match; simpl; rewrite ?length_alter; done.
  - unfold NextTrack. destruct (len (FilteredTracks p) =? 0); [done|]. simpl.
    destruct (len (FilteredTracks p) <=? wrap64 (CurrentTrack p + 1));
      [destruct (Repeat p); [|done]|];
      destruct (Play E _ w) as [[out p'] w'] eqn:H; by apply HPlay in H.
  - unfold PreviousTrack. destruct (len (FilteredTracks p) =? 0); [done|].
    simpl.
    destruct (wrap64 (CurrentTrack p - 1) <? 0);
      [destruct (Repeat p); [|done]|];
      destruct (Play E _ w) as [[out p'] w'] eqn:H; by apply HPlay in H.
  - done.
  - done.
  - assert (forall query tracks n i p0 w0,
              ctrls (snd (search_loop E query tracks i n p0 w0)) = ctrls w0
              /\ speaker (snd (search_loop E query tracks i n p0 w0))
                 = speaker w0) as Hloop.
    { intros query' tracks n. induction n as [|n IH]; intros i p0 w0; simpl;
        [done|].
      destruct (matches E _ _); [|apply IH].
      destruct (append E (FilteredTracks p0) _ w0) as [s w1] eqn:Happ.
      destruct (IH (S i) (set_FilteredTracks s p0) w1) as [-> ->].
      unfold append in Happ. by case_match; simplify_eq. }
    unfold Search. case_bool_decide; [done|].
    destruct (Hloop (ToLower E query) (Tracks (set_FilteredTracks nil_slice
                (set_SearchQuery query p))) (s_len (Tracks p)) 0%nat
                (set_FilteredTracks nil_slice (set_SearchQuery query p)) w)
      as [Hc Hsp].
    simpl in *. by rewrite Hc, Hsp.
Qed.

(** X12: nothing is ever taken back from the speaker.  When the controls
    handed to [speaker.Play] are all the controls made so far, in the order
    they were made, this is still so after any sequence of operations, and
    the list before is a prefix of the list after: every stream that was
    once loaded stays registered with the speaker. *)
Theorem speaker_keeps_every_stream (E : Env) (ops : list Op) (p : Player)
    (w : World) :
  speaker w = seq 0 (length (ctrls w)) ->
  speaker (snd (run E ops p w))
  = seq 0 (length (ctrls (snd (run E ops p w))))
  /\ speaker w `prefix_of` speaker (snd (run E ops p w)).
Proof.
  revert p w. induction ops as [|op ops IH]; intros p w Hs; [done|].
  simpl. destruct (step_speaker E op p w Hs) as [Hs1 Hpre].
  destruct (step E op p w) as [p1 w1]. simpl in *.
  destruct (IH p1 w1 Hs1) as [Hs2 Hpre2]. split; [done|].
  by etrans.
Qed.

Lemma speaker_keeps_every_stream_witness :
  speaker (snd (run Demo.env [OpStop; OpPlay; OpStop] Demo.player1 Demo.world1))
  = seq 0 (length (ctrls (snd (run Demo.env [OpStop; OpPlay; OpStop]
                                 Demo.player1 Demo.world1))))
  /\ speaker Demo.world1
     `prefix_of` speaker (snd (run Demo.env [OpStop; OpPlay; OpStop]
                                 Demo.player1 Demo.world1)).
Proof.
  apply (speaker_keeps_every_stream Demo.env [OpStop; OpPlay; OpStop]
           Demo.player1 Demo.world1).
  vm_compute. reflexivity.
Defined.

Example speaker_after_replay :
  speaker (snd (run Demo.env [OpStop; OpPlay; OpStop] Demo.player1 Demo.world1))
  = [0; 1]%nat.
Proof. vm_compute. reflexivity. Qed.

(** * What [Initialize] and the scan leave in the catalog *)

Section scan_facts.
Import GoStrings GoFilepath.

Lemma leb_ltb (a b : string) : String.ltb b a = false <-> String.leb a b = true.
Proof.
  unfold String.ltb, String.leb. rewrite (String.compare_antisym a b).
  destruct (String.compare b a); simpl; split; congruence.
Qed.

Lemma ltb_leb (a b : string) : String.ltb a b = true -> String.leb a b = true.
Proof. unfold String.ltb, String.leb. by destruct (String.compare a b). Qed.

Lemma leb_trans (a b c : string) :
  String.leb a b = true -> String.leb b c = true -> String.leb a c = true.
Proof.
  unfold String.leb.
  destruct (String.compare a b) eqn:Hab; [| |done];
    destruct (String.compare b c) eqn:Hbc; try done; intros _ _.
  - apply String.compare_eq_iff in Hab as ->. by rewrite Hbc.
  - apply String.compare_eq_iff in Hab as ->. by rewrite Hbc.
  - apply String.compare_eq_iff in Hbc as <-. by rewrite Hab.
  - apply OrderedTypeEx.String_as_OT.cmp_lt in Hab, Hbc.
    pose proof (OrderedTypeEx.String_as_OT.lt_trans _ _ _ Hab Hbc) as Hac.
    apply OrderedTypeEx.String_as_OT.cmp_lt in Hac.
    unfold OrderedTypeEx.String_as_OT.cmp in Hac. by rewrite Hac.
Qed.

Lemma sort_insert_sorted (x : Track.t) (l : list Track.t) :
  StronglySorted path_le l -> StronglySorted path_le (sort_insert x l).
Proof.
  induction 1 as [|y l Hl IH Hy]; simpl.
  { repeat constructor. }
  unfold less. destruct (String.ltb (Track.Path y) (Track.Path x)) eqn:Hyx.
  - constructor; [done|]. rewrite sort_insert_perm.
    constructor; [by apply ltb_leb|done].
  - apply leb_ltb in Hyx. constructor; [by constructor|].
    constructor; [done|].
    eapply Forall_impl; [apply Hy|]. intros z Hz. by eapply leb_trans.
Qed.

Lemma sort_tracks_sorted (l : list Track.t) :
  StronglySorted path_le (sort_tracks l).
Proof.
  induction l as [|x l IH]; simpl; [constructor|]. by apply sort_insert_sorted.
Qed.

Lemma scanned_cons (E : Env) (p : Player) (c : WalkCall)
    (calls : list WalkCall) :
  scanned E p (c :: calls)
  = if music_file E c then scan_track E p (walk_path c) :: scanned E p calls
    else scanned E p calls.
Proof. unfold scanned. simpl. by destruct (music_file E c). Qed.

(** The walk over calls that carry no error appends the tracks of the music
    files among them, in the order of the walk. *)
Lemma scan_walk_pre (E : Env) (pre rest : list WalkCall) (p : Player)
    (w : World) :
  slice_ok w (Tracks p) -> Forall no_walk_error pre ->
  exists s w1,
    scan_walk E (pre ++ rest) p w = scan_walk E rest (set_Tracks s p) w1
    /\ slice_ok w1 s
    /\ elems w1 s = elems w (Tracks p) ++ scanned E p pre
    /\ ctrls w1 = ctrls w /\ speaker w1 = speaker w /\ decoded w1 = decoded w.
Proof.
  intros Hok Hpre. revert p w Hok.
  induction Hpre as [|c pre Hc _ IH]; intros p w Hok.
  { exists (Tracks p), w. split_and!; try done; [by destruct p|].
    by rewrite app_nil_r. }
  rewrite scanned_cons. unfold music_file. simpl.
  unfold no_walk_error in Hc. rewrite Hc.
  destruct (walk_IsDir c); simpl; [by apply IH|].
  destruct (formats (ToLower E (Ext (walk_path c)))); [|by apply IH].
  fold (scan_track E p (walk_path c)).
  destruct (append E (Tracks p) (scan_track E p (walk_path c)) w)
    as [s0 w0] eqn:Happ.
  destruct (append_spec _ _ _ _ _ _ Hok Happ)
    as (Hel & Hok0 & _ & _ & _ & _ & Hc0 & Hs0 & Hd0).
  destruct (IH (set_Tracks s0 p) w0 Hok0)
    as (s & w1 & Hwalk & Hok1 & Hel1 & Hc1 & Hs1 & Hd1).
  exists s, w1. split_and!; try congruence.
  - rewrite Hwalk. done.
  - rewrite Hel1. simpl Tracks. rewrite Hel, <- (assoc_L (++)). done.
Qed.

Lemma strlen_from (n : nat) (s : string) :
  strlen (from n s) = (strlen s - n)%nat.
Proof.
  revert s. induction n as [|n IH]; intros s; simpl; [lia|].
  destruct s; simpl; [done|]. apply IH.
Qed.

Lemma upto_from (n : nat) (s : string) : upto n s +:+ from n s = s.
Proof.
  revert s. induction n as [|n IH]; intros s; simpl; [done|].
  destruct s; simpl; [done|]. by rewrite IH.
Qed.

Lemma from_strlen (s : string) : from (strlen s) s = "".
Proof. induction s; simpl; done. Qed.

Lemma ext_loop_suffix (i : nat) (s : string) :
  exists j, (j <= strlen s)%nat /\ ext_loop i s = from j s.
Proof.
  induction i as [|i IH]; simpl.
  { exists (strlen s). by rewrite from_strlen. }
  destruct (byte_at i s) as [c|] eqn:Hc;
    [|exists (strlen s); by rewrite from_strlen].
  destruct (IsPathSeparator c);
    [exists (strlen s); by rewrite from_strlen|].
  case_bool_decide; [|done].
  destruct (decide (i <= strlen s)%nat); [by exists i|].
  exists (strlen s). rewrite from_strlen. split; [done|].
  assert (forall n t, (strlen t <= n)%nat -> from n t = "") as Hfrom.
  { clear. intros n. induction n as [|n IH]; intros [|a t]; simpl;
      try done; try lia. intros. apply IH. lia. }
  apply Hfrom. lia.
Qed.

(** Cutting the extension off a name and putting it back. *)
Lemma TrimSuffix_Ext (s : string) : TrimSuffix s (Ext s) +:+ Ext s = s.
Proof.
  unfold Ext. destruct (ext_loop_suffix (strlen s) s) as (j & Hj & ->).
  unfold TrimSuffix, HasSuffix. rewrite strlen_from.
  replace (strlen s - (strlen s - j))%nat with j by lia.
  rewrite bool_decide_eq_true_2 by done.
  replace (strlen s - j <=? strlen s)%nat with true
    by (symmetry; apply Nat.leb_le; lia).
  simpl. apply upto_from.
Qed.

End scan_facts.

(** X13: when the walk of the music directory reports no error,
    [Initialize()] returns nil; the catalog then holds exactly the tracks
    made from the entries of the walk that are not directories and whose
    extension, lowercased, is one of the six supported ones, each once per
    entry, ordered by path (byte-wise, ascending); the view is the catalog
    and nothing has been loaded or handed to the speaker. *)
Theorem Initialize_catalog (E : Env) (dir : string) :
  Forall no_walk_error (fs_walk E dir) ->
  exists p w,
    Initialize E (NewPlayer dir) init_World = (None, p, w)
    /\ elems w (Tracks p) ≡ₚ scanned E (NewPlayer dir) (fs_walk E dir)
    /\ StronglySorted path_le (elems w (Tracks p))
    /\ FilteredTracks p = Tracks p
    /\ ctrls w = [] /\ speaker w = [] /\ decoded w = [].
Proof.
  intros Hwalk. unfold Initialize, ScanMusicFiles. simpl MusicDir.
  destruct (scan_walk_pre E (fs_walk E dir) []
              (set_Tracks nil_slice (NewPlayer dir))
              (set_speaker [] init_World))
    as (s & w1 & Hscan & Hok & Hel & Hc & Hs & Hd);
    [split; simpl; lia|done|].
  rewrite app_nil_r in Hscan. rewrite Hscan. simpl.
  destruct (sort_Slice_spec s w1 Hok) as (Hsorted & _ & Hc' & Hs' & Hd').
  eexists _, _. split; [reflexivity|]. simpl.
  change (elems _ nil_slice) with (@nil Track.t) in Hel. simpl in Hel.
  split_and!; try done; try congruence.
  - by rewrite Hsorted, sort_tracks_perm, Hel.
  - rewrite Hsorted. apply sort_tracks_sorted.
Qed.

Lemma Initialize_catalog_witness :
  exists p w,
    Initialize Demo.env (NewPlayer "music") init_World = (None, p, w)
    /\ elems w (Tracks p)
       ≡ₚ scanned Demo.env (NewPlayer "music") (fs_walk Demo.env "music")
    /\ StronglySorted path_le (elems w (Tracks p))
    /\ FilteredTracks p = Tracks p
    /\ ctrls w = [] /\ speaker w = [] /\ decoded w = [].
Proof.
  apply (Initialize_catalog Demo.env "music").
  vm_compute. repeat constructor.
Defined.

(** X14: when the walk hands its callback an error [e], after calls that
    carried none, [Initialize()] returns an error that wraps [e] with the
    text "couldn't find music: " in front of the text of [e].  The view is
    then still empty, and the catalog holds the tracks of the music files
    met before the error, in the order of the walk (they are not sorted);
    what the walk would have visited after the error is not looked at. *)
Theorem Initialize_walk_error (E : Env) (dir : string)
    (pre post : list WalkCall) (c : WalkCall) (e : error) :
  fs_walk E dir = pre ++ c :: post ->
  Forall no_walk_error pre ->
  walk_err c = Some e ->
  exists p w,
    Initialize E (NewPlayer dir) init_World
    = (Some (wrapError ("couldn't find music: " +:+ Error e) e), p, w)
    /\ elems w (Tracks p) = scanned E (NewPlayer dir) pre
    /\ FilteredTracks p = nil_slice
    /\ State p = Stopped.
Proof.
  intros Hwalk Hpre He. unfold Initialize, ScanMusicFiles. simpl MusicDir.
  rewrite Hwalk.
  destruct (scan_walk_pre E pre (c :: post)
              (set_Tracks nil_slice (NewPlayer dir))
              (set_speaker [] init_World))
    as (s & w1 & Hscan & Hok & Hel & Hc & Hs & Hd);
    [split; simpl; lia|done|].
  rewrite Hscan. simpl. rewrite He.
  eexists _, _. split; [reflexivity|]. simpl.
  change (elems _ nil_slice) with (@nil Track.t) in Hel. simpl in Hel.
  done.
Qed.

Lemma Initialize_walk_error_witness :
  exists p w,
    Initialize Demo.locked (NewPlayer "music") init_World
    = (Some (wrapError
               ("couldn't find music: "
                +:+ Error (PathError "open" "music/RootArtistA"
                             (errorString "permission denied")))
               (PathError "open" "music/RootArtistA"
                  (errorString "permission denied"))), p, w)
    /\ elems w (Tracks p)
       = scanned Demo.locked (NewPlayer "music")
           [Demo.dir "music"; Demo.file "music/intro.WAV";
            Demo.dir "music/RootArtistA"]
    /\ FilteredTracks p = nil_slice
    /\ State p = Stopped.
Proof.
  apply (Initialize_walk_error Demo.locked "music"
           [Demo.dir "music"; Demo.file "music/intro.WAV";
            Demo.dir "music/RootArtistA"]
           [Demo.file "music/loose.mp3"]
           (Demo.unreadable "music/RootArtistA")).
  - vm_compute. reflexivity.
  - repeat constructor.
  - reflexivity.
Defined.

Example Initialize_walk_error_demo :
  let '(err, p, w) := Initialize Demo.locked (NewPlayer "music") init_World in
  (Error <$> err, map Track.Path (elems w (Tracks p)),
   map Track.Format (elems w (Tracks p)), len (FilteredTracks p))
  = (Some "couldn't find music: open music/RootArtistA: permission denied",
     ["music/intro.WAV"], [".wav"], 0).
Proof. vm_compute. reflexivity. Qed.

(** X15: [extractMetadata] sets the title to the base name of the path with
    its extension cut off, for every path: title and extension put together
    again give the base name.  The path, the duration and the format of the
    track are left as they were. *)
Theorem extractMetadata_title (p : Player) (track : Track.t) :
  Track.Title (extractMetadata p track)
    +:+ GoFilepath.Ext (GoFilepath.Base (Track.Path track))
  = GoFilepath.Base (Track.Path track)
  /\ Track.Path (extractMetadata p track) = Track.Path track
  /\ Track.Duration (extractMetadata p track) = Track.Duration track
  /\ Track.Format (extractMetadata p track) = Track.Format track.
Proof.
  unfold extractMetadata. cbv zeta.
  repeat case_match; simpl; split_and!; try done; apply TrimSuffix_Ext.
Qed.

(** A name that is nothing but an extension leaves an empty title, and only
    the last extension is cut off. *)
Example extractMetadata_title_edge :
  map (λ path,
         Track.Title
           (extractMetadata (NewPlayer "/m") (Track.mk path "" "" "" 0 "")))
    ["/m/A/B/song.mp3"; "/m/.mp3"; "/m/live.2019.flac"; "/m/noext"]
  = ["song"; ""; "live.2019"; "noext"].
Proof. vm_compute. reflexivity. Qed.

(** * The key handling of [ui.go] *)

Lemma step_view (E : Env) (op : Op) (p : Player) (w : World) :
  (forall q, op <> OpSearch q) ->
  FilteredTracks (fst (step E op p w)) = FilteredTracks p.
Proof.
  intros Hop. destruct op; cbn [step].
  - destruct (Play E p w) as [[out p'] w'] eqn:H. simpl.
    by apply Play_frame in H as [(_ & _ & HF & _) _].
  - by destruct (Pause_frame p w) as [(_ & _ & HF & _) _].
  - by destruct (Resume_frame p w) as [(_ & _ & HF & _) _].
  - by destruct (Stop_frame p w) as [(_ & _ & HF & _) _].
  - destruct (NextTrack E p w) as [[out p'] w'] eqn:H. simpl.
    by apply NextTrack_frame in H as (_ & _ & HF & _).
  - destruct (PreviousTrack E p w) as [[out p'] w'] eqn:H. simpl.
    by apply PreviousTrack_frame in H as (_ & _ & HF & _).
  - done.
  - done.
  - by destruct (Hop query).
Qed.

Lemma step_ui (E : Env) (op : Op) (m : Model) (p : Player) (w : World) :
  (forall q, op <> OpSearch q) -> wf p w -> cursor_ok m p ->
  wf (fst (step E op p w)) (snd (step E op p w))
  /\ cursor_ok m (fst (step E op p w)).
Proof.
  intros Hop Hwf Hcur. split; [by apply wf_step|].
  unfold cursor_ok. by rewrite step_view.
Qed.

Lemma dropped_Play (E : Env) (m : Model) (p : Player) (w : World) :
  (Streamer p <> None -> Ctrl p <> None) -> 0 <= CurrentTrack p ->
  dropped m (Play E p w)
  = (Returns (m, Cmd_nil), fst (step E OpPlay p w), snd (step E OpPlay p w)).
Proof.
  intros HS Hidx. cbn [step].
  destruct (Play_no_panic E p w HS Hidx) as (r & p' & w' & ->). done.
Qed.

Lemma dropped_NextTrack (E : Env) (m : Model) (p : Player) (w : World) :
  wf p w ->
  dropped m (NextTrack E p w)
  = (Returns (m, Cmd_nil), fst (step E OpNextTrack p w),
     snd (step E OpNextTrack p w)).
Proof.
  intros Hwf. cbn [step]. destruct (NextTrack E p w) as [[out p'] w'] eqn:H.
  by destruct (NextTrack_index E p w out p' w' Hwf H) as [_ [r ->]].
Qed.

Lemma dropped_PreviousTrack (E : Env) (m : Model) (p : Player) (w : World) :
  wf p w ->
  dropped m (PreviousTrack E p w)
  = (Returns (m, Cmd_nil), fst (step E OpPreviousTrack p w),
     snd (step E OpPreviousTrack p w)).
Proof.
  intros Hwf. cbn [step].
  destruct (PreviousTrack E p w) as [[out p'] w'] eqn:H.
  by destruct (PreviousTrack_index E p w out p' w' Hwf H) as [_ [r ->]].
Qed.

Lemma wf_set_CurrentTrack (c : Z) (p : Player) (w : World) :
  wf p w -> 0 <= c < len (FilteredTracks p) -> wf (set_CurrentTrack c p) w.
Proof.
  intros [HT HF Hlen Hint Hidx HS HC] Hc. split; try done. simpl. lia.
Qed.

Lemma surjective_step (E : Env) (op : Op) (p : Player) (w : World) :
  step E op p w = (fst (step E op p w), snd (step E op p w)).
Proof. by destruct (step E op p w). Qed.

(** What a key does outside search mode, as one operation of the player. *)
Lemma handleKeyPress_op (E : Env) (key : string) (op : Op) (m : Model)
    (p : Player) (w : World) :
  wf p w -> searchMode m = false -> key_op key p = Some op ->
  handleKeyPress E key m p w
  = (Returns (m, Cmd_nil), fst (step E op p w), snd (step E op p w)).
Proof.
  intros Hwf Hmode Hop. pose proof Hwf as [HT HF Hlen Hint Hidx HS HC].
  unfold handleKeyPress, key_op in *. rewrite Hmode.
  destruct (bool_decide (key = " ")) eqn:Hsp.
  { apply bool_decide_eq_true in Hsp as ->. simpl.
    destruct (State p) eqn:HSt; simplify_eq/=.
    - apply dropped_Play; [done|lia].
    - by destruct (Pause p w).
    - by destruct (Resume p w). }
  apply bool_decide_eq_false in Hsp.
  repeat case_bool_decide; simplify_eq/=.
  - by apply dropped_NextTrack.
  - by apply dropped_PreviousTrack.
  - done.
  - done.
Qed.

Lemma key_op_no_Search (key : string) (p : Player) (op : Op) :
  key_op key p = Some op -> forall q, op <> OpSearch q.
Proof.
  unfold key_op. intros H q ->.
  repeat case_bool_decide; repeat case_match; simplify_eq.
Qed.

Lemma cursor_ok_zero (m : Model) (p : Player) :
  cursor_ok (set_cursor 0 m) p.
Proof.
  unfold cursor_ok. simpl. pose proof (len_nonneg (FilteredTracks p)). lia.
Qed.

Lemma handleKeyPress_ok (E : Env) (key : string) (m : Model) (p : Player)
    (w : World) :
  wf p w -> cursor_ok m p ->
  exists m' c p' w',
    handleKeyPress E key m p w = (Returns (m', c), p', w')
    /\ wf p' w' /\ cursor_ok m' p'.
Proof.
  intros Hwf Hcur. pose proof Hwf as [HT HF Hlen Hint Hidx HS HC].
  pose proof (len_nonneg (FilteredTracks p)) as Hnn.
  destruct (key_op key p) as [op|] eqn:Hop.
  { destruct (searchMode m) eqn:Hmode.
    - (* the key is text *)
      assert (key <> "enter" /\ key <> "esc" /\ key <> "backspace")
        as (? & ? & ?).
      { unfold key_op in Hop. repeat case_bool_decide; by simplify_eq. }
      unfold handleKeyPress, handleSearchInput. rewrite Hmode.
      rewrite !bool_decide_eq_false_2 by done.
      eexists _, _, _, _. split; [reflexivity|]. split; [done|].
      by destruct (strlen key =? 1)%nat.
    - rewrite (handleKeyPress_op E key op) by done.
      eexists _, _, _, _. split; [reflexivity|].
      apply step_ui; [by eapply key_op_no_Search|done|done]. }
  assert (key <> " " /\ key <> "n" /\ key <> "p" /\ key <> "r" /\ key <> "s")
    as (? & ? & ? & ? & ?).
  { unfold key_op in Hop. repeat case_bool_decide; done. }
  clear Hop. unfold handleKeyPress.
  destruct (searchMode m) eqn:Hmode.
  { unfold handleSearchInput. case_bool_decide.
    - pose proof (wf_Search E (searchQuery m) p w Hwf) as Hwf'.
      destruct (Search E (searchQuery m) p w) as [p' w']. simpl in Hwf'.
      eexists _, _, _, _. split; [reflexivity|]. split; [done|].
      apply cursor_ok_zero.
    - destruct (bool_decide (key = "esc")); [by eexists _, _, _, _|].
      destruct (bool_decide (key = "backspace"));
        [destruct (0 <? strlen (searchQuery m))%nat; by eexists _, _, _, _|].
      destruct (strlen key =? 1)%nat; by eexists _, _, _, _. }
  destruct (bool_decide (key = "q") || bool_decide (key = "ctrl+c"));
    [by eexists _, _, _, _|].
  destruct (bool_decide (key = "h")); [by eexists _, _, _, _|].
  destruct (bool_decide (key = "/")); [by eexists _, _, _, _|].
  rewrite !bool_decide_eq_false_2 by done.
  destruct (bool_decide (key = "j") || bool_decide (key = "down")).
  { eexists _, _, _, _. split; [reflexivity|]. split; [done|].
    destruct (Z.ltb_spec (cursor m) (len (FilteredTracks p) - 1)); [|done].
    unfold cursor_ok in *. simpl. rewrite wrap64_id by lia. lia. }
  destruct (bool_decide (key = "k") || bool_decide (key = "up")).
  { eexists _, _, _, _. split; [reflexivity|]. split; [done|].
    destruct (Z.ltb_spec 0 (cursor m)); [|done].
    unfold cursor_ok in *. simpl. rewrite wrap64_id by lia. lia. }
  destruct (bool_decide (key = "g")).
  { eexists _, _, _, _. split; [reflexivity|]. split; [done|].
    apply cursor_ok_zero. }
  destruct (bool_decide (key = "G")).
  { eexists _, _, _, _. split; [reflexivity|]. split; [done|].
    unfold cursor_ok in *. simpl. lia. }
  destruct (bool_decide (key = "enter")); [|by eexists _, _, _, _].
  destruct (Z.ltb_spec 0 (len (FilteredTracks p)));
    destruct (Z.ltb_spec (cursor m) (len (FilteredTracks p))); simpl;
    try by eexists _, _, _, _.
  assert (0 <= cursor m < len (FilteredTracks p)) as Hc
    by (unfold cursor_ok in Hcur; lia).
  rewrite dropped_Play by (done || simpl; lia).
  eexists _, _, _, _. split; [reflexivity|].
  apply step_ui; [done|by apply wf_set_CurrentTrack|done].
Qed.

Lemma Update_ok (E : Env) (msg : Msg) (m : Model) (p : Player) (w : World) :
  wf p w -> cursor_ok m p ->
  exists m' c p' w',
    Update E msg m p w = (Returns (m', c), p', w')
    /\ wf p' w' /\ cursor_ok m' p'.
Proof.
  intros Hwf Hcur. destruct msg as [wd ht|key|]; simpl.
  - by eexists _, _, _, _.
  - by apply handleKeyPress_ok.
  - by eexists _, _, _, _.
Qed.

Lemma updates_ok (E : Env) (msgs : list Msg) (m : Model) (p : Player)
    (w : World) :
  wf p w -> cursor_ok m p ->
  exists m' p' w',
    updates E msgs m p w = (Returns m', p', w')
    /\ wf p' w' /\ cursor_ok m' p'.
Proof.
  revert m p w. induction msgs as [|msg msgs IH]; intros m p w Hwf Hcur; simpl.
  { by eexists _, _, _. }
  destruct (Update_ok E msg m p w Hwf Hcur)
    as (m1 & c & p1 & w1 & -> & Hwf1 & Hcur1).
  by apply IH.
Qed.

(** X16: the key handling never crashes.  After [NewPlayer(dir)], a
    successful [Initialize()] and [NewModel(player)], as in [main], every
    sequence of messages (keys, window sizes, others) is handled by [Update]
    without a panic; all along the player satisfies its invariant and the
    cursor is on a row of the view (or, over an empty view, at 0 or -1). *)
Theorem ui_never_panics (E : Env) (dir : string) (msgs : list Msg)
    (p : Player) (w : World) :
  Z.of_nat (length (fs_walk E dir)) < 2 ^ 63 ->
  Initialize E (NewPlayer dir) init_World = (None, p, w) ->
  exists m' p' w',
    updates E msgs NewModel p w = (Returns m', p', w')
    /\ wf p' w' /\ cursor_ok m' p'.
Proof.
  intros Hwalk Hinit.
  destruct (Initialize_wf E dir p w Hwalk Hinit) as (Hwf & _).
  apply updates_ok; [done|]. apply (cursor_ok_zero NewModel).
Qed.

Lemma ui_never_panics_witness :
  exists m' p' w',
    updates Demo.env
      [KeyMsg "G"; KeyMsg "enter"; KeyMsg "/"; KeyMsg "x"; KeyMsg "enter";
       KeyMsg "G"; KeyMsg "enter"; KeyMsg "k"; KeyMsg " "; KeyMsg "p";
       WindowSizeMsg 80 24; KeyMsg "q"]
      NewModel Demo.player0 Demo.world0
    = (Returns m', p', w')
    /\ wf p' w' /\ cursor_ok m' p'.
Proof.
  apply (ui_never_panics Demo.env "music"
           [KeyMsg "G"; KeyMsg "enter"; KeyMsg "/"; KeyMsg "x"; KeyMsg "enter";
            KeyMsg "G"; KeyMsg "enter"; KeyMsg "k"; KeyMsg " "; KeyMsg "p";
            WindowSizeMsg 80 24; KeyMsg "q"]
           Demo.player0 Demo.world0).
  - vm_compute. reflexivity.
  - vm_compute. reflexivity.
Defined.

(** X17: outside search mode the keys " ", "n", "p", "r" and "s" are one
    operation of the player each: space is [Pause()] while playing,
    [Resume()] while paused and [Play()] while stopped, "n" is
    [NextTrack()], "p" is [PreviousTrack()], "r" and "s" are the two
    toggles.  The model is left as it was, no command is returned, and the
    error the operation may return is dropped.  Every other key but "enter"
    leaves the player and the store as they are. *)
Theorem Update_key_op (E : Env) (key : string) (m : Model) (p : Player)
    (w : World) :
  wf p w -> searchMode m = false ->
  (forall op, key_op key p = Some op ->
     Update E (KeyMsg key) m p w
     = (Returns (m, Cmd_nil), fst (step E op p w), snd (step E op p w)))
  /\ (key_op key p = None -> key <> "enter" ->
      exists m' c, Update E (KeyMsg key) m p w = (Returns (m', c), p, w)).
Proof.
  intros Hwf Hmode. split.
  { intros op Hop. by apply handleKeyPress_op. }
  intros Hop Henter.
  assert (key <> " " /\ key <> "n" /\ key <> "p" /\ key <> "r" /\ key <> "s")
    as (? & ? & ? & ? & ?).
  { unfold key_op in Hop. repeat case_bool_decide; done. }
  simpl. unfold handleKeyPress. rewrite Hmode.
  destruct (bool_decide (key = "q") || bool_decide (key = "ctrl+c"));
    [by eexists _, _|].
  destruct (bool_decide (key = "h")); [by eexists _, _|].
  destruct (bool_decide (key = "/")); [by eexists _, _|].
  rewrite !bool_decide_eq_false_2 by done.
  destruct (bool_decide (key = "j") || bool_decide (key = "down"));
    [by eexists _, _|].
  destruct (bool_decide (key = "k") || bool_decide (key = "up"));
    [by eexists _, _|].
  destruct (bool_decide (key = "g")); [by eexists _, _|].
  rewrite (bool_decide_eq_false_2 (key = "enter")) by done.
  destruct (bool_decide (key = "G")); by eexists _, _.
Qed.

Lemma Update_key_op_witness :
  Update Demo.env (KeyMsg " ") NewModel Demo.player1 Demo.world1
  = (Returns (NewModel, Cmd_nil),
     fst (step Demo.env OpPause Demo.player1 Demo.world1),
     snd (step Demo.env OpPause Demo.player1 Demo.world1)).
Proof.
  refine (proj1 (Update_key_op Demo.env " " NewModel Demo.player1 Demo.world1
                   _ _) OpPause _).
  - wf_by_evaluation.
  - reflexivity.
  - vm_compute. reflexivity.
Defined.

(** X18: in search mode every key but "enter" is kept from the player: the
    player and the store are as before, no command is returned (so "q" and
    "ctrl+c" do not quit and " " does not pause), the cursor and the help
    flag stay.  A key of one byte is appended to the query, and search mode
    is left only by "esc". *)
Theorem search_mode_keys_are_text (E : Env) (key : string) (m : Model)
    (p : Player) (w : World) :
  searchMode m = true ->
  key <> "enter" ->
  exists m',
    Update E (KeyMsg key) m p w = (Returns (m', Cmd_nil), p, w)
    /\ cursor m' = cursor m
    /\ showHelp m' = showHelp m
    /\ (key <> "esc" -> searchMode m' = true)
    /\ (one_byte key -> searchQuery m' = searchQuery m +:+ key).
Proof.
  intros Hmode Henter. simpl. unfold handleKeyPress, handleSearchInput.
  rewrite Hmode. rewrite (bool_decide_eq_false_2 (key = "enter")) by done.
  unfold one_byte.
  destruct (bool_decide (key = "esc")) eqn:Hesc.
  { apply bool_decide_eq_true in Hesc as ->.
    eexists. split; [reflexivity|]. simpl. split_and!; done. }
  destruct (bool_decide (key = "backspace")) eqn:Hback.
  { apply bool_decide_eq_true in Hback as ->.
    eexists. split; [reflexivity|].
    destruct (0 <? strlen (searchQuery m))%nat; simpl; split_and!; done. }
  eexists. split; [reflexivity|].
  destruct (Nat.eqb_spec (strlen key) 1); simpl; split_and!; done.
Qed.

Lemma search_mode_keys_are_text_witness :
  exists m',
    Update Demo.env (KeyMsg "q") (set_searchMode true NewModel)
      Demo.player1 Demo.world1
    = (Returns (m', Cmd_nil), Demo.player1, Demo.world1)
    /\ cursor m' = cursor (set_searchMode true NewModel)
    /\ showHelp m' = showHelp (set_searchMode true NewModel)
    /\ ("q" <> "esc" -> searchMode m' = true)
    /\ (one_byte "q"
        -> searchQuery m' = searchQuery (set_searchMode true NewModel) +:+ "q").
Proof.
  apply (search_mode_keys_are_text Demo.env "q" (set_searchMode true NewModel)
           Demo.player1 Demo.world1).
  - reflexivity.
  - discriminate.
Defined.

Lemma concat_cons (k : string) (ks : list string) :
  String.concat "" (k :: ks) = k +:+ String.concat "" ks.
Proof. destruct ks; simpl; [by rewrite str_app_nil_r|done]. Qed.

Lemma one_byte_key (key : string) :
  one_byte key ->
  key <> "enter" /\ key <> "esc" /\ key <> "backspace".
Proof. unfold one_byte. by intros Hk; split_and!; intros ->. Qed.

(** Typing in search mode. *)
Lemma updates_typed (E : Env) (keys : list string) (rest : list Msg)
    (m : Model) (p : Player) (w : World) :
  searchMode m = true -> Forall one_byte keys ->
  updates E (map KeyMsg keys ++ rest) m p w
  = updates E rest
      (set_searchQuery (searchQuery m +:+ String.concat "" keys) m) p w.
Proof.
  intros Hmode Hkeys. revert m Hmode.
  induction Hkeys as [|k ks Hk _ IH]; intros m Hmode.
  { simpl. rewrite str_app_nil_r. by destruct m. }
  destruct (one_byte_key k Hk) as (? & ? & ?). rewrite concat_cons.
  cbn [map app updates Update]. unfold handleKeyPress, handleSearchInput.
  rewrite Hmode. rewrite !bool_decide_eq_false_2 by done.
  unfold one_byte in Hk. rewrite Hk. simpl.
  rewrite IH by done. simpl. by rewrite str_app_assoc.
Qed.

(** X19: a search as it is typed.  Outside search mode, "/" followed by
    keys of one byte each and "enter" calls [Search] with the text of the
    keys, whatever they are ("q", " ", "n", ...: none of them acts on the
    player), puts the cursor on the first row and leaves search mode; the
    query typed is kept in the model. *)
Theorem typed_query_is_searched (E : Env) (keys : list string) (m : Model)
    (p : Player) (w : World) :
  searchMode m = false ->
  Forall one_byte keys ->
  updates E (KeyMsg "/" :: map KeyMsg keys ++ [KeyMsg "enter"]) m p w
  = (Returns (set_cursor 0 (set_searchQuery (String.concat "" keys) m)),
     fst (Search E (String.concat "" keys) p w),
     snd (Search E (String.concat "" keys) p w)).
Proof.
  intros Hmode Hkeys. cbn [updates Update]. unfold handleKeyPress at 1.
  rewrite Hmode. simpl.
  rewrite updates_typed by done. simpl.
  unfold handleKeyPress, handleSearchInput. simpl.
  destruct (Search E (String.concat "" keys) p w) as [p' w'].
  simpl. do 2 f_equal. destruct m; simpl in *. by subst.
Qed.

Lemma typed_query_is_searched_witness :
  updates Demo.env
    (KeyMsg "/" :: map KeyMsg ["s"; "o"; "n"; "g"; " "; "q"] ++ [KeyMsg "enter"])
    NewModel Demo.player1 Demo.world1
  = (Returns (set_cursor 0
                (set_searchQuery (String.concat "" ["s"; "o"; "n"; "g"; " "; "q"])
                   NewModel)),
     fst (Search Demo.env (String.concat "" ["s"; "o"; "n"; "g"; " "; "q"])
            Demo.player1 Demo.world1),
     snd (Search Demo.env (String.concat "" ["s"; "o"; "n"; "g"; " "; "q"])
            Demo.player1 Demo.world1)).
Proof.
  apply (typed_query_is_searched Demo.env ["s"; "o"; "n"; "g"; " "; "q"]
           NewModel Demo.player1 Demo.world1).
  - reflexivity.
  - repeat constructor.
Defined.

(** X20: in search mode "backspace" takes back the last byte of the query:
    a key of one byte followed by "backspace" leaves the model, the player
    and the store as they were; on an empty query "backspace" does
    nothing. *)
Theorem backspace_undoes_key (E : Env) (key : string) (m : Model)
    (p : Player) (w : World) :
  searchMode m = true ->
  one_byte key ->
  updates E [KeyMsg key; KeyMsg "backspace"] m p w = (Returns m, p, w)
  /\ (searchQuery m = "" ->
      updates E [KeyMsg "backspace"] m p w = (Returns m, p, w)).
Proof.
  intros Hmode Hk. destruct (one_byte_key key Hk) as (? & ? & ?).
  unfold one_byte in Hk. split.
  - cbn [updates Update]. unfold handleKeyPress at 1, handleSearchInput at 1.
    rewrite Hmode. rewrite !bool_decide_eq_false_2 by done. rewrite Hk.
    unfold handleKeyPress, handleSearchInput. simpl. rewrite Hmode. simpl.
    rewrite strlen_app, Hk.
    replace (0 <? strlen (searchQuery m) + 1)%nat with true
      by (symmetry; apply Nat.ltb_lt; lia).
    replace (strlen (searchQuery m) + 1 - 1)%nat with (strlen (searchQuery m))
      by lia.
    rewrite upto_app. by destruct m.
  - intros Hq. cbn [updates Update]. unfold handleKeyPress, handleSearchInput.
    rewrite Hmode, Hq. done.
Qed.

Lemma backspace_undoes_key_witness :
  updates Demo.env [KeyMsg "x"; KeyMsg "backspace"]
    (set_searchQuery "so" (set_searchMode true NewModel))
    Demo.player1 Demo.world1
  = (Returns (set_searchQuery "so" (set_searchMode true NewModel)),
     Demo.player1, Demo.world1).
Proof.
  refine (proj1 (backspace_undoes_key Demo.env "x"
                   (set_searchQuery "so" (set_searchMode true NewModel))
                   Demo.player1 Demo.world1 _ _)).
  - reflexivity.
  - reflexivity.
Defined.

(** X21: "enter" outside search mode plays the row under the cursor: with
    the cursor on a row of the view, the index becomes the cursor and
    [Play()] is called, so that afterwards the index is the cursor.  With
    an empty view, or the cursor at -1 or past the end, "enter" does
    nothing at all. *)
Theorem enter_plays_cursor_row (E : Env) (m : Model) (p : Player) (w : World) :
  searchMode m = false ->
  (Streamer p <> None -> Ctrl p <> None) ->
  (0 <= cursor m < len (FilteredTracks p) ->
   Update E (KeyMsg "enter") m p w
   = (Returns (m, Cmd_nil),
      fst (step E OpPlay (set_CurrentTrack (cursor m) p) w),
      snd (step E OpPlay (set_CurrentTrack (cursor m) p) w))
   /\ CurrentTrack (fst (step E OpPlay (set_CurrentTrack (cursor m) p) w))
      = cursor m)
  /\ (len (FilteredTracks p) <= Z.max 0 (cursor m) ->
      Update E (KeyMsg "enter") m p w = (Returns (m, Cmd_nil), p, w)).
Proof.
  intros Hmode HS. simpl. unfold handleKeyPress. rewrite Hmode. simpl.
  pose proof (len_nonneg (FilteredTracks p)) as Hnn. split.
  - intros Hc.
    destruct (Z.ltb_spec 0 (len (FilteredTracks p))); [|lia].
    destruct (Z.ltb_spec (cursor m) (len (FilteredTracks p))); [|lia].
    simpl. rewrite dropped_Play by (done || simpl; lia).
    split; [done|]. cbn [step].
    destruct (Play E (set_CurrentTrack (cursor m) p) w) as [[out p'] w']
      eqn:HPlay.
    simpl. apply Play_keeps_index in HPlay; simpl in *; [done|lia].
  - intros Hc.
    destruct (Z.ltb_spec 0 (len (FilteredTracks p)));
      destruct (Z.ltb_spec (cursor m) (len (FilteredTracks p))); simpl;
      try done; lia.
Qed.

Lemma enter_plays_cursor_row_witness :
  Update Demo.env (KeyMsg "enter") (set_cursor 2 NewModel)
    Demo.player1 Demo.world1
  = (Returns (set_cursor 2 NewModel, Cmd_nil),
     fst (step Demo.env OpPlay
            (set_CurrentTrack (cursor (set_cursor 2 NewModel)) Demo.player1)
            Demo.world1),
     snd (step Demo.env OpPlay
            (set_CurrentTrack (cursor (set_cursor 2 NewModel)) Demo.player1)
            Demo.world1))
  /\ CurrentTrack
       (fst (step Demo.env OpPlay
               (set_CurrentTrack (cursor (set_cursor 2 NewModel)) Demo.player1)
               Demo.world1))
     = cursor (set_cursor 2 NewModel).
Proof.
  refine (proj1 (enter_plays_cursor_row Demo.env (set_cursor 2 NewModel)
                   Demo.player1 Demo.world1 _ _) _).
  - reflexivity.
  - vm_compute. intros _ H. discriminate H.
  - vm_compute. split; [discriminate|reflexivity].
Defined.

Example enter_on_broken_file :
  let '(_, p, w) :=
    Update Demo.env (KeyMsg "enter") (set_cursor 2 NewModel)
      Demo.player1 Demo.world1 in
  (CurrentTrack p, LoadedTrack p, State p,
   Ctrl_Paused <$> ctrls w, decoded w)
  = (2, 0, Playing, [true],
     ["music/RootArtistA/AlbumX/Song1.mp3"; "music/loose.mp3"]).
Proof. vm_compute. reflexivity. Qed.

(** * A search starts from the catalog; a failed load keeps the new index *)

Lemma run_catalog_frame (E : Env) (ops : list Op) (p : Player) (w : World) :
  slice_ok w (Tracks p) ->
  Tracks (fst (run E ops p w)) = Tracks p
  /\ array_at (snd (run E ops p w)) (s_ptr (Tracks p))
     = array_at w (s_ptr (Tracks p)).
Proof.
  revert p w. induction ops as [|op ops IH]; intros p w Hok; simpl; [done|].
  destruct (step_catalog E op p w Hok) as [HT Harr].
  destruct (step E op p w) as [p1 w1]; simpl in *.
  assert (slice_ok w1 (Tracks p1)) as Hok1.
  { rewrite HT. by apply (slice_ok_frame w). }
  destruct (IH p1 w1 Hok1) as [HT' Harr']. rewrite HT in *.
  split; congruence.
Qed.

(** X24: the result of [Search(q)] depends on the query and the catalog
    only.  Whatever operations were run before, earlier searches included,
    the view after [Search(q)] holds the same tracks in the same order as
    the view [Search(q)] gives at once: searches do not narrow one another
    down. *)
Theorem Search_from_catalog (E : Env) (ops : list Op) (q : string)
    (p : Player) (w : World) :
  slice_ok w (Tracks p) ->
  elems (snd (run E (ops ++ [OpSearch q]) p w))
    (FilteredTracks (fst (run E (ops ++ [OpSearch q]) p w)))
  = elems (snd (Search E q p w)) (FilteredTracks (fst (Search E q p w))).
Proof.
  intros Hok.
  assert (forall ops1 ops2 p0 w0,
            run E (ops1 ++ ops2) p0 w0
            = run E ops2 (fst (run E ops1 p0 w0)) (snd (run E ops1 p0 w0)))
    as Happ.
  { induction ops1 as [|op ops1 IH]; intros ops2 p0 w0; simpl; [done|].
    destruct (step E op p0 w0) as [p1 w1]. apply IH. }
  rewrite Happ. cbn [run step].
  destruct (run_catalog_frame E ops p w Hok) as [HT Harr].
  destruct (run E ops p w) as [p1 w1]; simpl in *.
  assert (slice_ok w1 (Tracks p1)) as Hok1.
  { rewrite HT. by apply (slice_ok_frame w). }
  destruct (Search_elems E q p1 w1 Hok1) as (Hview1 & _).
  destruct (Search_elems E q p w Hok) as (Hview & _).
  destruct (Search E q p1 w1) as [p2 w2]; simpl in *.
  rewrite Hview1, Hview, HT. by rewrite (elems_frame w w1).
Qed.

Lemma Search_from_catalog_witness :
  elems (snd (run Demo.env ([OpSearch "loose"; OpPlay; OpSearch "zzz"]
                            ++ [OpSearch "song"]) Demo.player0 Demo.world0))
    (FilteredTracks
       (fst (run Demo.env ([OpSearch "loose"; OpPlay; OpSearch "zzz"]
                           ++ [OpSearch "song"]) Demo.player0 Demo.world0)))
  = elems (snd (Search Demo.env "song" Demo.player0 Demo.world0))
      (FilteredTracks (fst (Search Demo.env "song" Demo.player0 Demo.world0))).
Proof.
  apply (Search_from_catalog Demo.env [OpSearch "loose"; OpPlay; OpSearch "zzz"]
           "song" Demo.player0 Demo.world0).
  vm_compute. lia.
Defined.

(** X25: [NextTrack()] does not take the index back when the next track
    cannot be loaded.  Away from the end of the view, if the track after
    the current one fails to load with [err], [NextTrack()] returns the
    error of [Play()] that wraps [err], the index has moved on to that
    track, and State, Streamer and LoadedTrack are those from before the
    call, while the control the player had is left paused. *)
Theorem NextTrack_failed_load (E : Env) (p : Player) (w : World)
    (err : error) :
  0 <= CurrentTrack p ->
  CurrentTrack p + 1 < len (FilteredTracks p) ->
  len (FilteredTracks p) < 2 ^ 63 ->
  LoadedTrack p <> CurrentTrack p + 1 ->
  loadTrack E
    (Track.Path (elem_at w (FilteredTracks p) (Z.to_nat (CurrentTrack p + 1))))
  = inr err ->
  NextTrack E p w
  = (Returns (Some (wrapError ("can't load song: " +:+ Error err) err)),
     set_CurrentTrack (CurrentTrack p + 1) p,
     set_decoded
       (decoded w
        ++ [Track.Path
              (elem_at w (FilteredTracks p) (Z.to_nat (CurrentTrack p + 1)))])
       (match Ctrl p with Some c => set_Paused c true w | None => w end)).
Proof.
  intros Hidx Hnext Hint Hloaded Hload. unfold NextTrack.
  destruct (Z.eqb_spec (len (FilteredTracks p)) 0); [lia|]. simpl.
  rewrite wrap64_id by lia.
  destruct (Z.leb_spec (len (FilteredTracks p)) (CurrentTrack p + 1)); [lia|].
  unfold Play. simpl.
  destruct (Z.eqb_spec (len (FilteredTracks p)) 0); [lia|].
  destruct (Z.leb_spec (len (FilteredTracks p)) (CurrentTrack p + 1)); [lia|].
  simpl.
  destruct (Z.eqb_spec (LoadedTrack p) (CurrentTrack p + 1)); [done|].
  rewrite !andb_false_r. unfold index.
  destruct (Z.leb_spec 0 (CurrentTrack p + 1)); [|lia].
  destruct (Z.ltb_spec (CurrentTrack p + 1) (len (FilteredTracks p))); [|lia].
  simpl. rewrite Hload.
  destruct (Ctrl p); simpl; rewrite ?(proj1 (proj2 (proj2 (set_Paused_frame _ _ _)))); done.
Qed.

Lemma NextTrack_failed_load_witness :
  NextTrack Demo.env Demo.player1 Demo.world1
  = (Returns (Some (wrapError ("can't load song: " +:+ Error (errorString "mp3: EOF"))
                      (errorString "mp3: EOF"))),
     set_CurrentTrack (CurrentTrack Demo.player1 + 1) Demo.player1,
     set_decoded
       (decoded Demo.world1
        ++ [Track.Path
              (elem_at Demo.world1 (FilteredTracks Demo.player1)
                 (Z.to_nat (CurrentTrack Demo.player1 + 1)))])
       (match Ctrl Demo.player1 with
        | Some c => set_Paused c true Demo.world1
        | None => Demo.world1
        end)).
Proof.
  apply (NextTrack_failed_load Demo.env Demo.player1 Demo.world1
           (errorString "mp3: EOF")).
  - vm_compute. discriminate.
  - vm_compute. reflexivity.
  - vm_compute. reflexivity.
  - vm_compute. discriminate.
  - vm_compute. reflexivity.
Defined.

Example NextTrack_failed_load_demo :
  let '(_, p, w) := NextTrack Demo.env Demo.player1 Demo.world1 in
  (CurrentTrack p, LoadedTrack p, State p, Ctrl_Paused <$> ctrls w)
  = (1, 0, Playing, [true]).
Proof. vm_compute. reflexivity. Qed.

(** X26: [Stop()] followed by [Play()] starts the current track over from
    its file.  With the index on a row of the view, the [Play()] after a
    [Stop()] neither resumes nor keeps the stream that was loaded: it calls
    [loadTrack] on the path of the current track, and, when that succeeds,
    installs the new stream behind a new control that runs, with State
    [Playing] and LoadedTrack the index. *)
Theorem Stop_then_Play_reloads (E : Env) (p : Player) (w : World) :
  0 <= CurrentTrack p < len (FilteredTracks p) ->
  let path :=
    Track.Path (elem_at w (FilteredTracks p) (Z.to_nat (CurrentTrack p))) in
  let p' := snd (fst (Play E (fst (Stop p w)) (snd (Stop p w)))) in
  let w' := snd (Play E (fst (Stop p w)) (snd (Stop p w))) in
  decoded w' = decoded w ++ [path]
  /\ forall streamer format,
       loadTrack E path = inl (streamer, format) ->
       Streamer p' = Some streamer
       /\ State p' = Playing
       /\ LoadedTrack p' = CurrentTrack p
       /\ Ctrl p' = Some (length (ctrls w))
       /\ ctrls w' !! length (ctrls w)
          = Some {| Ctrl_Streamer := ResampleRatio 4 streamer;
                    Ctrl_Paused := false |}.
Proof.
  intros Hidx. unfold Stop, Play. simpl.
  destruct (Z.eqb_spec (len (FilteredTracks p)) 0); [lia|].
  destruct (Z.leb_spec (len (FilteredTracks p)) (CurrentTrack p)); [lia|].
  simpl. unfold index. simpl.
  destruct (Z.leb_spec 0 (CurrentTrack p)); [|lia].
  destruct (Z.ltb_spec (CurrentTrack p) (len (FilteredTracks p))); [|lia].
  simpl.
  assert (forall w0,
            elem_at (match Ctrl p with
                     | Some c => set_Paused c true w0
                     | None => w0
                     end) (FilteredTracks p) (Z.to_nat (CurrentTrack p))
            = elem_at w0 (FilteredTracks p) (Z.to_nat (CurrentTrack p))) as Hel.
  { intros w0. by destruct (Ctrl p). }
  assert (forall w0,
            decoded (match Ctrl p with
                     | Some c => set_Paused c true w0
                     | None => w0
                     end) = decoded w0
            /\ length (ctrls (match Ctrl p with
                              | Some c => set_Paused c true w0
                              | None => w0
                              end)) = length (ctrls w0)) as Hfr.
  { intros w0. destruct (Ctrl p) as [c|]; [|done].
    by destruct (set_Paused_frame c true w0) as (_ & _ & -> & ->). }
  rewrite !Hel.
  set (w1 := match Ctrl p with Some c => set_Paused c true w | None => w end).
  set (w2 := match Ctrl p with Some c => set_Paused c true w1 | None => w1 end).
  destruct (Hfr w) as [Hd1 Hl1]. destruct (Hfr w1) as [Hd2 Hl2].
  fold w1 in Hd1, Hl1. fold w2 in Hd2, Hl2.
  destruct (loadTrack E _) as [[streamer format]|err] eqn:Hload; simpl.
  - split; [congruence|]. intros ? ? [= <- <-].
    unfold new_Ctrl. simpl. rewrite Hl2, Hl1. split_and!; try done.
    rewrite lookup_app_r by lia. rewrite Hl2, Hl1, Nat.sub_diag. done.
  - split; [congruence|]. intros ? ? [=].
Qed.

Lemma Stop_then_Play_reloads_witness :
  decoded (snd (Play Demo.env (fst (Stop Demo.player1 Demo.world1))
                  (snd (Stop Demo.player1 Demo.world1))))
  = decoded Demo.world1
      ++ [Track.Path (elem_at Demo.world1 (FilteredTracks Demo.player1)
                        (Z.to_nat (CurrentTrack Demo.player1)))].
Proof.
  refine (proj1 (Stop_then_Play_reloads Demo.env Demo.player1 Demo.world1 _)).
  vm_compute. split; [discriminate|reflexivity].
Defined.
